(** * image-color: the colour-extraction core, embedded in Rocq

    The TypeScript sources under [packages/color-extractor/src] are embedded
    function by function.  A JavaScript [number] is modelled as a real
    number (exact arithmetic: rounding, overflow and infinities are outside
    the model); integer quantities (array indices, loop counters, pixel
    channels, counts) are modelled as [Z].  Reading an array outside its
    bounds gives JavaScript's [undefined], and arithmetic on [undefined]
    gives [NaN]: both are modelled by [None] in [option R], wherever the
    source can reach such a read.  A division by zero ([smoothstep] with a
    threshold of 0), the square root of a negative number and the sign of
    zero are outside the model as well.

    The embedding comes first, one module per source file: [gaussian.ts],
    [peaks.ts], [oklch.ts], the two variants of [hue-histogram.ts] (the one
    that ramps the weight with [smoothstep] and the one that gates the
    pixels by chroma), [extract-peak-colors.ts] and the pipeline of
    [extract-colors.ts]; from the pipeline application, the width of the
    band that the histogram view draws for a peak and the lookup table
    that the hook [useColorAdjustWebGL] builds from the colour adjustments.
    The notions used to state the properties follow, then the proofs. *)

From Stdlib Require Import Reals Lra Lia ZArith List Bool Psatz.
From Stdlib Require Import Permutation Sorted.
From Stdlib Require String.
Import ListNotations.

Open Scope R_scope.

(** ** JavaScript primitives used by the sources *)

Module Js.

(** A number that may be [NaN]. *)
Definition number := option R.
Definition NaN : number := None.

Definition add (x y : number) : number :=
  match x, y with
  | Some a, Some b => Some (a + b)
  | _, _ => NaN
  end.

Definition mul (x y : number) : number :=
  match x, y with
  | Some a, Some b => Some (a * b)
  | _, _ => NaN
  end.

(** [a[i]]: [undefined] (here [None]) outside the array. *)
Definition get {A : Type} (a : list A) (i : Z) : option A :=
  if (i <? 0)%Z then None else nth_error a (Z.to_nat i).

(** [a[i]] where the source only reads inside the array. *)
Definition at_ (a : list R) (i : Z) : R := nth (Z.to_nat i) a 0.

(** The [%] operator on integers: the remainder has the sign of the
    dividend. *)
Definition rem (a b : Z) : Z := Z.rem a b.

(** Comparisons. *)
Definition ltb (x y : R) : bool := if Rlt_dec x y then true else false.
Definition leb (x y : R) : bool := if Rle_dec x y then true else false.

(** The indices [0, 1, ..., n-1] of a counting loop. *)
Definition range (n : Z) : list Z := map Z.of_nat (seq 0 (Z.to_nat n)).

(** [Math.max(...a)] for a non-empty array. For the empty array JavaScript
    gives [-Infinity]; no function below consults the maximum of an empty
    array, and the model returns [0] there. *)
Definition maxOf (a : list R) : R :=
  match a with
  | [] => 0
  | x :: t => fold_left Rmax t x
  end.

(** [a.sort((x, y) => key(y) - key(x))]: the sort is stable, so an element
    goes before every later element whose key is not larger.  Insertion
    from the right realises it. *)
Fixpoint insertDesc {A : Type} (key : A -> R) (x : A) (l : list A) : list A :=
  match l with
  | [] => [x]
  | y :: t => if leb (key y) (key x) then x :: y :: t
              else y :: insertDesc key x t
  end.

Definition sortDesc {A : Type} (key : A -> R) (l : list A) : list A :=
  fold_right (insertDesc key) [] l.

(** [a.slice(0, n)] for an integer [n]: a negative [n] counts from the end. *)
Definition slice0 {A : Type} (a : list A) (n : Z) : list A :=
  if (n <? 0)%Z then firstn (Z.to_nat (Z.of_nat (length a) + n)) a
  else firstn (Z.to_nat n) a.

(** [a[i] = f(a[i])] for an index inside the array; other indices leave the
    elements of the array as they are. *)
Fixpoint updNth {A : Type} (f : A -> A) (n : nat) (a : list A) : list A :=
  match a, n with
  | [], _ => []
  | x :: t, O => f x :: t
  | x :: t, S n' => x :: updNth f n' t
  end.

Definition upd {A : Type} (f : A -> A) (i : Z) (a : list A) : list A :=
  if (i <? 0)%Z then a else updNth f (Z.to_nat i) a.

(** How a call completes: normally with a value, or by a thrown error. *)
Inductive completion (A : Type) : Type :=
| Normal (a : A)
| Throw (message : String.string).
Arguments Normal {A} a.
Arguments Throw {A} message.

End Js.

Definition Rsum (l : list R) : R := fold_right Rplus 0 l.

(** ** gaussian.ts *)

Definition generateGaussianKernel (sigma : R) : list R :=
  let radius := Zceil (sigma * 3) in
  let size := (radius * 2 + 1)%Z in
  let kernel :=
    map (fun i => let x := IZR (i - radius) in
                  exp (- (x * x) / (2 * sigma * sigma)))
        (Js.range size) in
  let sum := fold_left Rplus kernel 0 in
  map (fun v => v / sum) kernel.

(** The inner loop of [gaussianSmoothHistogram]: the value of [result[i]]. *)
Definition smoothAt (buckets kernel : list R) (radius len i : Z) : Js.number :=
  fold_left
    (fun sum k =>
       let idx := Js.rem (i + k - radius + len) len in
       Js.add sum (Js.mul (Js.get buckets idx) (Some (Js.at_ kernel k))))
    (Js.range (Z.of_nat (length kernel)))
    (Some 0).

Definition gaussianSmoothHistogram (buckets : list R) (sigma : R)
  : list Js.number :=
  if Js.leb sigma 0 then map Some buckets
  else
    let kernel := generateGaussianKernel sigma in
    let radius := (Z.of_nat (length kernel) / 2)%Z in
    let len := Z.of_nat (length buckets) in
    map (fun i => smoothAt buckets kernel radius len i) (Js.range len).

(** ** peaks.ts *)

Module Peaks.

Record Peak : Type := mkPeak {
  index : Z;   (* peak position (hue degree) *)
  value : R;   (* peak value *)
  left : Z;    (* left boundary (hue degree) *)
  right : Z    (* right boundary (hue degree) *)
}.

(** First loop: all local maxima above the threshold, in index order, with
    [left] and [right] initialised to the index itself. *)
Definition isCandidate (buckets : list R) (threshold : R) (i : Z) : bool :=
  let len := Z.of_nat (length buckets) in
  let prev := Js.at_ buckets (Js.rem (i - 1 + len) len) in
  let curr := Js.at_ buckets i in
  let next := Js.at_ buckets (Js.rem (i + 1) len) in
  Js.ltb prev curr && Js.ltb next curr && Js.leb threshold curr.

Definition candidates (buckets : list R) (threshold : R) : list Peak :=
  let len := Z.of_nat (length buckets) in
  flat_map
    (fun i => if isCandidate buckets threshold i
              then [mkPeak i (Js.at_ buckets i) i i] else [])
    (Js.range len).

(** [for (let i = 1; i < len / 2; i++)] of the left boundary; [left] is the
    value of the loop variable of that name, [fuel] bounds the number of
    iterations still to run (the loop runs fewer than [len] times). *)
Fixpoint leftLoop (buckets : list R) (len idx0 : Z) (fuel : nat)
  (i left : Z) : Z :=
  match fuel with
  | O => left
  | S fuel' =>
      if (2 * i <? len)%Z then
        let idx := Js.rem (idx0 - i + len) len in
        let curr := Js.at_ buckets idx in
        let next := Js.at_ buckets (Js.rem (idx + 1) len) in
        if Js.leb next curr then Js.rem (idx + 1) len
        else leftLoop buckets len idx0 fuel' (i + 1) idx
      else left
  end.

Fixpoint rightLoop (buckets : list R) (len idx0 : Z) (fuel : nat)
  (i right : Z) : Z :=
  match fuel with
  | O => right
  | S fuel' =>
      if (2 * i <? len)%Z then
        let idx := Js.rem (idx0 + i) len in
        let curr := Js.at_ buckets idx in
        let prev := Js.at_ buckets (Js.rem (idx - 1 + len) len) in
        if Js.leb prev curr then Js.rem (idx - 1 + len) len
        else rightLoop buckets len idx0 fuel' (i + 1) idx
      else right
  end.

Definition findBoundaries (buckets : list R) (peak : Peak) : Peak :=
  let len := Z.of_nat (length buckets) in
  let l := leftLoop buckets len (index peak) (length buckets) 1 (index peak) in
  let r := rightLoop buckets len (index peak) (length buckets) 1 (index peak) in
  mkPeak (index peak) (value peak) l r.

Definition detectPeaks (buckets : list R) (minHeight : R) : list Peak :=
  let max := Js.maxOf buckets in
  let threshold := max * minHeight in
  let peaks := candidates buckets threshold in
  Js.sortDesc value (map (findBoundaries buckets) peaks).

(** The default of [DetectPeaksOptions]. *)
Definition defaultMinHeight : R := 0.1.

End Peaks.

(** ** oklch.ts *)

Module Oklch.

(** [Math.cbrt]. *)
Definition cbrt (x : R) : R :=
  if Rlt_dec 0 x then Rpower x (/ 3)
  else if Rlt_dec x 0 then - Rpower (- x) (/ 3)
  else 0.

(** [Math.atan2(y, x)], in radians, in (-PI, PI]. *)
Definition atan2 (y x : R) : R :=
  if Rlt_dec 0 x then atan (y / x)
  else if Rlt_dec x 0 then
    (if Rle_dec 0 y then atan (y / x) + PI else atan (y / x) - PI)
  else if Rlt_dec 0 y then PI / 2
  else if Rlt_dec y 0 then - (PI / 2)
  else 0.

(** [Math.pow] is only applied to positive bases with these exponents. *)
Definition srgbToLinear (c : R) : R :=
  if Rle_dec c 0.04045 then c / 12.92
  else Rpower ((c + 0.055) / 1.055) 2.4.

Definition rgbToOklch (r g b : Z) : R * R * R :=
  let rn := IZR r / 255 in
  let gn := IZR g / 255 in
  let bn := IZR b / 255 in
  let lr := srgbToLinear rn in
  let lg := srgbToLinear gn in
  let lb := srgbToLinear bn in
  let l := 0.4122214708 * lr + 0.5363325363 * lg + 0.0514459929 * lb in
  let m := 0.2119034982 * lr + 0.6806995451 * lg + 0.1073969566 * lb in
  let s := 0.0883024619 * lr + 0.2817188376 * lg + 0.6299787005 * lb in
  let l_ := cbrt l in
  let m_ := cbrt m in
  let s_ := cbrt s in
  let L := 0.2104542553 * l_ + 0.7936177850 * m_ - 0.0040720468 * s_ in
  let a := 1.9779984951 * l_ - 2.4285922050 * m_ + 0.4505937099 * s_ in
  let bLab := 0.0259040371 * l_ + 0.7827717662 * m_ - 0.8086757660 * s_ in
  let C := sqrt (a * a + bLab * bLab) in
  let H := atan2 bLab a * (180 / PI) in
  let H := if Rlt_dec H 0 then H + 360 else H in
  (L, C, H).

End Oklch.

(** ** hue-histogram.ts: the types shared by its two variants *)

Module Histogram.

Record ImageData : Type := mkImageData {
  data : list Z;   (* Uint8ClampedArray: R, G, B, A per pixel *)
  width : Z;
  height : Z
}.

Record HueHistogram : Type := mkHueHistogram {
  buckets : list R;
  chromaSum : list R;
  lightnessSum : list R;
  counts : list Z;
  max : R;
  total : Js.number
}.

(** The mutable variables of the pixel loop. *)
Record Acc : Type := mkAcc {
  accBuckets : list R;
  accChromaSum : list R;
  accLightnessSum : list R;
  accCounts : list Z;
  accTotal : Js.number
}.

Definition init : Acc :=
  mkAcc (repeat 0 360) (repeat 0 360) (repeat 0 360) (repeat 0%Z 360) (Some 0).

Definition finish (s : Acc) : HueHistogram :=
  mkHueHistogram (accBuckets s) (accChromaSum s) (accLightnessSum s)
    (accCounts s) (Js.maxOf (accBuckets s)) (accTotal s).

(** [if (a < 200) continue]: the comparison is false for [undefined]. *)
Definition transparent (a : option Z) : bool :=
  match a with
  | Some v => (v <? 200)%Z
  | None => false
  end.

(** The accumulation at the end of the loop body, for a pixel whose colour
    is a triple of real numbers.  The hue of [rgbToOklch] is in [0, 360)
    (lemma [rgbToOklch_bucket]), so that the bucket is an index of the four
    arrays. *)
Definition accumulate (s : Acc) (l c h weight : R) : Acc :=
  let bucket := Js.rem (Zfloor h) 360 in
  mkAcc (Js.upd (fun v => v + weight) bucket (accBuckets s))
        (Js.upd (fun v => v + c) bucket (accChromaSum s))
        (Js.upd (fun v => v + l) bucket (accLightnessSum s))
        (Js.upd (fun v => (v + 1)%Z) bucket (accCounts s))
        (Js.add (accTotal s) (Some weight)).

(** The loop body for a pixel with an [undefined] channel: [l], [c] and
    [h] are [NaN], no comparison with them holds, the bucket is [NaN], and
    the four [+=] write the property ["NaN"] of the arrays, not an
    element.  Only [total] changes. *)
Definition accumulateNaN (s : Acc) (weight : Js.number) : Acc :=
  mkAcc (accBuckets s) (accChromaSum s) (accLightnessSum s) (accCounts s)
        (Js.add (accTotal s) weight).

End Histogram.

(** ** hue-histogram.ts *)

Module HueHistogram.
Import Histogram.

Inductive HistogramWeightMode : Type := count | chroma.

Record ExtractHueHistogramOptions : Type := mkOptions {
  satThreshold : R;
  weightMode : HistogramWeightMode;
  lightnessMargin : R
}.

Definition defaults : ExtractHueHistogramOptions := mkOptions 0.02 chroma 0.

Definition smoothstep (edge0 edge1 x : R) : R :=
  let t := Rmax 0 (Rmin 1 ((x - edge0) / (edge1 - edge0))) in
  t * t * (3 - 2 * t).

Definition pixel (img : ImageData) (options : ExtractHueHistogramOptions)
  (s : Acc) (i : Z) : Acc :=
  let minLightness := lightnessMargin options in
  let maxLightness := 1 - lightnessMargin options in
  let offset := (i * 4)%Z in
  let r := Js.get (data img) offset in
  let g := Js.get (data img) (offset + 1) in
  let b := Js.get (data img) (offset + 2) in
  let a := Js.get (data img) (offset + 3) in
  if transparent a then s
  else
    match r, g, b with
    | Some r, Some g, Some b =>
        let '(l, c, h) := Oklch.rgbToOklch r g b in
        if Js.ltb l minLightness || Js.ltb maxLightness l then s
        else
          let weight :=
            match weightMode options with
            | count => 1
            | chroma => smoothstep 0 (satThreshold options) c
            end in
          accumulate s l c h weight
    | _, _, _ =>
        accumulateNaN s
          match weightMode options with
          | count => Some 1
          | chroma => Js.NaN
          end
    end.

(** The function has no [throw], and none of its statements can raise: the
    array reads and the four [+=] are defined for every index, and
    [Math.max] is applied to the 360 buckets.  It completes normally. *)
Definition extractHueHistogram (imageData : ImageData)
  (options : ExtractHueHistogramOptions) : Js.completion HueHistogram :=
  Js.Normal
    (finish (fold_left (pixel imageData options)
               (Js.range (width imageData * height imageData)) init)).

End HueHistogram.

(** ** hue-histogram.ts, the variant with a chroma gate and the
    [chromaLightness] weight *)

Module HueHistogramGated.
Import Histogram.

Inductive HistogramWeightMode : Type := count | chroma | chromaLightness.

Record ExtractHueHistogramOptions : Type := mkOptions {
  minChroma : R;
  weightMode : HistogramWeightMode;
  lightnessMargin : R
}.

Definition defaults : ExtractHueHistogramOptions :=
  mkOptions 0.02 chromaLightness 0.

Definition pixel (img : ImageData) (options : ExtractHueHistogramOptions)
  (s : Acc) (i : Z) : Acc :=
  let minLightness := lightnessMargin options in
  let maxLightness := 1 - lightnessMargin options in
  let offset := (i * 4)%Z in
  let r := Js.get (data img) offset in
  let g := Js.get (data img) (offset + 1) in
  let b := Js.get (data img) (offset + 2) in
  let a := Js.get (data img) (offset + 3) in
  if transparent a then s
  else
    match r, g, b with
    | Some r, Some g, Some b =>
        let '(l, c, h) := Oklch.rgbToOklch r g b in
        if Js.ltb c (minChroma options) then s
        else if Js.ltb l minLightness || Js.ltb maxLightness l then s
        else
          let weight :=
            match weightMode options with
            | count => 1
            | chroma => c
            | chromaLightness =>
                let lightnessWeight := 1 - 2 * Rabs (l - 0.5) in
                c * Rmax lightnessWeight 0
            end in
          accumulate s l c h weight
    | _, _, _ =>
        accumulateNaN s
          match weightMode options with
          | count => Some 1
          | _ => Js.NaN
          end
    end.

(** As in the other variant, no statement can raise. *)
Definition extractHueHistogram (imageData : ImageData)
  (options : ExtractHueHistogramOptions) : Js.completion HueHistogram :=
  Js.Normal
    (finish (fold_left (pixel imageData options)
               (Js.range (width imageData * height imageData)) init)).

End HueHistogramGated.

(** ** extract-peak-colors.ts *)

Module PeakColors.
Import Peaks Histogram.

(** *** Colour-space conversion utilities *)

Definition linearToSrgb (c : R) : R :=
  if Rle_dec c 0.0031308 then 12.92 * c
  else 1.055 * Rpower c (1 / 2.4) - 0.055.

Definition oklchToSrgb (L C H : R) : R * R * R :=
  let hRad := (H * PI) / 180 in
  let a := C * cos hRad in
  let b := C * sin hRad in
  let l_ := L + 0.3963377774 * a + 0.2158037573 * b in
  let m_ := L - 0.1055613458 * a - 0.0638541728 * b in
  let s_ := L - 0.0894841775 * a - 1.291485548 * b in
  let l := l_ * l_ * l_ in
  let m := m_ * m_ * m_ in
  let s := s_ * s_ * s_ in
  let lr := 4.0767416621 * l - 3.3077115913 * m + 0.2309699292 * s in
  let lg := -1.2684380046 * l + 2.6097574011 * m - 0.3413193965 * s in
  let lb := -0.0041960863 * l - 0.7034186147 * m + 1.707614701 * s in
  (Rmax 0 (Rmin 1 (linearToSrgb lr)),
   Rmax 0 (Rmin 1 (linearToSrgb lg)),
   Rmax 0 (Rmin 1 (linearToSrgb lb))).

Definition srgbToXyz (r g b : R) : R * R * R :=
  let toLinear := fun c : R =>
    if Rle_dec c 0.04045 then c / 12.92
    else Rpower ((c + 0.055) / 1.055) 2.4 in
  let lr := toLinear r in
  let lg := toLinear g in
  let lb := toLinear b in
  let x := 0.4124564 * lr + 0.3575761 * lg + 0.1804375 * lb in
  let y := 0.2126729 * lr + 0.7151522 * lg + 0.072175 * lb in
  let z := 0.0193339 * lr + 0.119192 * lg + 0.9503041 * lb in
  (x, y, z).

Definition xyzToLab (x y z : R) : R * R * R :=
  let xn := 0.95047 in
  let yn := 1.0 in
  let zn := 1.08883 in
  let f := fun t : R =>
    if Rlt_dec 0.008856 t then Oklch.cbrt t else 7.787 * t + 16 / 116 in
  let fx := f (x / xn) in
  let fy := f (y / yn) in
  let fz := f (z / zn) in
  let L := 116 * fy - 16 in
  let a := 500 * (fx - fy) in
  let b := 200 * (fy - fz) in
  (L, a, b).

Definition oklchToLab (L C H : R) : R * R * R :=
  let '(r, g, b) := oklchToSrgb L C H in
  let '(x, y, z) := srgbToXyz r g b in
  xyzToLab x y z.

(** CIEDE2000.  [Math.pow] with the exponents 7 and 2 is the integer power;
    [Math.sqrt] of a negative number is [NaN] in the source and [0] here. *)
Definition deltaE2000 (L1 a1 b1 L2 a2 b2 : R) : R :=
  let rad := PI / 180 in
  let deg := 180 / PI in
  let C1 := sqrt (a1 * a1 + b1 * b1) in
  let C2 := sqrt (a2 * a2 + b2 * b2) in
  let Cavg := (C1 + C2) / 2 in
  let G := 0.5 * (1 - sqrt (Cavg ^ 7 / (Cavg ^ 7 + 25 ^ 7))) in
  let a1p := a1 * (1 + G) in
  let a2p := a2 * (1 + G) in
  let C1p := sqrt (a1p * a1p + b1 * b1) in
  let C2p := sqrt (a2p * a2p + b2 * b2) in
  let h1p := Oklch.atan2 b1 a1p * deg in
  let h1p := if Rlt_dec h1p 0 then h1p + 360 else h1p in
  let h2p := Oklch.atan2 b2 a2p * deg in
  let h2p := if Rlt_dec h2p 0 then h2p + 360 else h2p in
  let dLp := L2 - L1 in
  let dCp := C2p - C1p in
  let dhp :=
    if Req_dec_T (C1p * C2p) 0 then 0
    else
      let diff := h2p - h1p in
      if Rlt_dec 180 diff then diff - 360
      else if Rlt_dec diff (-180) then diff + 360
      else diff in
  let dHp := 2 * sqrt (C1p * C2p) * sin ((dhp / 2) * rad) in
  let Lp := (L1 + L2) / 2 in
  let Cp := (C1p + C2p) / 2 in
  let hp :=
    if Req_dec_T (C1p * C2p) 0 then h1p + h2p
    else if Rle_dec (Rabs (h1p - h2p)) 180 then (h1p + h2p) / 2
    else if Rlt_dec (h1p + h2p) 360 then (h1p + h2p + 360) / 2
    else (h1p + h2p - 360) / 2 in
  let T :=
    1 - 0.17 * cos ((hp - 30) * rad)
      + 0.24 * cos (2 * hp * rad)
      + 0.32 * cos ((3 * hp + 6) * rad)
      - 0.2 * cos ((4 * hp - 63) * rad) in
  let dTheta := 30 * exp (- ((hp - 275) / 25) ^ 2) in
  let RC := 2 * sqrt (Cp ^ 7 / (Cp ^ 7 + 25 ^ 7)) in
  let SL := 1 + (0.015 * (Lp - 50) ^ 2) / sqrt (20 + (Lp - 50) ^ 2) in
  let SC := 1 + 0.045 * Cp in
  let SH := 1 + 0.015 * Cp * T in
  let RT := - sin (2 * dTheta * rad) * RC in
  let kL := 1 in
  let kC := 1 in
  let kH := 1 in
  sqrt ((dLp / (kL * SL)) ^ 2
        + (dCp / (kC * SC)) ^ 2
        + (dHp / (kH * SH)) ^ 2
        + RT * (dCp / (kC * SC)) * (dHp / (kH * SH))).

(** *** Main types and functions *)

Inductive ColorMode : Type := peak | average.

(** The [cssColor] string, a rendering of the three numbers with
    [toFixed], is not modelled: no function reads it. *)
Record PeakColor : Type := mkPeakColor {
  hue : R;
  chroma : R;
  lightness : R;
  weight : R;
  source : Peak     (* the field [peak] *)
}.

Record ExtractPeakColorsOptions : Type := mkOptions {
  mode : ColorMode;
  threshold : R;
  maxColors : Z;
  minDistance : R
}.

(** The defaults of the optional fields. *)
Definition withDefaults (m : ColorMode) : ExtractPeakColorsOptions :=
  mkOptions m 0 5 0.

(** [for (let i = lo; i <= hi; i++) indices.push(i)]. *)
Definition fromTo (lo hi : Z) : list Z :=
  map (fun k => (lo + Z.of_nat k)%Z) (seq 0 (Z.to_nat (hi - lo + 1))).

Definition getPeakIndices (p : Peak) : list Z :=
  if (left p <=? right p)%Z then fromTo (left p) (right p)
  else fromTo (left p) 359 ++ fromTo 0 (right p).

(** The peaks come from [detectPeaks] on 360 buckets, so that the reads
    [buckets[idx]] are inside the array. *)
Definition calculatePeakWeight (buckets : list R) (p : Peak) : R :=
  fold_left (fun totalWeight idx => totalWeight + Js.at_ buckets idx)
    (getPeakIndices p) 0.

Definition colorDistance (c1 c2 : PeakColor) : R :=
  let '(L1, a1, b1) := oklchToLab (lightness c1) (chroma c1) (hue c1) in
  let '(L2, a2, b2) := oklchToLab (lightness c2) (chroma c2) (hue c2) in
  deltaE2000 L1 a1 b1 L2 a2 b2.

(** The inner loop of [filterByDistance]: the pair
    ([shouldAdd], [replaceIndex]) when it ends; [i] is the index of the
    head of [result] in the whole list. *)
Fixpoint findSimilar (color : PeakColor) (minDistance : R)
  (result : list PeakColor) (i : nat) : bool * option nat :=
  match result with
  | [] => (true, None)
  | r :: rest =>
      if Js.ltb (colorDistance color r) minDistance then
        if Js.ltb (chroma r) (chroma color) then (true, Some i)
        else (false, None)
      else findSimilar color minDistance rest (S i)
  end.

Definition filterStep (minDistance : R) (result : list PeakColor)
  (color : PeakColor) : list PeakColor :=
  match findSimilar color minDistance result 0 with
  | (_, Some replaceIndex) => Js.updNth (fun _ => color) replaceIndex result
  | (true, None) => result ++ [color]
  | (false, None) => result
  end.

Definition filterByDistance (colors : list PeakColor) (minDistance : R)
  : list PeakColor :=
  if Js.leb minDistance 0 || (length colors <=? 1)%nat then colors
  else fold_left (filterStep minDistance) colors [].

(** [histogram.counts[i]], read inside the 360 counts. *)
Definition countAt (counts : list Z) (i : Z) : Z := nth (Z.to_nat i) counts 0%Z.

(** The variables of the averaging loop. *)
Record Avg : Type := mkAvg {
  totalWeight : R;
  hueX : R;
  hueY : R;
  chromaWeighted : R;
  lightnessWeighted : R
}.

Definition averageStep (histogram : HueHistogram) (smoothedBuckets : list R)
  (minValue : R) (s : Avg) (idx : Z) : Avg :=
  let count := countAt (counts histogram) idx in
  if (count =? 0)%Z then s
  else
    let bucketValue := Js.at_ smoothedBuckets idx in
    if Js.ltb bucketValue minValue then s
    else
      let w := bucketValue in
      let avgChroma := Js.at_ (chromaSum histogram) idx / IZR count in
      let avgLightness := Js.at_ (lightnessSum histogram) idx / IZR count in
      let rad := (IZR idx * PI) / 180 in
      mkAvg (totalWeight s + w)
            (hueX s + cos rad * w)
            (hueY s + sin rad * w)
            (chromaWeighted s + avgChroma * w)
            (lightnessWeighted s + avgLightness * w).

(** The body of the loop over the peaks: the colour pushed for one peak, if
    any.  Its reads of [counts], [chromaSum], [lightnessSum] and
    [smoothedBuckets] are modelled inside the arrays (360 entries, a peak
    whose index and boundaries are in [0, 360)); outside them the source
    reads [undefined], which is not modelled here. *)
Definition resolvePeak (histogram : HueHistogram) (smoothedBuckets : list R)
  (options : ExtractPeakColorsOptions) (p : Peak) : option PeakColor :=
  let weight := calculatePeakWeight smoothedBuckets p in
  let clamp := fun h c l : R =>
    let l := Rmax 0 (Rmin 1 l) in
    let c := Rmax 0 (Rmin 0.4 c) in
    Some (mkPeakColor h c l weight p) in
  match mode options with
  | peak =>
      let count := countAt (counts histogram) (index p) in
      if (count =? 0)%Z then None
      else
        clamp (IZR (index p))
              (Js.at_ (chromaSum histogram) (index p) / IZR count)
              (Js.at_ (lightnessSum histogram) (index p) / IZR count)
  | average =>
      let indices := getPeakIndices p in
      let peakBucketValue := Js.at_ smoothedBuckets (index p) in
      let minValue := peakBucketValue * threshold options in
      let s := fold_left (averageStep histogram smoothedBuckets minValue)
                 indices (mkAvg 0 0 0 0 0) in
      if Js.leb (totalWeight s) 0 then None
      else
        let h := (Oklch.atan2 (hueY s) (hueX s) * 180) / PI in
        let h := if Rlt_dec h 0 then h + 360 else h in
        clamp h (chromaWeighted s / totalWeight s)
                (lightnessWeighted s / totalWeight s)
  end.

Definition extractPeakColors (histogram : HueHistogram) (peaks : list Peak)
  (smoothedBuckets : list R) (options : ExtractPeakColorsOptions)
  : list PeakColor :=
  let results :=
    flat_map (fun p =>
                match resolvePeak histogram smoothedBuckets options p with
                | Some c => [c]
                | None => []
                end) peaks in
  let sorted := Js.sortDesc weight results in
  let filtered := filterByDistance sorted (minDistance options) in
  Js.slice0 filtered (maxColors options).

End PeakColors.

(** ** extract-colors.ts *)

Module ExtractColors.
Import Histogram.

Record ExtractColorsOptions : Type := mkOptions {
  size : R;
  satThreshold : R;
  weightMode : HueHistogram.HistogramWeightMode;
  lightnessMargin : R;
  sigma : R;
  minHeight : R;
  colorMode : PeakColors.ColorMode;
  threshold : R;
  maxColors : Z;
  minDistance : R
}.

(** The defaults of the destructuring in [extractColors]. *)
Definition defaults : ExtractColorsOptions :=
  mkOptions 256 0.1 HueHistogram.chroma 0.1 2 0.005 PeakColors.average 0.2 5 10.

(** An array of numbers none of which is [NaN]. *)
Fixpoint numbers (l : list Js.number) : option (list R) :=
  match l with
  | [] => Some []
  | Some x :: t =>
      match numbers t with
      | Some t' => Some (x :: t')
      | None => None
      end
  | None :: _ => None
  end.

(** The body of [extractColors] after [loadImageData] has resolved with
    [imageData]; loading and downsampling the image are the browser's work
    and are not modelled.  The comparisons of [detectPeaks] and
    [extractPeakColors] are modelled on numbers: when a smoothed bucket is
    [NaN] (lemma [smoothAt_NaN]) the run is outside the model, and the
    result here is [None]. *)
Definition extractColors (imageData : ImageData)
  (options : ExtractColorsOptions) : option (list PeakColors.PeakColor) :=
  match HueHistogram.extractHueHistogram imageData
          (HueHistogram.mkOptions (satThreshold options) (weightMode options)
             (lightnessMargin options)) with
  | Js.Normal histogram =>
      match numbers (gaussianSmoothHistogram (buckets histogram)
                       (sigma options)) with
      | Some smoothedBuckets =>
          let peaks := Peaks.detectPeaks smoothedBuckets (minHeight options) in
          Some (PeakColors.extractPeakColors histogram peaks smoothedBuckets
                  (PeakColors.mkOptions (colorMode options) (threshold options)
                     (maxColors options) (minDistance options)))
      | None => None
      end
  | Js.Throw _ => None
  end.

End ExtractColors.

(** ** components/HueHistogram.tsx: the width of the band drawn for a peak *)

Module HistogramView.
Import Peaks.

Definition getPeakWidth (peak : Peak) : Z :=
  if (right peak >=? left peak)%Z then (right peak - left peak + 1)%Z
  else (360 - left peak + right peak + 1)%Z.

End HistogramView.

(** ** useColorAdjustWebGL.ts: the lookup table of the colour adjustments *)

Module Lut.
Import Peaks.

Record ColorAdjustment : Type := mkAdjustment {
  hue : R;          (* hue offset in degrees *)
  saturation : R;
  lightness : R
}.

(** [ColorAdjustments]: an object indexed by the position of the colour;
    [None] where it has no entry. *)
Definition ColorAdjustments : Type := Z -> option ColorAdjustment.

Definition DEFAULT_ADJUSTMENT : ColorAdjustment := mkAdjustment 0 0 0.

Definition LUT_SIZE : Z := 8.
Definition TWO_PI : R := PI * 2.

(** [===] on numbers. *)
Definition strictEq (x y : R) : bool := if Req_dec_T x y then true else false.

Definition clamp (v lo hi : R) : R := Rmax lo (Rmin hi v).

(** The [%] operator on numbers: the quotient is truncated towards zero,
    and the remainder has the sign of the dividend. *)
Definition truncate (x : R) : Z := if Rlt_dec x 0 then Zceil x else Zfloor x.
Definition fmod (x m : R) : R := x - m * IZR (truncate (x / m)).

Definition wrapHue (h : R) : R :=
  let x := fmod h TWO_PI in
  if Rlt_dec x 0 then x + TWO_PI else x.

Definition hueDist (h1 h2 : R) : R :=
  let d := Rabs (h1 - h2) in
  Rmin d (TWO_PI - d).

Definition smoothstep (edge0 edge1 x : R) : R :=
  let t := clamp ((x - edge0) / (edge1 - edge0)) 0 1 in
  t * t * (3 - 2 * t).

(** [Math.round]: the nearest integer, halves upwards. *)
Definition round (x : R) : Z := Zfloor (x + 0.5).

Definition encodeByte (v : R) : Z := round (((v + 1) / 2) * 200).

(** The conversion of an integer stored into a [Uint8Array]. *)
Definition toUint8 (z : Z) : Z := (z mod 256)%Z.

(** The variables [brightness], [saturation] and [hueShift] of a segment. *)
Record Sums : Type := mkSums {
  brightnessOf : R;
  saturationOf : R;
  hueShiftOf : R
}.

(** The callback of [peakColors.forEach] for the segment of centre
    [segmentHue]. *)
Definition accumulate (adjustments : ColorAdjustments) (segmentHue : R)
  (s : Sums) (color : PeakColors.PeakColor) (index : Z) : Sums :=
  let peak := PeakColors.source color in
  let adj := match adjustments index with
             | Some a => a
             | None => DEFAULT_ADJUSTMENT
             end in
  if strictEq (hue adj) 0 && strictEq (saturation adj) 0
     && strictEq (lightness adj) 0
  then s
  else
    let peakHue := wrapHue ((PeakColors.hue color * PI) / 180) in
    let rangeWidth :=
      if (right peak >=? left peak)%Z
      then (IZR (right peak - left peak) * PI) / 180
      else (IZR (360 - left peak + right peak) * PI) / 180 in
    let minHalfWidth := (22.5 * PI) / 180 in
    let halfWidth := Rmax (rangeWidth / 2) minHalfWidth in
    let feather := 0.3 in
    let featherStart := halfWidth * (1 - feather) in
    let dist := hueDist segmentHue peakHue in
    let weight := 1 - smoothstep featherStart halfWidth dist in
    if Js.leb weight 0 then s
    else mkSums (brightnessOf s + lightness adj * weight)
                (saturationOf s + saturation adj * weight)
                (hueShiftOf s + (hue adj / 180) * weight).

(** [peakColors.forEach((color, index) => ...)], from position [index]. *)
Fixpoint forEach (f : Sums -> PeakColors.PeakColor -> Z -> Sums)
  (colors : list PeakColors.PeakColor) (index : Z) (s : Sums) : Sums :=
  match colors with
  | [] => s
  | color :: rest => forEach f rest (index + 1) (f s color index)
  end.

(** The four bytes written for segment [i]. *)
Definition segment (peakColors : list PeakColors.PeakColor)
  (adjustments : ColorAdjustments) (i : Z) : list Z :=
  let segmentHue := ((IZR i + 0.5) / IZR LUT_SIZE) * TWO_PI in
  let s := forEach (accumulate adjustments segmentHue) peakColors 0
             (mkSums 0 0 0) in
  let brightness := clamp (brightnessOf s) (-1) 1 in
  let saturation := clamp (saturationOf s) (-1) 1 in
  let hueShift := clamp (hueShiftOf s) (-1) 1 in
  [toUint8 (encodeByte brightness); toUint8 (encodeByte saturation);
   toUint8 (encodeByte hueShift); toUint8 255].

(** The loop writes the bytes [4 * i] to [4 * i + 3] of the array for
    [i = 0, ..., 7] in turn: the array is the segments one after the
    other. *)
Definition buildLUTData (peakColors : list PeakColors.PeakColor)
  (adjustments : ColorAdjustments) : list Z :=
  flat_map (segment peakColors adjustments) (Js.range LUT_SIZE).

End Lut.

(** * Notions used to state the properties *)

(** [Σ l] of an array of numbers, in JavaScript arithmetic. *)
Definition sumNumbers (l : list Js.number) : Js.number :=
  fold_left Js.add l (Some 0).

Definition minOf (a : list R) : R :=
  match a with
  | [] => 0
  | x :: t => fold_left Rmin t x
  end.

(** The circular convolution that [smoothAt] computes when every read is
    inside the array. *)
Definition convolveAt (buckets kernel : list R) (radius len i : Z) : R :=
  Rsum (map (fun k => Js.at_ buckets (Js.rem (i + k - radius + len) len)
                      * Js.at_ kernel k)
            (Js.range (Z.of_nat (length kernel)))).

Definition descending {A : Type} (key : A -> R) (l : list A) : Prop :=
  StronglySorted (fun a b => key b <= key a) l.

(** The arc from [l] to [r], through 0 when [r < l]. *)
Definition arcContains (l r i : Z) : Prop :=
  if (l <=? r)%Z then (l <= i <= r)%Z else (l <= i \/ i <= r)%Z.

(** [k] strict descents outward on the left of bucket [idx0], then a stop:
    fewer than half a ring of steps, and either the ring's half is
    reached or the next bucket is not smaller. *)
Definition leftRun (buckets : list R) (idx0 k : Z) : Prop :=
  let len := Z.of_nat (length buckets) in
  (0 <= k)%Z /\ (k = 0 \/ 2 * k < len)%Z
  /\ (forall j, (1 <= j <= k)%Z ->
        Js.at_ buckets ((idx0 - j) mod len)
        < Js.at_ buckets ((idx0 - j + 1) mod len))
  /\ ((2 * (k + 1) < len)%Z ->
        Js.at_ buckets ((idx0 - k) mod len)
        <= Js.at_ buckets ((idx0 - k - 1) mod len)).

Definition rightRun (buckets : list R) (idx0 k : Z) : Prop :=
  let len := Z.of_nat (length buckets) in
  (0 <= k)%Z /\ (k = 0 \/ 2 * k < len)%Z
  /\ (forall j, (1 <= j <= k)%Z ->
        Js.at_ buckets ((idx0 + j) mod len)
        < Js.at_ buckets ((idx0 + j - 1) mod len))
  /\ ((2 * (k + 1) < len)%Z ->
        Js.at_ buckets ((idx0 + k) mod len)
        <= Js.at_ buckets ((idx0 + k + 1) mod len)).

(** The pixel loop as the specification describes it. *)
Module Tally.
Import Histogram.

Definition channel (img : ImageData) (z : Z) : Z :=
  nth (Z.to_nat z) (data img) 0%Z.

Definition oklchOf (img : ImageData) (i : Z) : R * R * R :=
  Oklch.rgbToOklch (channel img (i * 4)) (channel img (i * 4 + 1))
    (channel img (i * 4 + 2)).

Definition lightnessOf (img : ImageData) (i : Z) : R := fst (fst (oklchOf img i)).
Definition chromaOf (img : ImageData) (i : Z) : R := snd (fst (oklchOf img i)).
Definition hueOf (img : ImageData) (i : Z) : R := snd (oklchOf img i).

Definition bucketOf (img : ImageData) (i : Z) : Z :=
  Js.rem (Zfloor (hueOf img i)) 360.

(** The alpha cutoff and the lightness window. *)
Definition included (margin : R) (img : ImageData) (i : Z) : bool :=
  negb (channel img (i * 4 + 3) <? 200)%Z
  && negb (Js.ltb (lightnessOf img i) margin
           || Js.ltb (1 - margin) (lightnessOf img i)).

(** The chroma gate. *)
Definition gated (minChroma : R) (img : ImageData) (i : Z) : bool :=
  Js.ltb (chromaOf img i) minChroma.

(** The pixels that a predicate lets into bucket [k], in scan order. *)
Definition pixelsOf (inc : Z -> bool) (img : ImageData) (k : Z) : list Z :=
  filter (fun i => inc i && (bucketOf img i =? k)%Z)
    (Js.range (width img * height img)).

(** The buffer holds [width * height] pixels of four channels. *)
Definition wellFormed (img : ImageData) : Prop :=
  (0 <= width img)%Z /\ (0 <= height img)%Z
  /\ Z.of_nat (length (data img)) = (width img * height img * 4)%Z.

Definition weightOf (options : HueHistogram.ExtractHueHistogramOptions)
  (img : ImageData) (i : Z) : R :=
  match HueHistogram.weightMode options with
  | HueHistogram.count => 1
  | HueHistogram.chroma =>
      HueHistogram.smoothstep 0 (HueHistogram.satThreshold options)
        (chromaOf img i)
  end.

Definition weightOfGated (options : HueHistogramGated.ExtractHueHistogramOptions)
  (img : ImageData) (i : Z) : R :=
  match HueHistogramGated.weightMode options with
  | HueHistogramGated.count => 1
  | HueHistogramGated.chroma => chromaOf img i
  | HueHistogramGated.chromaLightness =>
      chromaOf img i * Rmax (1 - 2 * Rabs (lightnessOf img i - 0.5)) 0
  end.

(** The loop body for a pixel whose four channels are inside the buffer:
    [inc] decides whether it is counted, [l], [c], [h] and [w] are its
    colour and weight. *)
Definition step (inc : Z -> bool) (l c h w : Z -> R) (s : Acc) (i : Z) : Acc :=
  if inc i then accumulate s (l i) (c i) (h i) (w i) else s.

Definition hits (inc : Z -> bool) (h : Z -> R) (k : Z) (px : list Z) : list Z :=
  filter (fun i => inc i && (Js.rem (Zfloor (h i)) 360 =? k)%Z) px.

Definition sized (s : Acc) : Prop :=
  length (accBuckets s) = 360%nat /\ length (accChromaSum s) = 360%nat
  /\ length (accLightnessSum s) = 360%nat /\ length (accCounts s) = 360%nat.

Definition emptyHistogram (total : Js.number) : HueHistogram :=
  mkHueHistogram (repeat 0 360) (repeat 0 360) (repeat 0 360)
    (repeat 0%Z 360) 0 total.

(** One opaque black pixel. *)
Definition blackPixel : ImageData := mkImageData [0; 0; 0; 255]%Z 1 1.

End Tally.

(** The distance merge. *)
Module Merge.
Import Peaks PeakColors.

(** Each colour is at least [minDistance] from every colour before it. *)
Fixpoint separatedFrom (minDistance : R) (before colors : list PeakColor)
  : Prop :=
  match colors with
  | [] => True
  | c :: rest =>
      Forall (fun r => minDistance <= colorDistance c r) before
      /\ separatedFrom minDistance (before ++ [c]) rest
  end.

Definition separated (minDistance : R) (colors : list PeakColor) : Prop :=
  separatedFrom minDistance [] colors.

(** The linear RGB of the colour (L, C) at hue 0, and the CIE Lab of a
    linear RGB in the linear segments of both transfer functions. *)
Definition linearRgb (L C : R) : R * R * R :=
  let l_ := L + 0.3963377774 * C in
  let m_ := L - 0.1055613458 * C in
  let s_ := L - 0.0894841775 * C in
  let l := l_ * l_ * l_ in
  let m := m_ * m_ * m_ in
  let s := s_ * s_ * s_ in
  (4.0767416621 * l - 3.3077115913 * m + 0.2309699292 * s,
   -1.2684380046 * l + 2.6097574011 * m - 0.3413193965 * s,
   -0.0041960863 * l - 0.7034186147 * m + 1.707614701 * s).

Definition labOfLinear (lr lg lb : R) : R * R * R :=
  let x := 0.4124564 * lr + 0.3575761 * lg + 0.1804375 * lb in
  let y := 0.2126729 * lr + 0.7151522 * lg + 0.072175 * lb in
  let z := 0.0193339 * lr + 0.119192 * lg + 0.9503041 * lb in
  (903.292 * y, 3893.5 * (x / 0.95047 - y), 1557.4 * (y - z / 1.08883)).

(** Three dark colours, listed by descending weight. *)
Definition colorA : PeakColor := mkPeakColor 0 0 0 3 (mkPeak 10 3 5 15).
Definition colorB : PeakColor := mkPeakColor 0 0 0.14 2 (mkPeak 100 2 95 105).
Definition colorC : PeakColor :=
  mkPeakColor 0 0.0001 0.11 1 (mkPeak 200 1 195 205).

End Merge.

(** The average hue of a peak. *)
Module Arc.
Import Peaks Histogram PeakColors.

Definition circularDistance (a b : R) : R :=
  Rmin (Rabs (a - b)) (360 - Rabs (a - b)).

Definition arcWidth (p : Peak) : Z :=
  if (left p <=? right p)%Z then (right p - left p)%Z
  else (right p - left p + 360)%Z.

Definition hueInArc (p : Peak) (h : R) : Prop :=
  if (left p <=? right p)%Z then IZR (left p) <= h <= IZR (right p)
  else IZR (left p) <= h \/ h <= IZR (right p).

Definition angle (idx : Z) : R := IZR idx * PI / 180.

Definition normalizeDegrees (h : R) : R := if Rlt_dec h 0 then h + 360 else h.

(** The buckets of the arc that enter the average. *)
Definition taken (histogram : HueHistogram) (smoothedBuckets : list R)
  (minValue : R) (indices : list Z) : list Z :=
  filter (fun idx =>
            negb (countAt (counts histogram) idx =? 0)%Z
            && negb (Js.ltb (Js.at_ smoothedBuckets idx) minValue))
    indices.

(** The bucket index counted from [left] without wrapping. *)
Definition unwrap (p : Peak) (i : Z) : Z :=
  if (i <? left p)%Z then (i + 360)%Z else i.

(** Weighted unit vectors as pairs of an angle and a weight: the two
    coordinates of their sum. *)
Definition sumCos (pts : list (R * R)) : R :=
  Rsum (map (fun p => cos (fst p) * snd p) pts).
Definition sumSin (pts : list (R * R)) : R :=
  Rsum (map (fun p => sin (fst p) * snd p) pts).

(** A ring that rises from bucket 0 to a peak at bucket 3 and is flat
    elsewhere, and a histogram whose only samples are in bucket 0. *)
Definition rampBuckets : list R := [1; 2; 3; 4; 1] ++ repeat 1 355.
Definition rampPeak : Peak := mkPeak 3 4 0 4.
Definition rampHistogram : HueHistogram :=
  mkHueHistogram (1 :: repeat 0 359) (0.1 :: repeat 0 359)
    (0.5 :: repeat 0 359) (1%Z :: repeat 0%Z 359) 1 (Some 1).

End Arc.

(** A peak with its value multiplied by [c]. *)
Definition scalePeak (c : R) (p : Peaks.Peak) : Peaks.Peak :=
  Peaks.mkPeak (Peaks.index p) (c * Peaks.value p) (Peaks.left p)
    (Peaks.right p).

(** The pixel loop on a buffer of any length. *)
Module Buffer.
Import Histogram Tally.

(** The three colour channels of pixel [i] are inside the buffer. *)
Definition hasColour (img : ImageData) (i : Z) : bool :=
  (i * 4 + 2 <? Z.of_nat (length (data img)))%Z.

(** The pixel is not below the alpha cutoff.  An alpha beyond the end of
    the buffer is [undefined], and [undefined < 200] is false: the pixel
    counts as opaque. *)
Definition opaque (img : ImageData) (i : Z) : bool :=
  negb (transparent (Js.get (data img) (i * 4 + 3))).

Definition inWindow (margin : R) (img : ImageData) (i : Z) : bool :=
  negb (Js.ltb (lightnessOf img i) margin
        || Js.ltb (1 - margin) (lightnessOf img i)).

(** The pixels that the loop tallies. *)
Definition tallied (margin : R) (img : ImageData) (i : Z) : bool :=
  hasColour img i && opaque img i && inWindow margin img i.

(** The four arrays of the loop, without [total]. *)
Definition arrays (s : Acc) : list R * list R * list R * list Z :=
  (accBuckets s, accChromaSum s, accLightnessSum s, accCounts s).

End Buffer.

(** The reads of [extractPeakColors] stay inside the arrays: a peak on the
    ring of 360 hue degrees, and arrays of 360 entries. *)
Definition onRing (p : Peaks.Peak) : Prop :=
  (0 <= Peaks.index p < 360)%Z /\ (0 <= Peaks.left p < 360)%Z
  /\ (0 <= Peaks.right p < 360)%Z.

Definition readsInside (histogram : Histogram.HueHistogram)
  (peaks : list Peaks.Peak) (smoothedBuckets : list R) : Prop :=
  length (Histogram.counts histogram) = 360%nat
  /\ length (Histogram.chromaSum histogram) = 360%nat
  /\ length (Histogram.lightnessSum histogram) = 360%nat
  /\ length smoothedBuckets = 360%nat
  /\ Forall onRing peaks.

(** * Proofs *)

Import Peaks Histogram PeakColors Tally Merge Arc.

(** ** Arrays and loops *)

Lemma range_length (n : Z) : length (Js.range n) = Z.to_nat n.
Proof. unfold Js.range. now rewrite length_map, length_seq. Qed.

Lemma in_range (n i : Z) : In i (Js.range n) <-> (0 <= i < n)%Z.
Proof.
  unfold Js.range. rewrite in_map_iff. split.
  - intros (k & <- & Hk). apply in_seq in Hk. lia.
  - intros H. exists (Z.to_nat i). split; [lia|]. apply in_seq. lia.
Qed.

Lemma range_NoDup (n : Z) : NoDup (Js.range n).
Proof.
  unfold Js.range. apply Finite.Injective_map_NoDup.
  - intros a b H. lia.
  - apply seq_NoDup.
Qed.

Lemma range_succ (n : Z) :
  (0 <= n)%Z -> Js.range (n + 1) = Js.range n ++ [n].
Proof.
  intros H. unfold Js.range.
  replace (Z.to_nat (n + 1)) with (Z.to_nat n + 1)%nat by lia.
  rewrite seq_app, map_app. simpl. f_equal. f_equal. lia.
Qed.

Lemma map_at_range (a : list R) :
  map (Js.at_ a) (Js.range (Z.of_nat (length a))) = a.
Proof.
  unfold Js.range, Js.at_. rewrite Nat2Z.id, map_map.
  apply nth_ext with (d := 0) (d' := 0).
  - now rewrite length_map, length_seq.
  - intros n Hn. rewrite length_map, length_seq in Hn.
    rewrite (nth_indep _ 0 (nth (Z.to_nat (Z.of_nat 0)) a 0)) by
      (now rewrite length_map, length_seq).
    rewrite (map_nth (fun x => nth (Z.to_nat (Z.of_nat x)) a 0)).
    rewrite seq_nth by assumption. now rewrite Nat2Z.id.
Qed.

Lemma get_inside (a : list R) (i : Z) :
  (0 <= i < Z.of_nat (length a))%Z -> Js.get a i = Some (Js.at_ a i).
Proof.
  intros H. unfold Js.get, Js.at_.
  destruct (Z.ltb_spec i 0); [lia|].
  apply nth_error_nth'. lia.
Qed.

Lemma get_negative {A : Type} (a : list A) (i : Z) :
  (i < 0)%Z -> Js.get a i = None.
Proof. intros H. unfold Js.get. destruct (Z.ltb_spec i 0); [reflexivity|lia]. Qed.

Lemma rem_inside (a n : Z) :
  (0 <= a)%Z -> (0 < n)%Z -> (0 <= Js.rem a n < n)%Z.
Proof.
  intros Ha Hn. unfold Js.rem. rewrite Z.rem_mod_nonneg by lia.
  apply Z.mod_pos_bound. lia.
Qed.

Lemma ltb_true (x y : R) : Js.ltb x y = true <-> x < y.
Proof. unfold Js.ltb. destruct (Rlt_dec x y); split; intros; auto; discriminate. Qed.

Lemma ltb_false (x y : R) : Js.ltb x y = false <-> y <= x.
Proof.
  unfold Js.ltb. destruct (Rlt_dec x y); split; intros; auto; try discriminate; lra.
Qed.

Lemma leb_true (x y : R) : Js.leb x y = true <-> x <= y.
Proof. unfold Js.leb. destruct (Rle_dec x y); split; intros; auto; discriminate. Qed.

Lemma leb_false (x y : R) : Js.leb x y = false <-> y < x.
Proof.
  unfold Js.leb. destruct (Rle_dec x y); split; intros; auto; try discriminate; lra.
Qed.

(** ** Sums *)

Lemma fold_left_Rplus (l : list R) (a : R) :
  fold_left Rplus l a = a + Rsum l.
Proof.
  revert a. induction l as [|x l IH]; intros a; simpl.
  - lra.
  - rewrite IH. lra.
Qed.

Lemma Rsum_app (l1 l2 : list R) : Rsum (l1 ++ l2) = Rsum l1 + Rsum l2.
Proof. induction l1 as [|x l1 IH]; simpl; [lra|rewrite IH; lra]. Qed.

Lemma Rsum_perm (l1 l2 : list R) : Permutation l1 l2 -> Rsum l1 = Rsum l2.
Proof. induction 1; simpl; lra. Qed.

Lemma Rsum_map_scale {A : Type} (f : A -> R) (c : R) (l : list A) :
  Rsum (map (fun x => f x * c) l) = Rsum (map f l) * c.
Proof. induction l as [|x l IH]; simpl; [lra|rewrite IH; lra]. Qed.

Lemma Rsum_map_ext {A : Type} (f g : A -> R) (l : list A) :
  (forall x, In x l -> f x = g x) -> Rsum (map f l) = Rsum (map g l).
Proof.
  induction l as [|x l IH]; intros H; simpl; [reflexivity|].
  rewrite H by (now left). rewrite IH; [reflexivity|].
  intros y Hy. apply H. now right.
Qed.

Lemma Rsum_map_plus {A : Type} (f g : A -> R) (l : list A) :
  Rsum (map (fun x => f x + g x) l) = Rsum (map f l) + Rsum (map g l).
Proof. induction l as [|x l IH]; simpl; [lra|rewrite IH; lra]. Qed.

Lemma Rsum_map_zero {A : Type} (l : list A) : Rsum (map (fun _ => 0) l) = 0.
Proof. induction l as [|x l IH]; simpl; [reflexivity|rewrite IH; lra]. Qed.

(** Exchange of two finite sums. *)
Lemma Rsum_exchange {A B : Type} (F : A -> B -> R) (la : list A) (lb : list B) :
  Rsum (map (fun a => Rsum (map (fun b => F a b) lb)) la)
  = Rsum (map (fun b => Rsum (map (fun a => F a b) la)) lb).
Proof.
  induction la as [|a la IH]; simpl.
  - now rewrite Rsum_map_zero.
  - rewrite IH. now rewrite <- Rsum_map_plus.
Qed.

Lemma Rsum_bounds (lo hi : R) (w v : list R) :
  length w = length v ->
  Forall (fun x => 0 <= x) w ->
  Forall (fun x => lo <= x <= hi) v ->
  lo * Rsum w <= Rsum (map (fun p => fst p * snd p) (combine v w)) <= hi * Rsum w.
Proof.
  revert v. induction w as [|a w IH]; intros [|b v] Hlen Hw Hv;
    simpl in *; try discriminate; try lra.
  inversion Hw; inversion Hv; subst.
  injection Hlen as Hlen. specialize (IH v Hlen H2 H6). nra.
Qed.

(** ** gaussian.ts *)

Section Kernel.

Variable sigma : R.
Hypothesis sigma_pos : 0 < sigma.

Local Abbreviation radius := (Zceil (sigma * 3)).
Local Abbreviation raw :=
  (map (fun i => let x := IZR (i - radius) in
                 exp (- (x * x) / (2 * sigma * sigma)))
       (Js.range (radius * 2 + 1))).

Lemma radius_pos : (1 <= radius)%Z.
Proof.
  pose proof (Zceil_bound (sigma * 3)) as [_ H].
  assert (0 < IZR (Zceil (sigma * 3))) by lra.
  apply lt_IZR in H0. lia.
Qed.

Lemma raw_positive : Forall (fun v => 0 < v) raw.
Proof.
  apply Forall_forall. intros v Hv.
  apply in_map_iff in Hv as (i & <- & _). apply exp_pos.
Qed.

Lemma Rsum_positive (l : list R) :
  l <> [] -> Forall (fun v => 0 < v) l -> 0 < Rsum l.
Proof.
  intros Hne H. induction H as [|x l Hx Hl IH]; [congruence|].
  simpl. destruct l as [|y l].
  - simpl. lra.
  - assert (0 < Rsum (y :: l)) by (apply IH; discriminate). lra.
Qed.

Lemma raw_sum_positive : 0 < Rsum raw.
Proof.
  apply Rsum_positive; [|apply raw_positive].
  pose proof radius_pos as Hr. intros H.
  apply (f_equal (@length R)) in H. rewrite length_map, range_length in H.
  simpl in H. lia.
Qed.

Lemma kernel_eq :
  generateGaussianKernel sigma = map (fun v => v / Rsum raw) raw.
Proof.
  unfold generateGaussianKernel. cbv zeta.
  rewrite fold_left_Rplus. now rewrite Rplus_0_l.
Qed.

Lemma kernel_length :
  Z.of_nat (length (generateGaussianKernel sigma)) = (radius * 2 + 1)%Z.
Proof.
  rewrite kernel_eq, length_map. rewrite length_map, range_length.
  pose proof radius_pos. lia.
Qed.

Lemma kernel_radius :
  (Z.of_nat (length (generateGaussianKernel sigma)) / 2)%Z = radius.
Proof.
  rewrite kernel_length. pose proof radius_pos.
  replace (radius * 2 + 1)%Z with (1 + radius * 2)%Z by lia.
  rewrite Z.div_add by lia. reflexivity.
Qed.

Lemma kernel_nonneg : Forall (fun v => 0 <= v) (generateGaussianKernel sigma).
Proof.
  rewrite kernel_eq. apply Forall_forall. intros v Hv.
  apply in_map_iff in Hv as (x & <- & Hx).
  pose proof raw_sum_positive.
  pose proof raw_positive as Hp. rewrite Forall_forall in Hp.
  specialize (Hp x Hx). apply Rlt_le. now apply Rdiv_lt_0_compat.
Qed.

Lemma kernel_sum : Rsum (generateGaussianKernel sigma) = 1.
Proof.
  rewrite kernel_eq. pose proof raw_sum_positive as H.
  unfold Rdiv. rewrite (Rsum_map_scale (fun v => v)), map_id.
  field. lra.
Qed.

End Kernel.

Lemma add_NaN_fold {A : Type} (f : A -> Js.number) (l : list A) :
  fold_left (fun sum k => Js.add sum (f k)) l Js.NaN = Js.NaN.
Proof. induction l as [|x l IH]; simpl; auto. Qed.

Lemma add_fold_defined {A : Type} (f : A -> Js.number) (g : A -> R)
  (l : list A) (s : R) :
  (forall k, In k l -> f k = Some (g k)) ->
  fold_left (fun sum k => Js.add sum (f k)) l (Some s)
  = Some (s + Rsum (map g l)).
Proof.
  revert s. induction l as [|x l IH]; intros s H; simpl.
  - f_equal. lra.
  - rewrite H by (now left). simpl. rewrite IH.
    + f_equal. lra.
    + intros k Hk. apply H. now right.
Qed.

(** With the radius inside the ring every read of the inner loop is inside
    the array, and [result[i]] is the circular convolution. *)
Lemma smoothAt_inside (buckets kernel : list R) (radius i : Z) :
  let len := Z.of_nat (length buckets) in
  (0 <= i < len)%Z -> (0 <= radius <= len)%Z ->
  smoothAt buckets kernel radius len i
  = Some (convolveAt buckets kernel radius len i).
Proof.
  intros len Hi Hr. unfold smoothAt, convolveAt.
  rewrite (add_fold_defined _
             (fun k => Js.at_ buckets (Js.rem (i + k - radius + len) len)
                       * Js.at_ kernel k)).
  - f_equal. lra.
  - intros k Hk. apply in_range in Hk. cbv zeta.
    rewrite get_inside; [reflexivity|].
    apply rem_inside; lia.
Qed.

Lemma smooth_inside (buckets : list R) (sigma : R) :
  0 < sigma -> (Zceil (sigma * 3) <= Z.of_nat (length buckets))%Z ->
  gaussianSmoothHistogram buckets sigma
  = map Some
      (map (convolveAt buckets (generateGaussianKernel sigma)
              (Zceil (sigma * 3)) (Z.of_nat (length buckets)))
           (Js.range (Z.of_nat (length buckets)))).
Proof.
  intros Hs Hr. unfold gaussianSmoothHistogram.
  destruct (Js.leb sigma 0) eqn:E; [apply leb_true in E; lra|].
  cbv zeta. rewrite kernel_radius by assumption. rewrite map_map.
  apply map_ext_in. intros i Hi. apply in_range in Hi.
  apply smoothAt_inside; [assumption|].
  pose proof (radius_pos sigma Hs). lia.
Qed.

(** A rotation of the ring permutes its indices. *)
Lemma rotate_perm (len c : Z) :
  (0 <= c)%Z ->
  Permutation (map (fun i => Js.rem (i + c) len) (Js.range len)) (Js.range len).
Proof.
  intros Hc. destruct (Z.leb_spec len 0) as [Hl|Hl].
  - unfold Js.range. replace (Z.to_nat len) with 0%nat by lia. constructor.
  - apply NoDup_Permutation_bis.
    + apply Finite.Injective_map_NoDup_in; [|apply range_NoDup].
      intros x y Hx Hy. apply in_range in Hx, Hy. unfold Js.rem.
      rewrite !Z.rem_mod_nonneg by lia. intros H.
      assert (E : ((x - y) mod len = 0)%Z).
      { replace (x - y)%Z with ((x + c) - (y + c))%Z by lia.
        rewrite Zminus_mod, H, Z.sub_diag. apply Zmod_0_l. }
      apply Z.mod_divide in E; [|lia]. destruct E as [q E].
      assert (q = 0%Z) by nia. lia.
    + rewrite length_map. lia.
    + intros z Hz. apply in_map_iff in Hz as (i & <- & Hi).
      apply in_range in Hi. apply in_range. apply rem_inside; lia.
Qed.

Lemma Rsum_rotate (buckets : list R) (c : Z) :
  (0 <= c)%Z ->
  let len := Z.of_nat (length buckets) in
  Rsum (map (fun i => Js.at_ buckets (Js.rem (i + c) len)) (Js.range len))
  = Rsum buckets.
Proof.
  intros Hc len.
  rewrite <- (map_map (fun i => Js.rem (i + c) len) (Js.at_ buckets)).
  rewrite (Rsum_perm _ (map (Js.at_ buckets) (Js.range len))).
  - subst len. now rewrite map_at_range.
  - apply Permutation_map. now apply rotate_perm.
Qed.

(** The sum of the circular convolution is the sum of the kernel times the
    sum of the buckets. *)
Lemma convolve_mass (buckets kernel : list R) (radius : Z) :
  let len := Z.of_nat (length buckets) in
  (0 <= radius <= len)%Z ->
  Rsum (map (convolveAt buckets kernel radius len) (Js.range len))
  = Rsum kernel * Rsum buckets.
Proof.
  intros len Hr. unfold convolveAt.
  rewrite (Rsum_exchange
             (fun i k => Js.at_ buckets (Js.rem (i + k - radius + len) len)
                         * Js.at_ kernel k)).
  rewrite (Rsum_map_ext _ (fun k => Js.at_ kernel k * Rsum buckets)).
  - now rewrite Rsum_map_scale, map_at_range.
  - intros k Hk. apply in_range in Hk.
    rewrite (Rsum_map_scale
               (fun i => Js.at_ buckets (Js.rem (i + k - radius + len) len))).
    rewrite (Rsum_map_ext _
               (fun i => Js.at_ buckets (Js.rem (i + (k - radius + len)) len))).
    + subst len. rewrite Rsum_rotate by lia. lra.
    + intros i _. do 2 f_equal. lia.
Qed.

(** Within the ring, smoothing preserves the total mass. *)
Lemma smooth_mass_inside (buckets : list R) (sigma : R) :
  0 < sigma -> (Zceil (sigma * 3) <= Z.of_nat (length buckets))%Z ->
  exists smoothed,
    gaussianSmoothHistogram buckets sigma = map Some smoothed
    /\ length smoothed = length buckets
    /\ Rsum smoothed = Rsum buckets.
Proof.
  intros Hs Hr. eexists. split; [now apply smooth_inside|]. split.
  - rewrite length_map, range_length. lia.
  - rewrite convolve_mass.
    + rewrite kernel_sum by assumption. lra.
    + pose proof (radius_pos sigma Hs). lia.
Qed.

(** A weighted sum with non-negative weights of sum 1 stays within the
    bounds of the values. *)
Lemma convolve_bounds (buckets kernel : list R) (l h : R) (r j : Z) :
  let len := Z.of_nat (length buckets) in
  (0 <= j < len)%Z -> (0 <= r <= len)%Z ->
  Forall (fun v => 0 <= v) kernel -> Rsum kernel = 1 ->
  Forall (fun v => l <= v <= h) buckets ->
  l <= convolveAt buckets kernel r len j <= h.
Proof.
  intros len Hj Hr Hk Hsum Hb. unfold convolveAt.
  set (vs := map (fun k => Js.at_ buckets (Js.rem (j + k - r + len) len))
                 (Js.range (Z.of_nat (length kernel)))).
  assert (E : map (fun k => Js.at_ buckets (Js.rem (j + k - r + len) len)
                            * Js.at_ kernel k)
                  (Js.range (Z.of_nat (length kernel)))
              = map (fun p => fst p * snd p) (combine vs kernel)).
  { rewrite <- (map_at_range kernel) at 2. subst vs.
    generalize (Js.range (Z.of_nat (length kernel))). intros ks.
    induction ks as [|k ks IH]; simpl; [reflexivity|now rewrite IH]. }
  rewrite E.
  assert (B : l * Rsum kernel
              <= Rsum (map (fun p => fst p * snd p) (combine vs kernel))
              <= h * Rsum kernel).
  { apply Rsum_bounds.
    - subst vs. now rewrite length_map, range_length, Nat2Z.id.
    - assumption.
    - subst vs. apply Forall_forall. intros v Hv.
      apply in_map_iff in Hv as (k & <- & Hk'). apply in_range in Hk'.
      rewrite Forall_forall in Hb. apply Hb. unfold Js.at_.
      apply nth_In.
      pose proof (rem_inside (j + k - r + len) len). lia. }
  rewrite Hsum in B. lra.
Qed.

Lemma maxOf_upper (a : list R) : Forall (fun v => v <= Js.maxOf a) a.
Proof.
  destruct a as [|x t]; [constructor|]. simpl.
  assert (G : forall t x, x <= fold_left Rmax t x
                          /\ Forall (fun v => v <= fold_left Rmax t x) t).
  { clear. induction t as [|y t IH]; intros x; simpl.
    - split; [lra|constructor].
    - destruct (IH (Rmax x y)) as [H1 H2]. split.
      + pose proof (Rmax_l x y). lra.
      + constructor; [|assumption]. pose proof (Rmax_r x y). lra. }
  destruct (G t x). now constructor.
Qed.

Lemma minOf_lower (a : list R) : Forall (fun v => minOf a <= v) a.
Proof.
  destruct a as [|x t]; [constructor|]. simpl.
  assert (G : forall t x, fold_left Rmin t x <= x
                          /\ Forall (fun v => fold_left Rmin t x <= v) t).
  { clear. induction t as [|y t IH]; intros x; simpl.
    - split; [lra|constructor].
    - destruct (IH (Rmin x y)) as [H1 H2]. split.
      + pose proof (Rmin_l x y). lra.
      + constructor; [|assumption]. pose proof (Rmin_r x y). lra. }
  destruct (G t x). now constructor.
Qed.

(** Within the ring, every smoothed value lies between the minimum and the
    maximum of the buckets. *)
Lemma smooth_bounds_inside (buckets : list R) (sigma : R) (v : Js.number) :
  0 < sigma -> (Zceil (sigma * 3) <= Z.of_nat (length buckets))%Z ->
  In v (gaussianSmoothHistogram buckets sigma) ->
  exists x, v = Some x /\ minOf buckets <= x <= Js.maxOf buckets.
Proof.
  intros Hs Hr Hv. rewrite smooth_inside in Hv by assumption.
  apply in_map_iff in Hv as (x & <- & Hx). exists x. split; [reflexivity|].
  apply in_map_iff in Hx as (j & <- & Hj). apply in_range in Hj.
  pose proof (radius_pos sigma Hs).
  apply convolve_bounds; try assumption; try lia.
  - now apply kernel_nonneg.
  - now apply kernel_sum.
  - pose proof (maxOf_upper buckets) as Hu.
    pose proof (minOf_lower buckets) as Hl.
    rewrite Forall_forall in *. intros y Hy. split; auto.
Qed.

Lemma range_head (n : Z) : (0 < n)%Z -> exists t, Js.range n = 0%Z :: t.
Proof.
  intros H. unfold Js.range. destruct (Z.to_nat n) eqn:E; [lia|].
  simpl. eauto.
Qed.

(** Beyond the ring the first read of [result[0]] is [buckets[-n]], which
    is [undefined], and the sum is [NaN]. *)
Lemma smooth_first_NaN (buckets : list R) (sigma : R) :
  0 < sigma ->
  let len := Z.of_nat (length buckets) in
  (0 < len)%Z -> (Js.rem (len - Zceil (sigma * 3)) len < 0)%Z ->
  nth 0 (gaussianSmoothHistogram buckets sigma) (Some 0) = Js.NaN.
Proof.
  intros Hs len Hl Hneg. unfold gaussianSmoothHistogram.
  destruct (Js.leb sigma 0) eqn:E; [apply leb_true in E; lra|].
  cbv zeta. rewrite kernel_radius by assumption. fold len.
  destruct (range_head len Hl) as [t ->]. simpl. unfold smoothAt.
  pose proof (kernel_length sigma Hs) as Hk. pose proof (radius_pos sigma Hs).
  destruct (range_head (Z.of_nat (length (generateGaussianKernel sigma))))
    as [t' ->]; [lia|].
  cbn [fold_left]. replace (0 + 0 - Zceil (sigma * 3) + len)%Z
    with (len - Zceil (sigma * 3))%Z by lia.
  rewrite get_negative by assumption. cbn [Js.mul Js.add].
  apply (add_NaN_fold
           (fun k => Js.mul
                       (Js.get buckets
                          (Js.rem (0 + k - Zceil (sigma * 3) + len) len))
                       (Some (Js.at_ (generateGaussianKernel sigma) k)))).
Qed.

(** C8.  For every bucket sequence and every [sigma <= 0], smoothing
    returns a sequence element-wise equal to the input: a negative sigma is
    not rejected, the call is the identity. *)
Theorem smooth_identity_nonpositive_sigma (buckets : list R) (sigma : R) :
  sigma <= 0 -> gaussianSmoothHistogram buckets sigma = map Some buckets.
Proof.
  intros H. unfold gaussianSmoothHistogram.
  now rewrite (proj2 (leb_true sigma 0)).
Qed.

(** C8 at the buckets 1, 2, 3 and [sigma = -1]. *)
Lemma smooth_identity_nonpositive_sigma_witness :
  -1 <= 0
  /\ gaussianSmoothHistogram [1; 2; 3] (-1) = [Some 1; Some 2; Some 3].
Proof.
  assert (H : -1 <= 0) by lra.
  split; [exact H|].
  exact (smooth_identity_nonpositive_sigma [1; 2; 3] (-1) H).
Defined.

Lemma sumNumbers_NaN (l : list Js.number) :
  nth 0 l (Some 0) = Js.NaN -> sumNumbers l = Js.NaN.
Proof.
  destruct l as [|x l]; [discriminate|]. cbn [nth]. intros ->.
  unfold sumNumbers. cbn [fold_left Js.add].
  apply (add_NaN_fold (fun k => k)).
Qed.

Lemma smooth_first_NaN_360 (buckets : list R) (sigma : R) (radius : Z) :
  length buckets = 360%nat -> 0 < sigma ->
  IZR radius - 1 < sigma * 3 <= IZR radius ->
  (360 < radius < 720)%Z ->
  nth 0 (gaussianSmoothHistogram buckets sigma) (Some 0) = Js.NaN.
Proof.
  intros Hlen Hs Hr Hrad. apply smooth_first_NaN; [exact Hs| |].
  - rewrite Hlen. lia.
  - rewrite (Zceil_eq radius) by exact Hr. rewrite Hlen.
    unfold Js.rem. change (Z.of_nat 360) with 360%Z.
    replace (360 - radius)%Z with (- (radius - 360))%Z by lia.
    rewrite Z.rem_opp_l by lia. rewrite Z.rem_small by lia. lia.
Qed.

(** C7 at 360 buckets equal to 1 and [sigma = 121]: the kernel radius is
    363, the first read of [result[0]] is [buckets[-3]], which is
    [undefined], and the sum of the smoothed values is [NaN], not the sum
    of the buckets.  Within the ring the mass is preserved
    ([smooth_mass_inside]). *)
Theorem smooth_mass_lost_sigma_121 :
  sumNumbers (gaussianSmoothHistogram (repeat 1 360) 121) = Js.NaN.
Proof.
  apply sumNumbers_NaN.
  apply (smooth_first_NaN_360 _ _ 363); [apply repeat_length|lra|lra|lia].
Qed.

(** C9 at 360 buckets equal to 1 and [sigma = 200]: the kernel radius is
    600, the first read of [result[0]] is [buckets[-240]], and [result[0]]
    is [NaN], which lies in no interval.  Within the ring every smoothed
    value is between the minimum and the maximum of the buckets
    ([smooth_bounds_inside]). *)
Theorem smooth_value_NaN_sigma_200 :
  nth 0 (gaussianSmoothHistogram (repeat 1 360) 200) (Some 0) = Js.NaN.
Proof.
  apply (smooth_first_NaN_360 _ _ 600); [apply repeat_length|lra|lra|lia].
Qed.

(** ** Sorting *)

Section SortDesc.

Context {A : Type} (key : A -> R).

Lemma insertDesc_perm (x : A) (l : list A) :
  Permutation (Js.insertDesc key x l) (x :: l).
Proof.
  induction l as [|y l IH]; simpl; [reflexivity|].
  destruct (Js.leb (key y) (key x)); [reflexivity|].
  rewrite IH. apply perm_swap.
Qed.

Lemma sortDesc_perm (l : list A) : Permutation (Js.sortDesc key l) l.
Proof.
  induction l as [|x l IH]; simpl; [reflexivity|].
  unfold Js.sortDesc in *. simpl. rewrite insertDesc_perm. now constructor.
Qed.

Lemma sortDesc_In (l : list A) (x : A) : In x (Js.sortDesc key l) <-> In x l.
Proof.
  split; apply Permutation_in; [|symmetry]; apply sortDesc_perm.
Qed.

Lemma insertDesc_sorted (x : A) (l : list A) :
  descending key l -> descending key (Js.insertDesc key x l).
Proof.
  unfold descending. induction l as [|y l IH]; intros H; simpl.
  - constructor; constructor.
  - inversion H as [|? ? Hl Hy]; subst.
    destruct (Js.leb (key y) (key x)) eqn:E.
    + apply leb_true in E. constructor; [assumption|].
      constructor; [assumption|].
      rewrite Forall_forall in *. intros z Hz. specialize (Hy z Hz). lra.
    + apply leb_false in E. constructor; [now apply IH|].
      rewrite Forall_forall in *. intros z Hz.
      apply (Permutation_in _ (insertDesc_perm x l)) in Hz.
      destruct Hz as [<-|Hz]; [lra|now apply Hy].
Qed.

Lemma sortDesc_sorted (l : list A) : descending key (Js.sortDesc key l).
Proof.
  induction l as [|x l IH]; [constructor|].
  unfold Js.sortDesc in *. simpl. now apply insertDesc_sorted.
Qed.

End SortDesc.

(** ** peaks.ts *)

Lemma in_candidates (buckets : list R) (threshold : R) (p : Peak) :
  In p (candidates buckets threshold) <->
  exists i, (0 <= i < Z.of_nat (length buckets))%Z
            /\ isCandidate buckets threshold i = true
            /\ p = mkPeak i (Js.at_ buckets i) i i.
Proof.
  unfold candidates. rewrite in_flat_map. split.
  - intros (i & Hi & Hp). apply in_range in Hi. exists i.
    destruct (isCandidate buckets threshold i); [|contradiction].
    destruct Hp as [<-|[]]. auto.
  - intros (i & Hi & Hc & ->). exists i. split; [now apply in_range|].
    rewrite Hc. now left.
Qed.

Lemma isCandidate_spec (buckets : list R) (threshold : R) (i : Z) :
  let len := Z.of_nat (length buckets) in
  (0 <= i < len)%Z ->
  (isCandidate buckets threshold i = true <->
   Js.at_ buckets ((i - 1) mod len) < Js.at_ buckets i
   /\ Js.at_ buckets ((i + 1) mod len) < Js.at_ buckets i
   /\ threshold <= Js.at_ buckets i).
Proof.
  intros len Hi. unfold isCandidate. fold len. unfold Js.rem.
  rewrite !Z.rem_mod_nonneg by lia.
  replace ((i - 1 + len) mod len)%Z with ((i - 1) mod len)%Z
    by (rewrite <- (Z.mod_add (i - 1) 1 len) by lia; f_equal; lia).
  rewrite !andb_true_iff, !ltb_true, leb_true. tauto.
Qed.

Section Boundaries.

Variable buckets : list R.
Variable idx0 : Z.
Local Abbreviation len := (Z.of_nat (length buckets)).
Hypothesis idx0_inside : (0 <= idx0 < len)%Z.

Lemma mod_shift (a : Z) : (0 < len)%Z -> ((a + len) mod len = a mod len)%Z.
Proof.
  intros H. rewrite <- (Z.mod_add a 1 len) by lia. f_equal. lia.
Qed.

Lemma leftLoop_run (fuel : nat) (i lft : Z) :
  (1 <= i)%Z -> (len <= 2 * (i + Z.of_nat fuel))%Z ->
  lft = ((idx0 - (i - 1)) mod len)%Z ->
  (i - 1 = 0 \/ 2 * (i - 1) < len)%Z ->
  (forall j, (1 <= j <= i - 1)%Z ->
     Js.at_ buckets ((idx0 - j) mod len)
     < Js.at_ buckets ((idx0 - j + 1) mod len)) ->
  exists k, leftLoop buckets len idx0 fuel i lft = ((idx0 - k) mod len)%Z
            /\ leftRun buckets idx0 k.
Proof.
  revert i lft. induction fuel as [|fuel IH]; intros i lft Hi Hfuel Hl Hb Hrun.
  - simpl. exists (i - 1)%Z. split; [assumption|].
    repeat split; try lia; try assumption.
  - cbn [leftLoop]. destruct (Z.ltb_spec (2 * i) len) as [Hlt|Hge].
    + unfold Js.rem. rewrite (Z.rem_mod_nonneg (idx0 - i + len)) by lia.
      rewrite mod_shift by lia.
      assert (Hm : (0 <= (idx0 - i) mod len < len)%Z)
        by (apply Z.mod_pos_bound; lia).
      rewrite (Z.rem_mod_nonneg ((idx0 - i) mod len + 1)) by lia.
      rewrite Zplus_mod_idemp_l.
      destruct (Js.leb _ _) eqn:E.
      * apply leb_true in E. exists (i - 1)%Z. split.
        { f_equal. lia. }
        repeat split; try lia; try assumption.
        intros _. replace (idx0 - (i - 1) - 1)%Z with (idx0 - i)%Z by lia.
        replace (idx0 - (i - 1))%Z with (idx0 - i + 1)%Z by lia. exact E.
      * apply leb_false in E.
        apply (IH (i + 1)%Z); try lia.
        { f_equal. lia. }
        intros j Hj. destruct (Z.eq_dec j i) as [->|Hne].
        { exact E. }
        apply Hrun. lia.
    + exists (i - 1)%Z. split; [assumption|].
      repeat split; try lia; try assumption.
Qed.

Lemma rightLoop_run (fuel : nat) (i rgt : Z) :
  (1 <= i)%Z -> (len <= 2 * (i + Z.of_nat fuel))%Z ->
  rgt = ((idx0 + (i - 1)) mod len)%Z ->
  (i - 1 = 0 \/ 2 * (i - 1) < len)%Z ->
  (forall j, (1 <= j <= i - 1)%Z ->
     Js.at_ buckets ((idx0 + j) mod len)
     < Js.at_ buckets ((idx0 + j - 1) mod len)) ->
  exists k, rightLoop buckets len idx0 fuel i rgt = ((idx0 + k) mod len)%Z
            /\ rightRun buckets idx0 k.
Proof.
  revert i rgt. induction fuel as [|fuel IH]; intros i rgt Hi Hfuel Hl Hb Hrun.
  - simpl. exists (i - 1)%Z. split; [assumption|].
    repeat split; try lia; try assumption.
  - cbn [rightLoop]. destruct (Z.ltb_spec (2 * i) len) as [Hlt|Hge].
    + unfold Js.rem. rewrite (Z.rem_mod_nonneg (idx0 + i)) by lia.
      assert (Hm : (0 <= (idx0 + i) mod len < len)%Z)
        by (apply Z.mod_pos_bound; lia).
      rewrite (Z.rem_mod_nonneg ((idx0 + i) mod len - 1 + len)) by lia.
      rewrite mod_shift by lia.
      rewrite Zminus_mod_idemp_l.
      destruct (Js.leb _ _) eqn:E.
      * apply leb_true in E. exists (i - 1)%Z. split.
        { f_equal. lia. }
        repeat split; try lia; try assumption.
        intros _. replace (idx0 + (i - 1) + 1)%Z with (idx0 + i)%Z by lia.
        replace (idx0 + (i - 1))%Z with (idx0 + i - 1)%Z by lia. exact E.
      * apply leb_false in E.
        apply (IH (i + 1)%Z); try lia.
        { f_equal. lia. }
        intros j Hj. destruct (Z.eq_dec j i) as [->|Hne].
        { exact E. }
        apply Hrun. lia.
    + exists (i - 1)%Z. split; [assumption|].
      repeat split; try lia; try assumption.
Qed.

(** Two boundaries less than half a ring away on either side enclose the
    peak. *)
Lemma arc_contains_index (kl kr : Z) :
  (0 <= kl)%Z -> (kl = 0 \/ 2 * kl < len)%Z ->
  (0 <= kr)%Z -> (kr = 0 \/ 2 * kr < len)%Z ->
  arcContains ((idx0 - kl) mod len) ((idx0 + kr) mod len) idx0.
Proof.
  intros Hkl Hkl' Hkr Hkr'. unfold arcContains.
  assert (L : ((idx0 - kl) mod len = idx0 - kl
               \/ (idx0 - kl < 0 /\ (idx0 - kl) mod len = idx0 - kl + len))%Z).
  { destruct (Z.ltb_spec (idx0 - kl) 0).
    - right. split; [assumption|].
      rewrite <- mod_shift by lia. apply Z.mod_small. lia.
    - left. apply Z.mod_small. lia. }
  assert (Rr : ((idx0 + kr) mod len = idx0 + kr
               \/ (len <= idx0 + kr /\ (idx0 + kr) mod len = idx0 + kr - len))%Z).
  { destruct (Z.ltb_spec (idx0 + kr) len).
    - left. apply Z.mod_small. lia.
    - right. split; [assumption|].
      replace (idx0 + kr)%Z with (idx0 + kr - len + len)%Z at 1 by lia.
      rewrite mod_shift by lia. apply Z.mod_small. lia. }
  destruct (Z.leb_spec ((idx0 - kl) mod len) ((idx0 + kr) mod len)); lia.
Qed.

End Boundaries.

Lemma in_fromTo (lo hi i : Z) :
  In i (PeakColors.fromTo lo hi) <-> (lo <= i <= hi)%Z.
Proof.
  unfold PeakColors.fromTo. rewrite in_map_iff. split.
  - intros (k & <- & Hk). apply in_seq in Hk. lia.
  - intros H. exists (Z.to_nat (i - lo)). split; [lia|]. apply in_seq. lia.
Qed.

Lemma in_getPeakIndices (p : Peak) (i : Z) :
  (0 <= i < 360)%Z ->
  (In i (PeakColors.getPeakIndices p) <-> arcContains (left p) (right p) i).
Proof.
  intros Hi. unfold PeakColors.getPeakIndices, arcContains.
  destruct (left p <=? right p)%Z.
  - apply in_fromTo.
  - rewrite in_app_iff, !in_fromTo. lia.
Qed.

Lemma findBoundaries_index (buckets : list R) (p : Peak) :
  index (findBoundaries buckets p) = index p
  /\ value (findBoundaries buckets p) = value p.
Proof. split; reflexivity. Qed.

Lemma in_detectPeaks (buckets : list R) (minHeight : R) (p : Peak) :
  In p (detectPeaks buckets minHeight) <->
  exists i, (0 <= i < Z.of_nat (length buckets))%Z
            /\ isCandidate buckets (Js.maxOf buckets * minHeight) i = true
            /\ p = findBoundaries buckets (mkPeak i (Js.at_ buckets i) i i).
Proof.
  unfold detectPeaks. rewrite sortDesc_In, in_map_iff. split.
  - intros (q & <- & Hq). apply in_candidates in Hq as (i & Hi & Hc & ->).
    eauto.
  - intros (i & Hi & Hc & ->). eexists. split; [reflexivity|].
    apply in_candidates. eauto.
Qed.

Lemma findBoundaries_runs (buckets : list R) (i : Z) (v : R) :
  let len := Z.of_nat (length buckets) in
  (0 <= i < len)%Z ->
  exists kl kr,
    left (findBoundaries buckets (mkPeak i v i i)) = ((i - kl) mod len)%Z
    /\ right (findBoundaries buckets (mkPeak i v i i)) = ((i + kr) mod len)%Z
    /\ leftRun buckets i kl /\ rightRun buckets i kr.
Proof.
  intros len Hi. unfold findBoundaries. cbn [index value left right].
  destruct (leftLoop_run buckets i Hi (length buckets) 1 i) as (kl & El & Hl);
    try lia.
  { replace (i - (1 - 1))%Z with i by lia. symmetry. apply Z.mod_small. lia. }
  destruct (rightLoop_run buckets i Hi (length buckets) 1 i) as (kr & Er & Hr);
    try lia.
  { replace (i + (1 - 1))%Z with i by lia. symmetry. apply Z.mod_small. lia. }
  exists kl, kr. auto.
Qed.

Lemma at_repeat (v : R) (n : nat) (i : Z) :
  (0 <= i < Z.of_nat n)%Z -> Js.at_ (repeat v n) i = v.
Proof.
  intros H. unfold Js.at_. apply nth_repeat_lt. lia.
Qed.

(** Evaluation on concrete buckets. *)
Lemma ltb_intro_true (x y : R) : x < y -> Js.ltb x y = true.
Proof. apply ltb_true. Qed.
Lemma ltb_intro_false (x y : R) : y <= x -> Js.ltb x y = false.
Proof. apply ltb_false. Qed.
Lemma leb_intro_true (x y : R) : x <= y -> Js.leb x y = true.
Proof. apply leb_true. Qed.
Lemma leb_intro_false (x y : R) : y < x -> Js.leb x y = false.
Proof. apply leb_false. Qed.

Ltac js_compare :=
  repeat match goal with
  | |- context [Js.ltb ?x ?y] =>
      first [ rewrite (ltb_intro_true x y) by lra
            | rewrite (ltb_intro_false x y) by lra ]
  | |- context [Js.leb ?x ?y] =>
      first [ rewrite (leb_intro_true x y) by lra
            | rewrite (leb_intro_false x y) by lra ]
  | |- context [Rmax ?x ?y] =>
      first [ rewrite (Rmax_left x y) by lra
            | rewrite (Rmax_right x y) by lra ]
  | |- context [Rmin ?x ?y] =>
      first [ rewrite (Rmin_left x y) by lra
            | rewrite (Rmin_right x y) by lra ]
  end.

Ltac js_eval :=
  repeat (progress (cbv -[Js.ltb Js.leb Rmax Rmin Rabs Rmult Rplus Rminus Rdiv
                          Ropp Rinv IZR Rlt_dec Rle_dec Req_dec_T
                          sqrt sin cos exp atan PI Rpower Zfloor Zceil];
                    js_compare)).

Example detectPeaks_small_ring :
  detectPeaks [1; 2; 5; 3; 1; 1] 0.1 = [mkPeak 2 5 0 4].
Proof.
  js_eval. reflexivity.
Qed.

Lemma candidates_indices (buckets : list R) (threshold : R) :
  map index (candidates buckets threshold)
  = filter (isCandidate buckets threshold)
      (Js.range (Z.of_nat (length buckets))).
Proof.
  unfold candidates. generalize (Js.range (Z.of_nat (length buckets))).
  intros l. induction l as [|i l IH]; simpl; [reflexivity|].
  rewrite map_app, IH. now destruct (isCandidate buckets threshold i).
Qed.

(** C6.  [detectPeaks] returns a peak at bucket [i] if and only if
    [buckets[i]] is strictly larger than its two neighbours on the ring and
    at least [max(buckets) * minHeight]; a peak carries the value of its
    bucket, no bucket has two peaks, and the peaks are in descending order
    of value. *)
Theorem detectPeaks_strict_local_maxima (buckets : list R) (minHeight : R) :
  let len := Z.of_nat (length buckets) in
  let peaks := detectPeaks buckets minHeight in
  (forall i,
     (exists p, In p peaks /\ index p = i) <->
     ((0 <= i < len)%Z
      /\ Js.at_ buckets ((i - 1) mod len) < Js.at_ buckets i
      /\ Js.at_ buckets ((i + 1) mod len) < Js.at_ buckets i
      /\ Js.maxOf buckets * minHeight <= Js.at_ buckets i))
  /\ (forall p, In p peaks -> value p = Js.at_ buckets (index p))
  /\ descending value peaks
  /\ NoDup (map index peaks).
Proof.
  intros len peaks. split; [|split; [|split]].
  - intros i. split.
    + intros (p & Hp & <-).
      apply in_detectPeaks in Hp as (i & Hi & Hc & ->).
      apply isCandidate_spec in Hc; [|assumption].
      cbn [index findBoundaries]. split; [exact Hi|exact Hc].
    + intros (Hi & H1 & H2 & H3).
      exists (findBoundaries buckets (mkPeak i (Js.at_ buckets i) i i)).
      split; [|reflexivity]. apply in_detectPeaks. exists i.
      split; [exact Hi|]. split; [|reflexivity].
      apply isCandidate_spec; auto.
  - intros p Hp. apply in_detectPeaks in Hp as (i & Hi & _ & ->). reflexivity.
  - apply sortDesc_sorted.
  - unfold peaks, detectPeaks.
    eapply Permutation_NoDup.
    + apply Permutation_map. symmetry. apply sortDesc_perm.
    + rewrite map_map.
      rewrite (map_ext (fun p => index (findBoundaries buckets p)) index)
        by reflexivity.
      rewrite candidates_indices. apply NoDup_filter, range_NoDup.
Qed.

(** C5.  For every detected peak, [left] lies [kl] buckets before the index
    and [right] lies [kr] buckets after it, where each count is the number
    of strict descents met when scanning outward: the scan stops one step
    back the first time the farther bucket is not smaller than its closer
    neighbour, and otherwise after fewer than half a ring of steps (fewer
    than 180 on 360 buckets).  The arc from [left] to [right], through 0
    when [right < left], contains the index. *)
Theorem detectPeaks_boundaries (buckets : list R) (minHeight : R) (p : Peak) :
  In p (detectPeaks buckets minHeight) ->
  let len := Z.of_nat (length buckets) in
  (0 <= index p < len)%Z
  /\ exists kl kr,
       left p = ((index p - kl) mod len)%Z
       /\ right p = ((index p + kr) mod len)%Z
       /\ leftRun buckets (index p) kl
       /\ rightRun buckets (index p) kr
       /\ (2 * kl <= len)%Z /\ (2 * kr <= len)%Z
       /\ arcContains (left p) (right p) (index p)
       /\ (len = 360%Z ->
           (kl < 180)%Z /\ (kr < 180)%Z
           /\ In (index p) (PeakColors.getPeakIndices p)).
Proof.
  intros Hp len. apply in_detectPeaks in Hp as (i & Hi & _ & ->).
  split; [exact Hi|].
  destruct (findBoundaries_runs buckets i (Js.at_ buckets i) Hi)
    as (kl & kr & El & Er & Hl & Hr).
  exists kl, kr. fold len in El, Er.
  assert (A : arcContains ((i - kl) mod len) ((i + kr) mod len) i).
  { destruct Hl as (? & ? & _), Hr as (? & ? & _).
    now apply arc_contains_index. }
  assert (Bl : (0 <= kl /\ (kl = 0 \/ 2 * kl < len))%Z)
    by (destruct Hl as (? & ? & _); split; assumption).
  assert (Br : (0 <= kr /\ (kr = 0 \/ 2 * kr < len))%Z)
    by (destruct Hr as (? & ? & _); split; assumption).
  split; [exact El|]. split; [exact Er|].
  split; [exact Hl|]. split; [exact Hr|].
  split; [lia|]. split; [lia|].
  split; [rewrite El, Er; exact A|].
  intros L. split; [lia|]. split; [lia|].
  apply in_getPeakIndices; [cbn [index findBoundaries]; lia|].
  rewrite El, Er. exact A.
Qed.

(** C5 at the ring 1, 2, 5, 3, 1, 1 and its peak at bucket 2. *)
Lemma detectPeaks_boundaries_witness :
  In (mkPeak 2 5 0 4) (detectPeaks [1; 2; 5; 3; 1; 1] 0.1)
  /\ exists kl kr,
       0%Z = ((2 - kl) mod 6)%Z /\ 4%Z = ((2 + kr) mod 6)%Z
       /\ leftRun [1; 2; 5; 3; 1; 1] 2 kl
       /\ rightRun [1; 2; 5; 3; 1; 1] 2 kr.
Proof.
  assert (H : In (mkPeak 2 5 0 4) (detectPeaks [1; 2; 5; 3; 1; 1] 0.1))
    by (rewrite detectPeaks_small_ring; now left).
  split; [exact H|].
  destruct (detectPeaks_boundaries _ _ _ H) as (_ & kl & kr & A & B & C & D & _).
  exists kl, kr. auto.
Defined.

(** C10.  On a constant ring, of any length and any value, [detectPeaks]
    returns no peak, and [extractPeakColors] then returns no colour. *)
Theorem detectPeaks_flat_histogram (v : R) (n : nat) (minHeight : R) :
  detectPeaks (repeat v n) minHeight = []
  /\ forall histogram smoothedBuckets options,
       PeakColors.extractPeakColors histogram
         (detectPeaks (repeat v n) minHeight) smoothedBuckets options = [].
Proof.
  assert (E : detectPeaks (repeat v n) minHeight = []).
  { unfold detectPeaks.
    assert (C : forall t, candidates (repeat v n) t = []).
    { intros t. unfold candidates.
      rewrite flat_map_concat_map. apply concat_nil_Forall.
      apply Forall_forall. intros l Hl. apply in_map_iff in Hl as (i & <- & Hi).
      apply in_range in Hi. rewrite repeat_length in Hi.
      unfold isCandidate. rewrite repeat_length.
      rewrite (at_repeat v n i) by assumption.
      rewrite at_repeat by (apply rem_inside; lia).
      rewrite (proj2 (ltb_false v v)) by lra. reflexivity. }
    rewrite C. reflexivity. }
  split; [exact E|]. intros histogram smoothedBuckets options. rewrite E.
  unfold PeakColors.extractPeakColors, PeakColors.filterByDistance. simpl.
  destruct (Js.leb _ 0); simpl; unfold Js.slice0;
    destruct (_ <? 0)%Z; now rewrite firstn_nil.
Qed.

(** ** In-place updates *)

Lemma updNth_length {A : Type} (f : A -> A) (n : nat) (a : list A) :
  length (Js.updNth f n a) = length a.
Proof.
  revert n. induction a as [|x a IH]; intros [|n]; simpl; auto.
Qed.

Lemma upd_length {A : Type} (f : A -> A) (i : Z) (a : list A) :
  length (Js.upd f i a) = length a.
Proof. unfold Js.upd. destruct (i <? 0)%Z; [reflexivity|apply updNth_length]. Qed.

Lemma nth_updNth_same {A : Type} (f : A -> A) (n : nat) (a : list A) (d : A) :
  (n < length a)%nat -> nth n (Js.updNth f n a) d = f (nth n a d).
Proof.
  revert n. induction a as [|x a IH]; intros [|n] H; simpl in *; try lia; auto.
  apply IH. lia.
Qed.

Lemma nth_updNth_other {A : Type} (f : A -> A) (n k : nat) (a : list A) (d : A) :
  n <> k -> nth k (Js.updNth f n a) d = nth k a d.
Proof.
  revert n k. induction a as [|x a IH]; intros [|n] [|k] H; simpl; auto;
    try congruence.
Qed.

Lemma nth_upd {A : Type} (f : A -> A) (b k : Z) (a : list A) (d : A) :
  (0 <= k < Z.of_nat (length a))%Z ->
  nth (Z.to_nat k) (Js.upd f b a) d
  = if (b =? k)%Z then f (nth (Z.to_nat k) a d) else nth (Z.to_nat k) a d.
Proof.
  intros Hk. unfold Js.upd. destruct (Z.eqb_spec b k) as [->|Hne].
  - destruct (Z.ltb_spec k 0); [lia|]. apply nth_updNth_same. lia.
  - destruct (Z.ltb_spec b 0); [reflexivity|]. apply nth_updNth_other. lia.
Qed.

(** ** The accumulation loop *)

Section Accumulation.

Variables (inc : Z -> bool) (l c h w : Z -> R).

Local Abbreviation step := (step inc l c h w).
Local Abbreviation hits := (hits inc h).

Lemma accumulate_sized (s : Acc) (x y z t : R) :
  sized s -> sized (accumulate s x y z t).
Proof.
  unfold sized, accumulate. cbn [accBuckets accChromaSum accLightnessSum accCounts].
  now rewrite !upd_length.
Qed.

Lemma accumulateNaN_sized (s : Acc) (t : Js.number) :
  sized s -> sized (accumulateNaN s t).
Proof. auto. Qed.

Lemma fold_step (px : list Z) (s : Acc) (k : Z) :
  sized s -> (0 <= k < 360)%Z ->
  let s' := fold_left step px s in
  sized s'
  /\ PeakColors.countAt (accCounts s') k
     = (PeakColors.countAt (accCounts s) k
        + Z.of_nat (length (hits k px)))%Z
  /\ Js.at_ (accChromaSum s') k
     = Js.at_ (accChromaSum s) k + Rsum (map c (hits k px))
  /\ Js.at_ (accLightnessSum s') k
     = Js.at_ (accLightnessSum s) k + Rsum (map l (hits k px))
  /\ Js.at_ (accBuckets s') k
     = Js.at_ (accBuckets s) k + Rsum (map w (hits k px)).
Proof.
  intros Hs Hk. cbv zeta. revert s Hs.
  induction px as [|i px IH]; intros s Hs.
  - simpl. repeat split; try apply Hs; try lia; lra.
  - cbn [fold_left]. unfold step at 2 4 6 8 10. unfold hits. cbn [filter].
    destruct (inc i) eqn:Ei; cbn [andb].
    + destruct (IH (accumulate s (l i) (c i) (h i) (w i))
                  (accumulate_sized _ _ _ _ _ Hs)) as (S' & Hc & Hcs & Hls & Hb).
      unfold hits in Hc, Hcs, Hls, Hb.
      split; [exact S'|]. rewrite Hc, Hcs, Hls, Hb.
      destruct Hs as (L1 & L2 & L3 & L4).
      unfold accumulate, PeakColors.countAt, Js.at_.
      cbn [accBuckets accChromaSum accLightnessSum accCounts].
      rewrite !nth_upd by lia.
      destruct (Js.rem (Zfloor (h i)) 360 =? k)%Z; unfold Rsum; cbn [length map fold_right];
        repeat split; try lia; try lra.
    + apply IH. exact Hs.
Qed.

End Accumulation.

Lemma fold_left_ext_in {A B : Type} (f g : A -> B -> A) (l : list B) (s : A) :
  (forall s i, In i l -> f s i = g s i) -> fold_left f l s = fold_left g l s.
Proof.
  revert s. induction l as [|x l IH]; intros s H; simpl; [reflexivity|].
  rewrite H by (now left). apply IH. intros s' i Hi. apply H. now right.
Qed.

Lemma fold_left_invariant {A B : Type} (P : A -> Prop) (f : A -> B -> A)
  (l : list B) (s : A) :
  (forall s i, P s -> P (f s i)) -> P s -> P (fold_left f l s).
Proof.
  intros H. revert s. induction l as [|x l IH]; intros s Hs; simpl; auto.
Qed.

Lemma init_sized : sized init.
Proof. unfold sized, init. repeat split; apply repeat_length. Qed.

(** ** hue-histogram.ts: no path of either variant raises *)

Lemma pixel_sized img options s i :
  sized s -> sized (HueHistogram.pixel img options s i).
Proof.
  intros Hs. unfold HueHistogram.pixel.
  destruct (transparent _); [assumption|].
  destruct (Js.get _ _) as [r|]; [|now apply accumulateNaN_sized].
  destruct (Js.get _ _) as [g|]; [|now apply accumulateNaN_sized].
  destruct (Js.get _ _) as [b|]; [|now apply accumulateNaN_sized].
  destruct (Oklch.rgbToOklch r g b) as [[l c] h].
  destruct (_ || _); [assumption|]. now apply accumulate_sized.
Qed.

Lemma pixel_gated_sized img options s i :
  sized s -> sized (HueHistogramGated.pixel img options s i).
Proof.
  intros Hs. unfold HueHistogramGated.pixel.
  destruct (transparent _); [assumption|].
  destruct (Js.get _ _) as [r|]; [|now apply accumulateNaN_sized].
  destruct (Js.get _ _) as [g|]; [|now apply accumulateNaN_sized].
  destruct (Js.get _ _) as [b|]; [|now apply accumulateNaN_sized].
  destruct (Oklch.rgbToOklch r g b) as [[l c] h].
  destruct (Js.ltb c _); [assumption|].
  destruct (_ || _); [assumption|]. now apply accumulate_sized.
Qed.

(** ** On a well-formed buffer the loop body is the accumulation step *)

Lemma channel_inside img z :
  (0 <= z < Z.of_nat (length (data img)))%Z ->
  Js.get (data img) z = Some (channel img z).
Proof.
  intros H. unfold Js.get, channel. destruct (Z.ltb_spec z 0); [lia|].
  apply nth_error_nth'. lia.
Qed.

Lemma pixel_step img options s i :
  wellFormed img -> (0 <= i < width img * height img)%Z ->
  HueHistogram.pixel img options s i
  = step (included (HueHistogram.lightnessMargin options) img)
      (lightnessOf img) (chromaOf img) (hueOf img) (weightOf options img) s i.
Proof.
  intros (Hw & Hh & Hlen) Hi. unfold HueHistogram.pixel, step, included.
  rewrite !channel_inside by lia. unfold transparent.
  destruct (channel img (i * 4 + 3) <? 200)%Z; [reflexivity|].
  cbn [negb andb]. unfold weightOf, lightnessOf, chromaOf, hueOf, oklchOf.
  destruct (Oklch.rgbToOklch _ _ _) as [[l c] h]. cbn [fst snd].
  destruct (_ || _); reflexivity.
Qed.

Lemma pixel_gated_step img options s i :
  wellFormed img -> (0 <= i < width img * height img)%Z ->
  HueHistogramGated.pixel img options s i
  = step (fun i => included (HueHistogramGated.lightnessMargin options) img i
                   && negb (gated (HueHistogramGated.minChroma options) img i))
      (lightnessOf img) (chromaOf img) (hueOf img)
      (weightOfGated options img) s i.
Proof.
  intros (Hw & Hh & Hlen) Hi.
  unfold HueHistogramGated.pixel, step, included, gated.
  rewrite !channel_inside by lia. unfold transparent.
  destruct (channel img (i * 4 + 3) <? 200)%Z; [reflexivity|].
  cbn [negb andb]. unfold weightOfGated, lightnessOf, chromaOf, hueOf, oklchOf.
  destruct (Oklch.rgbToOklch _ _ _) as [[l c] h]. cbn [fst snd].
  destruct (Js.ltb c _); cbn [negb];
    destruct (_ || _); reflexivity.
Qed.

Lemma at_zeros (k : Z) : Js.at_ (repeat 0 360) k = 0.
Proof.
  unfold Js.at_. destruct (Nat.ltb_spec (Z.to_nat k) 360).
  - now apply nth_repeat_lt.
  - apply nth_overflow. now rewrite repeat_length.
Qed.

Lemma countAt_zeros (k : Z) : PeakColors.countAt (repeat 0%Z 360) k = 0%Z.
Proof.
  unfold PeakColors.countAt. destruct (Nat.ltb_spec (Z.to_nat k) 360).
  - now apply nth_repeat_lt.
  - apply nth_overflow. now rewrite repeat_length.
Qed.

(** The black pixel. *)
Lemma rgbToOklch_black : Oklch.rgbToOklch 0 0 0 = (0, 0, 0).
Proof.
  unfold Oklch.rgbToOklch.
  assert (E0 : Oklch.srgbToLinear (0 / 255) = 0).
  { unfold Oklch.srgbToLinear. destruct (Rle_dec _ _); lra. }
  rewrite E0.
  assert (C0 : forall x, x = 0 -> Oklch.cbrt x = 0).
  { intros x ->. unfold Oklch.cbrt.
    destruct (Rlt_dec 0 0); [lra|]. destruct (Rlt_dec 0 0); [lra|reflexivity]. }
  rewrite !C0 by lra.
  assert (A0 : forall x y, x = 0 -> y = 0 -> Oklch.atan2 y x = 0).
  { intros x y -> ->. unfold Oklch.atan2.
    destruct (Rlt_dec 0 0); [lra|]. destruct (Rlt_dec 0 0); [lra|reflexivity]. }
  rewrite A0 by lra.
  replace (0 * (180 / PI)) with 0 by lra.
  destruct (Rlt_dec 0 0); [lra|].
  repeat f_equal; try lra.
  replace (_ * _ + _ * _) with 0 by lra. apply sqrt_0.
Qed.

Lemma maxOf_zeros (n : nat) : Js.maxOf (repeat 0 n) = 0.
Proof.
  destruct n as [|n]; [reflexivity|]. simpl.
  induction n as [|n IH]; simpl; [reflexivity|].
  rewrite Rmax_left by lra. exact IH.
Qed.


(** C2 fails in the gated variant: an opaque black pixel has lightness 0,
    inside the default lightness window, and chroma 0, below [minChroma];
    it is skipped before the accumulation and the histogram stays empty,
    where the claim has [counts[0] = 1]. *)
Lemma gated_pixel_not_counted :
  Oklch.rgbToOklch 0 0 0 = (0, 0, 0)
  /\ transparent (Some 255%Z) = false
  /\ Js.ltb 0 (HueHistogramGated.lightnessMargin HueHistogramGated.defaults)
     || Js.ltb (1 - HueHistogramGated.lightnessMargin HueHistogramGated.defaults) 0
     = false
  /\ HueHistogramGated.extractHueHistogram blackPixel HueHistogramGated.defaults
     = Js.Normal (emptyHistogram (Some 0)).
Proof.
  split; [apply rgbToOklch_black|]. split; [reflexivity|].
  cbn [HueHistogramGated.lightnessMargin HueHistogramGated.defaults].
  split.
  - rewrite (proj2 (ltb_false 0 0)) by lra.
    rewrite (proj2 (ltb_false (1 - 0) 0)) by lra. reflexivity.
  - unfold HueHistogramGated.extractHueHistogram, emptyHistogram, finish,
      blackPixel.
    cbn [width height data]. change (Js.range (1 * 1)) with [0%Z].
    cbn [fold_left]. unfold HueHistogramGated.pixel.
    cbn [data HueHistogramGated.lightnessMargin HueHistogramGated.minChroma
         HueHistogramGated.defaults].
    change (Js.get [0; 0; 0; 255]%Z (0 * 4)) with (Some 0%Z).
    change (Js.get [0; 0; 0; 255]%Z (0 * 4 + 1)) with (Some 0%Z).
    change (Js.get [0; 0; 0; 255]%Z (0 * 4 + 2)) with (Some 0%Z).
    change (Js.get [0; 0; 0; 255]%Z (0 * 4 + 3)) with (Some 255%Z).
    cbn [transparent Z.ltb Z.compare Pos.compare Pos.compare_cont].
    rewrite rgbToOklch_black.
    rewrite (proj2 (ltb_true 0 0.02)) by lra.
    cbn [init accBuckets accChromaSum accLightnessSum accCounts accTotal].
    now rewrite (maxOf_zeros 360).
Qed.

(** C2, as amended.  On a well-formed buffer and for every bucket [k]: in
    the smoothstep variant [counts[k]], [chromaSum[k]] and [lightnessSum[k]]
    are the number, the chroma sum and the lightness sum of the pixels of
    bucket [k] that pass the alpha cutoff and the lightness window,
    whatever the weight mode and [satThreshold]; in the gated variant they
    are those of the pixels that moreover have a chroma of at least
    [minChroma]. *)
Theorem histogram_sums_tally (img : ImageData) (k : Z) :
  wellFormed img -> (0 <= k < 360)%Z ->
  (forall options,
     let inc := included (HueHistogram.lightnessMargin options) img in
     exists h,
       HueHistogram.extractHueHistogram img options = Js.Normal h
       /\ PeakColors.countAt (counts h) k
          = Z.of_nat (length (pixelsOf inc img k))
       /\ Js.at_ (chromaSum h) k = Rsum (map (chromaOf img) (pixelsOf inc img k))
       /\ Js.at_ (lightnessSum h) k
          = Rsum (map (lightnessOf img) (pixelsOf inc img k)))
  /\ (forall options,
        let inc := fun i =>
          included (HueHistogramGated.lightnessMargin options) img i
          && negb (gated (HueHistogramGated.minChroma options) img i) in
        exists h,
          HueHistogramGated.extractHueHistogram img options = Js.Normal h
          /\ PeakColors.countAt (counts h) k
             = Z.of_nat (length (pixelsOf inc img k))
          /\ Js.at_ (chromaSum h) k
             = Rsum (map (chromaOf img) (pixelsOf inc img k))
          /\ Js.at_ (lightnessSum h) k
             = Rsum (map (lightnessOf img) (pixelsOf inc img k))).
Proof.
  intros Hwf Hk. split; intros options inc; eexists;
    (split; [reflexivity|]); cbn [finish counts chromaSum lightnessSum].
  - rewrite (fold_left_ext_in _
               (step inc (lightnessOf img) (chromaOf img) (hueOf img)
                  (weightOf options img))).
    + destruct (fold_step inc (lightnessOf img) (chromaOf img) (hueOf img)
                  (weightOf options img)
                  (Js.range (width img * height img)) init k init_sized Hk)
        as (_ & Hc & Hcs & Hls & _).
      rewrite Hc, Hcs, Hls. unfold init, hits, pixelsOf, bucketOf.
      cbn [accCounts accChromaSum accLightnessSum].
      rewrite countAt_zeros, !at_zeros. repeat split; try lia; lra.
    + intros s i Hi. apply in_range in Hi. now apply pixel_step.
  - rewrite (fold_left_ext_in _
               (step inc (lightnessOf img) (chromaOf img) (hueOf img)
                  (weightOfGated options img))).
    + destruct (fold_step inc (lightnessOf img) (chromaOf img) (hueOf img)
                  (weightOfGated options img)
                  (Js.range (width img * height img)) init k init_sized Hk)
        as (_ & Hc & Hcs & Hls & _).
      rewrite Hc, Hcs, Hls. unfold init, hits, pixelsOf, bucketOf.
      cbn [accCounts accChromaSum accLightnessSum].
      rewrite countAt_zeros, !at_zeros. repeat split; try lia; lra.
    + intros s i Hi. apply in_range in Hi. now apply pixel_gated_step.
Qed.

(** C2, as amended, at the opaque black pixel and bucket 0. *)
Lemma histogram_sums_tally_witness :
  wellFormed blackPixel /\ (0 <= 0 < 360)%Z
  /\ exists h,
       HueHistogram.extractHueHistogram blackPixel HueHistogram.defaults
       = Js.Normal h
       /\ PeakColors.countAt (counts h) 0
          = Z.of_nat (length (pixelsOf (included 0 blackPixel) blackPixel 0)).
Proof.
  assert (W : wellFormed blackPixel) by (unfold wellFormed; cbn; lia).
  assert (K : (0 <= 0 < 360)%Z) by lia.
  split; [exact W|]. split; [exact K|].
  destruct (proj1 (histogram_sums_tally blackPixel 0 W K) HueHistogram.defaults)
    as (h & E & C & _).
  exists h. split; [exact E|exact C].
Defined.

(** ** The direction of a sum of vectors *)

Lemma atan2_bound (y x : R) : - PI < Oklch.atan2 y x <= PI.
Proof.
  unfold Oklch.atan2. pose proof PI_RGT_0 as Hpi.
  pose proof (atan_bound (y / x)) as [Hl Hu].
  destruct (Rlt_dec 0 x) as [Hx|Hx]; [lra|].
  destruct (Rlt_dec x 0) as [Hx'|Hx'].
  - destruct (Rle_dec 0 y) as [Hy|Hy].
    + assert (atan (y / x) <= 0); [|lra].
      rewrite <- atan_0. 
      destruct (Req_dec (y / x) 0) as [->|Hne]; [lra|].
      apply Rlt_le, atan_increasing.
      assert (y / x <= 0); [|lra].
      unfold Rdiv. assert (/ x < 0) by now apply Rinv_lt_0_compat. nra.
    + assert (0 < atan (y / x)); [|lra].
      rewrite <- atan_0. apply atan_increasing.
      unfold Rdiv. assert (/ x < 0) by now apply Rinv_lt_0_compat. nra.
  - destruct (Rlt_dec 0 y); [lra|]. destruct (Rlt_dec y 0); lra.
Qed.

(** A vector other than zero is a positive multiple of the unit vector of
    its [atan2]. *)
Lemma atan2_polar (y x : R) :
  x <> 0 \/ y <> 0 ->
  exists rho, 0 < rho
    /\ x = rho * cos (Oklch.atan2 y x) /\ y = rho * sin (Oklch.atan2 y x).
Proof.
  intros Hne. unfold Oklch.atan2.
  assert (Hc : 0 < cos (atan (y / x))).
  { pose proof (atan_bound (y / x)). apply cos_gt_0; lra. }
  assert (Hs : x <> 0 -> sin (atan (y / x)) = y / x * cos (atan (y / x))).
  { intros Hx. pose proof (tan_atan (y / x)) as Ht. unfold tan in Ht.
    rewrite <- Ht at 2. field. lra. }
  destruct (Rlt_dec 0 x) as [Hx|Hx].
  - exists (x / cos (atan (y / x))). split; [|split].
    + now apply Rdiv_lt_0_compat.
    + field. lra.
    + rewrite Hs by lra. field. lra.
  - destruct (Rlt_dec x 0) as [Hx'|Hx'].
    + exists (- x / cos (atan (y / x))).
      assert (0 < - x / cos (atan (y / x)))
        by (apply Rdiv_lt_0_compat; lra).
      destruct (Rle_dec 0 y) as [Hy|Hy].
      * rewrite neg_cos, neg_sin, Hs by lra.
        split; [assumption|]. split; field; lra.
      * replace (atan (y / x) - PI) with (atan (y / x) + PI - 2 * PI) by lra.
        rewrite cos_minus, sin_minus, cos_2PI, sin_2PI.
        rewrite !Rmult_1_r, !Rmult_0_r, Rplus_0_r, Rminus_0_r.
        rewrite neg_cos, neg_sin, Hs by lra.
        split; [assumption|]. split; field; lra.
    + assert (x = 0) by lra. subst x.
      destruct (Rlt_dec 0 y) as [Hy|Hy].
      * exists y. rewrite cos_PI2, sin_PI2. split; [assumption|]. split; lra.
      * destruct (Rlt_dec y 0) as [Hy'|Hy'].
        -- exists (- y). rewrite cos_neg, sin_neg, cos_PI2, sin_PI2.
           split; [lra|]. split; lra.
        -- exfalso. destruct Hne; lra.
Qed.

(** An angle within a quarter turn of 0 whose two shifted sines are not
    negative lies between the shifts. *)
Lemma small_angle (x delta : R) :
  - PI < x <= PI -> 0 <= delta < PI / 2 ->
  0 < cos x -> 0 <= sin (x + delta) -> 0 <= sin (delta - x) ->
  - delta <= x <= delta.
Proof.
  intros Hx Hd Hc Hs1 Hs2. pose proof PI_RGT_0 as Hpi.
  assert (Hq : - (PI / 2) < x < PI / 2).
  { split.
    - destruct (Rlt_dec (- (PI / 2)) x); [assumption|]. exfalso.
      assert (cos (- x) <= 0) by (apply cos_le_0; lra).
      rewrite cos_neg in H. lra.
    - destruct (Rlt_dec x (PI / 2)); [assumption|]. exfalso.
      assert (cos x <= 0) by (apply cos_le_0; lra). lra. }
  split.
  - destruct (Rle_dec (- delta) x); [assumption|]. exfalso.
    assert (sin (x + delta) < 0) by (apply sin_lt_0_var; lra). lra.
  - destruct (Rle_dec x delta); [assumption|]. exfalso.
    assert (sin (delta - x) < 0) by (apply sin_lt_0_var; lra). lra.
Qed.

Lemma cos_shift (x : R) : cos (x + 2 * PI) = cos x.
Proof. rewrite cos_plus, cos_2PI, sin_2PI. lra. Qed.

Lemma sin_shift (x : R) : sin (x + 2 * PI) = sin x.
Proof. rewrite sin_plus, cos_2PI, sin_2PI. lra. Qed.

(** One of three turns brings the angle into the arc. *)
Lemma angle_in_arc (phi alpha beta : R) :
  - PI < phi <= PI -> 0 <= alpha -> alpha <= beta -> beta < alpha + PI ->
  alpha < 2 * PI ->
  0 <= sin (phi - alpha) -> 0 <= sin (beta - phi) ->
  0 < cos (phi - (alpha + beta) / 2) ->
  alpha <= phi <= beta
  \/ alpha <= phi + 2 * PI <= beta
  \/ alpha <= phi + 4 * PI <= beta.
Proof.
  intros Hphi Ha Hab Hb Ha2 Hs1 Hs2 Hc. pose proof PI_RGT_0 as Hpi.
  set (m := (alpha + beta) / 2) in *. set (delta := (beta - alpha) / 2).
  assert (Hd : 0 <= delta < PI / 2) by (subst delta; lra).
  assert (K : forall t, - PI < phi + t - m <= PI ->
                        cos (phi + t - m) = cos (phi - m) ->
                        sin (phi + t - m + delta) = sin (phi - alpha) ->
                        sin (delta - (phi + t - m)) = sin (beta - phi) ->
                        alpha <= phi + t <= beta).
  { intros t Ht E1 E2 E3.
    assert (- delta <= phi + t - m <= delta).
    { apply small_angle; try assumption; rewrite ?E1, ?E2, ?E3; assumption. }
    subst m delta. lra. }
  destruct (Rlt_dec (- PI) (phi - m)) as [H0|H0].
  - left. replace phi with (phi + 0) at 1 2 by lra. apply K.
    + subst m. lra.
    + f_equal. lra.
    + f_equal. subst m delta. lra.
    + f_equal. subst m delta. lra.
  - destruct (Rlt_dec (- PI) (phi + 2 * PI - m)) as [H1|H1].
    + right. left. apply K.
      * lra.
      * replace (phi + 2 * PI - m) with (phi - m + 2 * PI) by lra.
        apply cos_shift.
      * replace (phi + 2 * PI - m + delta) with (phi - alpha + 2 * PI)
          by (subst m delta; lra).
        apply sin_shift.
      * rewrite <- (sin_shift (delta - (phi + 2 * PI - m))). f_equal.
        subst m delta. lra.
    + right. right. apply K.
      * subst m. lra.
      * replace (phi + 4 * PI - m) with (phi - m + 2 * PI + 2 * PI) by lra.
        now rewrite !cos_shift.
      * replace (phi + 4 * PI - m + delta)
          with (phi - alpha + 2 * PI + 2 * PI) by (subst m delta; lra).
        now rewrite !sin_shift.
      * rewrite <- (sin_shift (delta - (phi + 4 * PI - m))).
        rewrite <- (sin_shift (delta - (phi + 4 * PI - m) + 2 * PI)).
        f_equal. subst m delta. lra.
Qed.

(** The hue of [rgbToOklch] is in [0, 360), so that the bucket is an index
    of the four arrays. *)
Lemma rgbToOklch_hue (r g b : Z) :
  0 <= snd (Oklch.rgbToOklch r g b) < 360.
Proof.
  unfold Oklch.rgbToOklch. cbv zeta. cbn [snd].
  match goal with |- context [Oklch.atan2 ?y ?x] =>
    pose proof (atan2_bound y x) as H; set (phi := Oklch.atan2 y x) in * end.
  pose proof PI_RGT_0 as Hpi.
  set (u := phi * (180 / PI)).
  assert (Eu : phi = u * (PI / 180)) by (subst u; field; lra).
  set (k := PI / 180) in *.
  assert (Hk : 0 < k) by (subst k; lra).
  assert (EP : PI = 180 * k) by (subst k; lra).
  rewrite EP, Eu in H.
  assert (Hu : -180 < u <= 180) by (split; nra).
  destruct (Rlt_dec u 0); lra.
Qed.

Lemma rgbToOklch_bucket (r g b : Z) :
  (0 <= Js.rem (Zfloor (snd (Oklch.rgbToOklch r g b))) 360 < 360)%Z.
Proof.
  pose proof (rgbToOklch_hue r g b) as [Hl Hu].
  pose proof (Zfloor_bound (snd (Oklch.rgbToOklch r g b))) as [Fl Fu].
  set (z := Zfloor _) in *.
  assert (0 <= z)%Z by (apply (Zfloor_lub 0); exact Hl).
  assert (z < 360)%Z by (apply lt_IZR; lra).
  apply rem_inside; lia.
Qed.

(** ** Bounds on square roots *)

Lemma sqrt_le_of_square (x y : R) : 0 <= y -> x <= y * y -> sqrt x <= y.
Proof.
  intros Hy H. destruct (Rle_dec 0 x) as [Hx|Hx].
  - rewrite <- (sqrt_square y Hy). now apply sqrt_le_1_alt.
  - rewrite sqrt_neg_0 by lra. exact Hy.
Qed.

Lemma sqrt_ge_of_square (x y : R) : 0 <= y -> y * y <= x -> y <= sqrt x.
Proof.
  intros Hy H. rewrite <- (sqrt_square y Hy). now apply sqrt_le_1_alt.
Qed.

Lemma sqrt_sum_squares_le (x y : R) : sqrt (x * x + y * y) <= Rabs x + Rabs y.
Proof.
  apply sqrt_le_of_square.
  - pose proof (Rabs_pos x). pose proof (Rabs_pos y). lra.
  - pose proof (Rabs_pos x). pose proof (Rabs_pos y).
    assert (Rabs x * Rabs x = x * x)
      by (unfold Rabs; destruct (Rcase_abs x); lra).
    assert (Rabs y * Rabs y = y * y)
      by (unfold Rabs; destruct (Rcase_abs y); lra).
    nra.
Qed.

Lemma sqrt_product_le (x y : R) : 0 <= x -> 0 <= y -> 2 * sqrt (x * y) <= x + y.
Proof.
  intros Hx Hy.
  assert (sqrt (x * y) <= (x + y) / 2); [|lra].
  pose proof (Rle_0_sqr (x - y)) as Hsq. unfold Rsqr in Hsq.
  apply sqrt_le_of_square; lra.
Qed.

(** The ratio under the square roots of [G] and [RC]. *)
Lemma ratio7_bounds (c : R) :
  0 <= c -> 0 <= sqrt (c ^ 7 / (c ^ 7 + 25 ^ 7)) <= 1.
Proof.
  intros Hc. split; [apply sqrt_pos|].
  apply sqrt_le_of_square; [lra|].
  assert (0 <= c ^ 7) by (apply pow_le; exact Hc).
  assert (0 < 25 ^ 7) by (apply pow_lt; lra).
  apply Rle_trans with 1; [|lra].
  apply (Rmult_le_reg_r (c ^ 7 + 25 ^ 7)); [lra|].
  unfold Rdiv. rewrite Rmult_assoc, Rinv_l by lra. lra.
Qed.

(** What the CIEDE2000 formula is made of. *)
Lemma deltaE2000_shape (L1 a1 b1 L2 a2 b2 : R) :
  exists SL SC SH RT dCp dHp S : R,
    deltaE2000 L1 a1 b1 L2 a2 b2
    = sqrt (((L2 - L1) / (1 * SL)) ^ 2 + (dCp / (1 * SC)) ^ 2
            + (dHp / (1 * SH)) ^ 2
            + RT * (dCp / (1 * SC)) * (dHp / (1 * SH)))
    /\ 1 <= SL <= 1 + 0.015 * Rabs ((L1 + L2) / 2 - 50)
    /\ 1 <= SC /\ 1 <= SH /\ Rabs RT <= 2
    /\ Rabs dCp <= S /\ Rabs dHp <= S
    /\ 0 <= S <= 1.5 * Rabs a1 + Rabs b1 + 1.5 * Rabs a2 + Rabs b2.
Proof.
  unfold deltaE2000. cbv zeta.
  set (C1 := sqrt (a1 * a1 + b1 * b1)).
  set (C2 := sqrt (a2 * a2 + b2 * b2)).
  set (G := 0.5 * (1 - sqrt (((C1 + C2) / 2) ^ 7 / (((C1 + C2) / 2) ^ 7 + 25 ^ 7)))).
  set (C1p := sqrt (a1 * (1 + G) * (a1 * (1 + G)) + b1 * b1)).
  set (C2p := sqrt (a2 * (1 + G) * (a2 * (1 + G)) + b2 * b2)).
  set (h1p := if Rlt_dec (Oklch.atan2 b1 (a1 * (1 + G)) * (180 / PI)) 0
              then Oklch.atan2 b1 (a1 * (1 + G)) * (180 / PI) + 360
              else Oklch.atan2 b1 (a1 * (1 + G)) * (180 / PI)).
  set (h2p := if Rlt_dec (Oklch.atan2 b2 (a2 * (1 + G)) * (180 / PI)) 0
              then Oklch.atan2 b2 (a2 * (1 + G)) * (180 / PI) + 360
              else Oklch.atan2 b2 (a2 * (1 + G)) * (180 / PI)).
  set (dhp := if Req_dec_T (C1p * C2p) 0 then 0 else _).
  set (hp := if Req_dec_T (C1p * C2p) 0 then h1p + h2p else _).
  set (T := 1 - 0.17 * cos ((hp - 30) * (PI / 180)) + _ + _ - _).
  set (RC := 2 * sqrt (((C1p + C2p) / 2) ^ 7 / (((C1p + C2p) / 2) ^ 7 + 25 ^ 7))).
  set (SL := 1 + _ / sqrt _).
  set (SC := 1 + 0.045 * ((C1p + C2p) / 2)).
  set (SH := 1 + 0.015 * ((C1p + C2p) / 2) * T).
  set (RT := - sin _ * RC).
  set (dHp := 2 * sqrt (C1p * C2p) * sin _).
  exists SL, SC, SH, RT, (C2p - C1p), dHp, (C1p + C2p).
  split; [reflexivity|].
  assert (HC1 : 0 <= C1) by apply sqrt_pos.
  assert (HC2 : 0 <= C2) by apply sqrt_pos.
  assert (HC1p : 0 <= C1p) by apply sqrt_pos.
  assert (HC2p : 0 <= C2p) by apply sqrt_pos.
  assert (HG : 0 <= G <= 0.5).
  { pose proof (ratio7_bounds ((C1 + C2) / 2)). subst G. lra. }
  assert (HT : 0 <= T).
  { subst T.
    pose proof (COS_bound ((hp - 30) * (PI / 180))).
    pose proof (COS_bound (2 * hp * (PI / 180))).
    pose proof (COS_bound ((3 * hp + 6) * (PI / 180))).
    pose proof (COS_bound ((4 * hp - 63) * (PI / 180))). lra. }
  repeat split.
  - (* 1 <= SL *)
    subst SL. set (x := (L1 + L2) / 2 - 50).
    assert (0 < sqrt (20 + x ^ 2)) by (apply sqrt_lt_R0; nra).
    assert (0 <= 0.015 * x ^ 2 / sqrt (20 + x ^ 2)); [|lra].
    apply Rmult_le_pos; [nra|]. apply Rlt_le. now apply Rinv_0_lt_compat.
  - (* SL <= ... *)
    subst SL. set (x := (L1 + L2) / 2 - 50).
    assert (Hs : 0 < sqrt (20 + x ^ 2)) by (apply sqrt_lt_R0; nra).
    assert (Hx : Rabs x <= sqrt (20 + x ^ 2)).
    { apply sqrt_ge_of_square; [apply Rabs_pos|].
      unfold Rabs. destruct (Rcase_abs x); nra. }
    assert (x ^ 2 / sqrt (20 + x ^ 2) <= Rabs x); [|unfold Rdiv in *; lra].
    apply (Rmult_le_reg_r (sqrt (20 + x ^ 2))); [exact Hs|].
    unfold Rdiv. rewrite Rmult_assoc, Rinv_l by lra.
    assert (x ^ 2 = Rabs x * Rabs x)
      by (unfold Rabs; destruct (Rcase_abs x); lra).
    pose proof (Rabs_pos x). nra.
  - subst SC. lra.
  - subst SH. nra.
  - (* RT *)
    subst RT RC. pose proof (ratio7_bounds ((C1p + C2p) / 2)).
    match goal with |- Rabs (- sin ?t * _) <= _ =>
      pose proof (SIN_bound t) as Hsin; set (s := sin t) in * end.
    set (q := sqrt _) in *.
    unfold Rabs. destruct (Rcase_abs _); nra.
  - unfold Rabs. destruct (Rcase_abs _); lra.
  - (* dHp *)
    subst dHp. pose proof (sqrt_product_le C1p C2p HC1p HC2p).
    pose proof (sqrt_pos (C1p * C2p)).
    match goal with |- Rabs (_ * sin ?t) <= _ =>
      pose proof (SIN_bound t) as Hsin; set (s := sin t) in * end.
    set (q := sqrt (C1p * C2p)) in *.
    unfold Rabs. destruct (Rcase_abs _); nra.
  - lra.
  - (* C1p + C2p <= ... *)
    pose proof (sqrt_sum_squares_le (a1 * (1 + G)) b1).
    pose proof (sqrt_sum_squares_le (a2 * (1 + G)) b2).
    fold C1p in H. fold C2p in H0.
    assert (Rabs (a1 * (1 + G)) <= 1.5 * Rabs a1).
    { rewrite Rabs_mult. rewrite (Rabs_right (1 + G)) by lra.
      pose proof (Rabs_pos a1). nra. }
    assert (Rabs (a2 * (1 + G)) <= 1.5 * Rabs a2).
    { rewrite Rabs_mult. rewrite (Rabs_right (1 + G)) by lra.
      pose proof (Rabs_pos a2). nra. }
    lra.
Qed.

Lemma Rabs_square (x : R) : Rabs x * Rabs x = x * x.
Proof. unfold Rabs. destruct (Rcase_abs x); lra. Qed.

Lemma quotient_abs (d s : R) :
  1 <= s -> Rabs (d / (1 * s)) * s = Rabs d.
Proof.
  intros Hs. replace d with (d / (1 * s) * s) at 2 by (field; lra).
  rewrite Rabs_mult, (Rabs_right s) by lra. reflexivity.
Qed.

Lemma cross_term (rt y z : R) : Rabs rt <= 2 -> Rabs (rt * y * z) <= y * y + z * z.
Proof.
  intros H.
  assert (H1 : -2 <= rt <= 2) by (unfold Rabs in H; destruct (Rcase_abs rt); lra).
  pose proof (Rle_0_sqr (y - rt * z / 2)) as A. unfold Rsqr in A.
  pose proof (Rle_0_sqr (y + rt * z / 2)) as B. unfold Rsqr in B.
  assert (C : 0 <= (4 - rt * rt) * (z * z)) by (apply Rmult_le_pos; nra).
  unfold Rabs. destruct (Rcase_abs _); lra.
Qed.

Lemma deltaE2000_upper (L1 a1 b1 L2 a2 b2 : R) :
  deltaE2000 L1 a1 b1 L2 a2 b2
  <= Rabs (L2 - L1)
     + 2 * (1.5 * Rabs a1 + Rabs b1 + 1.5 * Rabs a2 + Rabs b2).
Proof.
  destruct (deltaE2000_shape L1 a1 b1 L2 a2 b2)
    as (SL & SC & SH & RT & dCp & dHp & S & -> & HSL & HSC & HSH & HRT
        & HdC & HdH & HS).
  pose proof (quotient_abs (L2 - L1) SL (proj1 HSL)) as Qx.
  pose proof (quotient_abs dCp SC HSC) as Qy.
  pose proof (quotient_abs dHp SH HSH) as Qz.
  set (x := (L2 - L1) / (1 * SL)) in *.
  set (y := dCp / (1 * SC)) in *.
  set (z := dHp / (1 * SH)) in *.
  pose proof (cross_term RT y z HRT) as Hc.
  pose proof (Rabs_pos x). pose proof (Rabs_pos y). pose proof (Rabs_pos z).
  pose proof (Rabs_pos (L2 - L1)) as HdL.
  pose proof (Rabs_square x) as Sx. pose proof (Rabs_square y) as Sy.
  pose proof (Rabs_square z) as Sz.
  assert (Hx : Rabs x <= Rabs (L2 - L1)) by nra.
  assert (Hy : Rabs y <= S) by nra.
  assert (Hz : Rabs z <= S) by nra.
  set (B := 1.5 * Rabs a1 + Rabs b1 + 1.5 * Rabs a2 + Rabs b2) in *.
  apply sqrt_le_of_square; [lra|].
  assert (RT * y * z <= y * y + z * z)
    by (unfold Rabs in Hc; destruct (Rcase_abs (RT * y * z)); lra).
  assert (x * x <= Rabs (L2 - L1) * Rabs (L2 - L1)) by nra.
  assert (y * y <= S * S) by nra.
  assert (z * z <= S * S) by nra.
  assert (S * S <= B * B) by nra.
  nra.
Qed.

Lemma deltaE2000_lower (L1 a1 b1 L2 a2 b2 d : R) :
  0 <= d ->
  d * (1 + 0.015 * Rabs ((L1 + L2) / 2 - 50)) <= Rabs (L2 - L1) ->
  d <= deltaE2000 L1 a1 b1 L2 a2 b2.
Proof.
  intros Hd H.
  destruct (deltaE2000_shape L1 a1 b1 L2 a2 b2)
    as (SL & SC & SH & RT & dCp & dHp & S & -> & HSL & HSC & HSH & HRT
        & HdC & HdH & HS).
  pose proof (quotient_abs (L2 - L1) SL (proj1 HSL)) as Qx.
  set (x := (L2 - L1) / (1 * SL)) in *.
  set (y := dCp / (1 * SC)) in *.
  set (z := dHp / (1 * SH)) in *.
  pose proof (cross_term RT y z HRT) as Hc.
  pose proof (Rabs_pos x). pose proof (Rabs_square x) as Sx.
  assert (Hx : d <= Rabs x) by nra.
  apply sqrt_ge_of_square; [exact Hd|].
  assert (- (y * y + z * z) <= RT * y * z)
    by (unfold Rabs in Hc; destruct (Rcase_abs (RT * y * z)); lra).
  assert (d * d <= x * x) by nra.
  nra.
Qed.

(** ** Dark colours at hue 0: the conversion to CIE Lab is rational *)

Lemma clampSrgb_dark (c : R) :
  0 <= c <= 0.0031308 -> Rmax 0 (Rmin 1 (linearToSrgb c)) = 12.92 * c.
Proof.
  intros H. unfold linearToSrgb. destruct (Rle_dec c 0.0031308); [|lra].
  rewrite Rmin_right by lra. rewrite Rmax_right by lra. reflexivity.
Qed.

Lemma oklchToLab_dark (L C : R) :
  let '(lr, lg, lb) := linearRgb L C in
  0 <= lr <= 0.0031308 -> 0 <= lg <= 0.0031308 -> 0 <= lb <= 0.0031308 ->
  oklchToLab L C 0 = labOfLinear lr lg lb.
Proof.
  unfold linearRgb. cbv zeta. intros Hr Hg Hb.
  unfold oklchToLab, oklchToSrgb. cbv zeta.
  replace (0 * PI / 180) with 0 by lra. rewrite cos_0, sin_0.
  rewrite !Rmult_1_r, !Rmult_0_r, !Rplus_0_r, !Rminus_0_r.
  set (lr := 4.0767416621 * _ - _ + _) in *.
  set (lg := -1.2684380046 * _ + _ - _) in *.
  set (lb := -0.0041960863 * _ - _ + _) in *.
  rewrite !clampSrgb_dark by assumption.
  unfold srgbToXyz. cbv zeta beta.
  destruct (Rle_dec (12.92 * lr) 0.04045); [|lra].
  destruct (Rle_dec (12.92 * lg) 0.04045); [|lra].
  destruct (Rle_dec (12.92 * lb) 0.04045); [|lra].
  replace (12.92 * lr / 12.92) with lr by lra.
  replace (12.92 * lg / 12.92) with lg by lra.
  replace (12.92 * lb / 12.92) with lb by lra.
  unfold xyzToLab, labOfLinear. cbv zeta beta.
  set (x := 0.4124564 * lr + 0.3575761 * lg + 0.1804375 * lb).
  set (y := 0.2126729 * lr + 0.7151522 * lg + 0.072175 * lb).
  set (z := 0.0193339 * lr + 0.119192 * lg + 0.9503041 * lb).
  destruct (Rlt_dec 0.008856 (x / 0.95047)); [subst x; lra|].
  destruct (Rlt_dec 0.008856 (y / 1.0)); [subst y; lra|].
  destruct (Rlt_dec 0.008856 (z / 1.08883)); [subst z; lra|].
  f_equal; [f_equal|]; lra.
Qed.

Ltac lab_dark L C :=
  let H := fresh "H" in
  pose proof (oklchToLab_dark L C) as H;
  unfold linearRgb in H; cbv zeta in H;
  rewrite H by lra; clear H.

Ltac abs_cases :=
  repeat match goal with
  | |- context [Rabs ?x] => unfold Rabs at 1; destruct (Rcase_abs x)
  end.

Lemma lab_A : oklchToLab 0 0 0 = (0, 0, 0).
Proof.
  lab_dark 0 0. unfold labOfLinear. cbv zeta.
  f_equal; [f_equal|]; lra.
Qed.

Lemma lab_B :
  exists l a b, oklchToLab 0.14 0 0 = (l, a, b)
    /\ 2.47 <= l <= 2.48 /\ -0.00001 <= a <= 0.00001
    /\ -0.00001 <= b <= 0.00001.
Proof.
  lab_dark 0.14 0. unfold labOfLinear. cbv zeta.
  do 3 eexists. split; [reflexivity|]. lra.
Qed.

Lemma lab_C :
  exists l a b, oklchToLab 0.11 0.0001 0 = (l, a, b)
    /\ 1.2 <= l <= 1.21 /\ 0 <= a <= 0.01 /\ -0.0001 <= b <= 0.
Proof.
  lab_dark 0.11 0.0001. unfold labOfLinear. cbv zeta.
  do 3 eexists. split; [reflexivity|]. lra.
Qed.

Lemma distance_C_A : colorDistance colorC colorA < 1.4.
Proof.
  unfold colorDistance, colorA, colorC. cbn [lightness chroma hue].
  destruct lab_C as (l & a & b & -> & Hl & Ha & Hb). rewrite lab_A.
  eapply Rle_lt_trans; [apply deltaE2000_upper|].
  abs_cases; lra.
Qed.

Lemma distance_B_C : colorDistance colorB colorC < 1.4.
Proof.
  unfold colorDistance, colorB, colorC. cbn [lightness chroma hue].
  destruct lab_B as (l & a & b & -> & Hl & Ha & Hb).
  destruct lab_C as (l' & a' & b' & -> & Hl' & Ha' & Hb').
  eapply Rle_lt_trans; [apply deltaE2000_upper|].
  abs_cases; lra.
Qed.

Lemma distance_B_A : 1.4 <= colorDistance colorB colorA.
Proof.
  unfold colorDistance, colorA, colorB. cbn [lightness chroma hue].
  destruct lab_B as (l & a & b & -> & Hl & Ha & Hb). rewrite lab_A.
  apply deltaE2000_lower; [lra|].
  abs_cases; lra.
Qed.

(** ** filterByDistance *)

Lemma findSimilar_far (c : PeakColor) (d : R) (result : list PeakColor) (i : nat) :
  Forall (fun r => d <= colorDistance c r) result ->
  findSimilar c d result i = (true, None).
Proof.
  revert i. induction result as [|r rest IH]; intros i H; [reflexivity|].
  inversion H; subst. cbn [findSimilar].
  rewrite (proj2 (ltb_false _ _)) by assumption. now apply IH.
Qed.

Lemma fold_separated (d : R) (colors before : list PeakColor) :
  separatedFrom d before colors ->
  fold_left (filterStep d) colors before = before ++ colors.
Proof.
  revert before. induction colors as [|c rest IH]; intros before H.
  - simpl. now rewrite app_nil_r.
  - destruct H as [Hfar Hrest]. cbn [fold_left]. unfold filterStep at 2.
    rewrite findSimilar_far by assumption.
    rewrite IH by assumption. now rewrite <- app_assoc.
Qed.

(** A separated list is a fixed point of the filter. *)
Lemma filterByDistance_separated (colors : list PeakColor) (d : R) :
  separated d colors -> filterByDistance colors d = colors.
Proof.
  intros H. unfold filterByDistance.
  destruct (_ || _); [reflexivity|]. now apply fold_separated.
Qed.

Ltac filter_run :=
  cbn -[colorDistance Js.ltb Js.leb colorA colorB colorC].

Lemma filterByDistance_first_pass :
  filterByDistance [colorA; colorB; colorC] 1.4 = [colorC; colorB].
Proof.
  unfold filterByDistance. rewrite (proj2 (leb_false 1.4 0)) by lra.
  unfold filterStep. filter_run.
  rewrite (proj2 (ltb_false (colorDistance colorB colorA) 1.4))
    by apply distance_B_A.
  filter_run.
  rewrite (proj2 (ltb_true (colorDistance colorC colorA) 1.4))
    by apply distance_C_A.
  replace (Js.ltb (chroma colorA) (chroma colorC)) with true
    by (symmetry; apply ltb_true; cbn; lra).
  reflexivity.
Qed.

Lemma filterByDistance_second_pass :
  filterByDistance [colorC; colorB] 1.4 = [colorC].
Proof.
  unfold filterByDistance. rewrite (proj2 (leb_false 1.4 0)) by lra.
  unfold filterStep. filter_run.
  rewrite (proj2 (ltb_true (colorDistance colorB colorC) 1.4))
    by apply distance_B_C.
  replace (Js.ltb (chroma colorC) (chroma colorB)) with false
    by (symmetry; apply ltb_false; cbn; lra).
  reflexivity.
Qed.

(** C3.  At the colours A, B, C and [minDistance = 1.4] the filter is not
    idempotent, and its output is not kept [minDistance] apart: C replaces
    A, to which alone it is compared, and the output holds C and B, which
    are closer than 1.4; filtering again drops B. *)
Theorem filterByDistance_not_idempotent :
  filterByDistance [colorA; colorB; colorC] 1.4 = [colorC; colorB]
  /\ colorDistance colorB colorC < 1.4
  /\ filterByDistance (filterByDistance [colorA; colorB; colorC] 1.4) 1.4
     = [colorC]
  /\ filterByDistance (filterByDistance [colorA; colorB; colorC] 1.4) 1.4
     <> filterByDistance [colorA; colorB; colorC] 1.4.
Proof.
  rewrite filterByDistance_first_pass, filterByDistance_second_pass.
  split; [reflexivity|]. split; [exact distance_B_C|].
  split; [reflexivity|discriminate].
Qed.

(** When the colours arrive by non-increasing chroma no accepted colour is
    ever replaced, and the output is separated. *)

Lemma separatedFrom_snoc (d : R) (c : PeakColor) (colors before : list PeakColor) :
  separatedFrom d before colors ->
  Forall (fun r => d <= colorDistance c r) (before ++ colors) ->
  separatedFrom d before (colors ++ [c]).
Proof.
  revert before. induction colors as [|x rest IH]; intros before H Hfar.
  - rewrite app_nil_r in Hfar. simpl. auto.
  - destruct H as [Hx Hrest]. cbn [app separatedFrom]. split; [exact Hx|].
    apply IH; [exact Hrest|]. now rewrite <- app_assoc.
Qed.

Lemma findSimilar_cases (c : PeakColor) (d : R) (result : list PeakColor) (i : nat) :
  Forall (fun r => chroma c <= chroma r) result ->
  (findSimilar c d result i = (true, None)
   /\ Forall (fun r => d <= colorDistance c r) result)
  \/ findSimilar c d result i = (false, None).
Proof.
  revert i. induction result as [|r rest IH]; intros i H.
  - left. split; [reflexivity|constructor].
  - inversion H; subst. cbn [findSimilar].
    destruct (Js.ltb (colorDistance c r) d) eqn:E.
    + right. now rewrite (proj2 (ltb_false _ _)).
    + apply ltb_false in E. destruct (IH (S i) H3) as [[E1 F]|E1].
      * left. split; [exact E1|]. now constructor.
      * now right.
Qed.

Lemma sorted_before_middle {A : Type} (rel : A -> A -> Prop)
  (l1 l2 : list A) (c : A) :
  StronglySorted rel (l1 ++ c :: l2) -> Forall (fun r => rel r c) l1.
Proof.
  induction l1 as [|a l1 IH]; intros H; [constructor|].
  cbn [app] in H. inversion H as [|? ? Hs Hf]; subst.
  constructor; [|now apply IH].
  rewrite Forall_forall in Hf. apply Hf. apply in_or_app. right. now left.
Qed.

Lemma sorted_without_middle {A : Type} (rel : A -> A -> Prop)
  (l1 l2 : list A) (c : A) :
  StronglySorted rel (l1 ++ c :: l2) -> StronglySorted rel (l1 ++ l2).
Proof.
  induction l1 as [|a l1 IH]; intros H; cbn [app] in *.
  - now inversion H.
  - inversion H as [|? ? Hs Hf]; subst. constructor; [now apply IH|].
    rewrite Forall_forall in *. intros x Hx. apply Hf.
    apply in_app_or in Hx as [Hx|Hx]; apply in_or_app; [now left|].
    right. now right.
Qed.

Lemma fold_descending_chroma (d : R) (colors acc : list PeakColor) :
  separated d acc ->
  StronglySorted (fun a b => chroma b <= chroma a) (acc ++ colors) ->
  separated d (fold_left (filterStep d) colors acc).
Proof.
  revert acc. induction colors as [|c rest IH]; intros acc Hsep Hsort;
    [exact Hsep|].
  cbn [fold_left].
  pose proof (sorted_before_middle _ _ _ _ Hsort) as Hc.
  unfold filterStep at 2.
  destruct (findSimilar_cases c d acc 0 Hc) as [[E F]|E]; rewrite E.
  - apply IH.
    + apply separatedFrom_snoc; [exact Hsep|exact F].
    + now rewrite <- app_assoc.
  - apply IH; [exact Hsep|]. exact (sorted_without_middle _ _ _ _ Hsort).
Qed.

Lemma colorDistance_nonneg (c1 c2 : PeakColor) : 0 <= colorDistance c1 c2.
Proof.
  unfold colorDistance.
  destruct (oklchToLab _ _ _) as [[L1 a1] b1].
  destruct (oklchToLab _ _ _) as [[L2 a2] b2].
  unfold deltaE2000. cbv zeta. apply sqrt_pos.
Qed.

Lemma separatedFrom_nonpositive (d : R) (colors before : list PeakColor) :
  d <= 0 -> separatedFrom d before colors.
Proof.
  intros Hd. revert before. induction colors as [|c rest IH]; intros before;
    [exact I|].
  split; [|apply IH]. apply Forall_forall. intros r _.
  pose proof (colorDistance_nonneg c r). lra.
Qed.

Lemma filterByDistance_descending_chroma (colors : list PeakColor) (d : R) :
  StronglySorted (fun a b => chroma b <= chroma a) colors ->
  separated d (filterByDistance colors d).
Proof.
  intros H. unfold filterByDistance.
  destruct (Js.leb d 0) eqn:E.
  - apply leb_true in E. now apply separatedFrom_nonpositive.
  - cbn [orb]. destruct (length colors <=? 1)%nat eqn:El.
    + destruct colors as [|c [|c' rest]]; try discriminate.
      * exact I.
      * split; [constructor|exact I].
    + apply fold_descending_chroma; [exact I|exact H].
Qed.

Section MeanDirection.

(** Weighted unit vectors, as pairs of an angle and a weight. *)
Variable pts : list (R * R).
Variables alpha beta : R.
Hypothesis alpha_range : 0 <= alpha < 2 * PI.
Hypothesis arc_small : alpha <= beta < alpha + PI.
Hypothesis inside :
  Forall (fun p => alpha <= fst p <= beta /\ 0 <= snd p) pts.
Hypothesis weight_positive : 0 < Rsum (map snd pts).

Local Abbreviation X := (sumCos pts).
Local Abbreviation Y := (sumSin pts).

Lemma sum_sin_from (a : R) :
  Rsum (map (fun p => sin (fst p - a) * snd p) pts) = cos a * Y - sin a * X.
Proof.
  unfold sumCos, sumSin. clear. induction pts as [|[t w] l IH]; simpl; [lra|].
  unfold Rsum in *. rewrite IH, sin_minus. lra.
Qed.

Lemma sum_sin_to (b : R) :
  Rsum (map (fun p => sin (b - fst p) * snd p) pts) = sin b * X - cos b * Y.
Proof.
  unfold sumCos, sumSin. clear. induction pts as [|[t w] l IH]; simpl; [lra|].
  unfold Rsum in *. rewrite IH, sin_minus. lra.
Qed.

Lemma sum_cos_about (m : R) :
  Rsum (map (fun p => cos (fst p - m) * snd p) pts) = cos m * X + sin m * Y.
Proof.
  unfold sumCos, sumSin. clear. induction pts as [|[t w] l IH]; simpl; [lra|].
  unfold Rsum in *. rewrite IH, cos_minus. lra.
Qed.

Lemma Rsum_nonneg (f : R * R -> R) (l : list (R * R)) :
  Forall (fun p => 0 <= f p) l -> 0 <= Rsum (map f l).
Proof.
  induction 1 as [|p l Hp Hl IH]; simpl; [lra|]. unfold Rsum in *. lra.
Qed.

Lemma Rsum_weighted_positive (f : R * R -> R) (l : list (R * R)) :
  Forall (fun p => 0 < f p /\ 0 <= snd p) l ->
  0 < Rsum (map snd l) -> 0 < Rsum (map (fun p => f p * snd p) l).
Proof.
  induction 1 as [|p l [Hf Hw] Hl IH]; simpl; [lra|]. intros Hpos.
  assert (0 <= Rsum (map (fun p => f p * snd p) l)).
  { apply Rsum_nonneg. eapply Forall_impl; [|exact Hl].
    intros q [Hq1 Hq2]. nra. }
  unfold Rsum in *.
  destruct (Rlt_dec 0 (snd p)) as [Hp|Hp]; [nra|].
  assert (snd p = 0) by lra.
  assert (0 < fold_right Rplus 0 (map (fun p0 => f p0 * snd p0) l))
    by (apply IH; lra).
  nra.
Qed.

Lemma mean_direction :
  let phi := Oklch.atan2 Y X in
  alpha <= phi <= beta
  \/ alpha <= phi + 2 * PI <= beta
  \/ alpha <= phi + 4 * PI <= beta.
Proof.
  intros phi. pose proof PI_RGT_0 as Hpi.
  set (m := (alpha + beta) / 2).
  assert (S1 : 0 <= cos alpha * Y - sin alpha * X).
  { rewrite <- sum_sin_from. apply Rsum_nonneg.
    eapply Forall_impl; [|exact inside]. intros p [Hp Hw].
    apply Rmult_le_pos; [|exact Hw]. apply sin_ge_0; lra. }
  assert (S2 : 0 <= sin beta * X - cos beta * Y).
  { rewrite <- sum_sin_to. apply Rsum_nonneg.
    eapply Forall_impl; [|exact inside]. intros p [Hp Hw].
    apply Rmult_le_pos; [|exact Hw]. apply sin_ge_0; lra. }
  assert (S3 : 0 < cos m * X + sin m * Y).
  { rewrite <- sum_cos_about.
    apply (Rsum_weighted_positive (fun p => cos (fst p - m)));
      [|exact weight_positive].
    eapply Forall_impl; [|exact inside]. intros p [Hp Hw].
    split; [|exact Hw]. apply cos_gt_0; subst m; lra. }
  assert (Hne : X <> 0 \/ Y <> 0).
  { destruct (Req_dec X 0) as [E|E]; [|now left]. right. intros E'.
    rewrite E, E' in S3. lra. }
  destruct (atan2_polar Y X Hne) as (rho & Hrho & EX & EY). fold phi in EX, EY.
  apply angle_in_arc; try lra.
  - apply atan2_bound.
  - rewrite sin_minus.
    assert (0 <= rho * (sin phi * cos alpha - cos phi * sin alpha)) by nra.
    nra.
  - rewrite sin_minus.
    assert (0 <= rho * (sin beta * cos phi - cos beta * sin phi)) by nra.
    nra.
  - fold m. rewrite cos_minus.
    assert (0 < rho * (cos phi * cos m + sin phi * sin m)) by nra.
    nra.
Qed.

End MeanDirection.

Lemma atan2_0_pos (x : R) : 0 < x -> Oklch.atan2 0 x = 0.
Proof.
  intros H. unfold Oklch.atan2. destruct (Rlt_dec 0 x); [|lra].
  replace (0 / x) with 0 by (field; lra). apply atan_0.
Qed.

(** ** extractPeakColors: where a returned colour comes from *)

Lemma firstn_incl {A : Type} (n : nat) (l : list A) : incl (firstn n l) l.
Proof.
  intros x Hx. rewrite <- (firstn_skipn n l). apply in_or_app. now left.
Qed.

Lemma slice0_incl {A : Type} (l : list A) (n : Z) : incl (Js.slice0 l n) l.
Proof. unfold Js.slice0. destruct (n <? 0)%Z; apply firstn_incl. Qed.

Lemma updNth_incl {A : Type} (c : A) (n : nat) (l : list A) :
  incl (Js.updNth (fun _ => c) n l) (c :: l).
Proof.
  revert n. induction l as [|x l IH]; intros [|n] y Hy; simpl in *; auto.
  - destruct Hy as [<-|Hy]; auto.
  - destruct Hy as [<-|Hy]; auto.
    destruct (IH n y Hy) as [<-|H]; auto.
Qed.

Lemma filterStep_incl (d : R) (result : list PeakColor) (c : PeakColor) :
  incl (filterStep d result c) (c :: result).
Proof.
  unfold filterStep. destruct (findSimilar c d result 0) as [[|] [i|]].
  - apply updNth_incl.
  - intros x Hx. apply in_app_or in Hx as [Hx|[<-|[]]]; [now right|now left].
  - apply updNth_incl.
  - apply incl_tl, incl_refl.
Qed.

Lemma filterByDistance_incl (colors : list PeakColor) (d : R) :
  incl (filterByDistance colors d) colors.
Proof.
  unfold filterByDistance. destruct (_ || _); [apply incl_refl|].
  assert (G : forall acc, incl (fold_left (filterStep d) colors acc)
                            (acc ++ colors)).
  { induction colors as [|c rest IH]; intros acc; simpl.
    - rewrite app_nil_r. apply incl_refl.
    - intros x Hx. apply IH in Hx. apply in_app_or in Hx as [Hx|Hx].
      + apply filterStep_incl in Hx as [<-|Hx]; apply in_or_app;
          [right; now left|now left].
      + apply in_or_app. right. now right. }
  apply (G []).
Qed.

Lemma in_extractPeakColors histogram peaks smoothedBuckets options c :
  In c (extractPeakColors histogram peaks smoothedBuckets options) ->
  exists p, In p peaks
            /\ resolvePeak histogram smoothedBuckets options p = Some c.
Proof.
  unfold extractPeakColors. intros H.
  apply slice0_incl, filterByDistance_incl in H.
  apply sortDesc_In in H. apply in_flat_map in H as (p & Hp & Hc).
  exists p. split; [exact Hp|].
  destruct (resolvePeak _ _ _ p); [|contradiction].
  destruct Hc as [->|[]]. reflexivity.
Qed.

(** ** The averaging loop *)

Lemma average_fold histogram smoothedBuckets minValue indices s :
  let t := taken histogram smoothedBuckets minValue indices in
  let s' := fold_left (averageStep histogram smoothedBuckets minValue)
              indices s in
  totalWeight s' = totalWeight s + Rsum (map (Js.at_ smoothedBuckets) t)
  /\ hueX s' = hueX s
       + Rsum (map (fun i => cos (angle i) * Js.at_ smoothedBuckets i) t)
  /\ hueY s' = hueY s
       + Rsum (map (fun i => sin (angle i) * Js.at_ smoothedBuckets i) t)
  /\ chromaWeighted s' = chromaWeighted s
       + Rsum (map (fun i => Js.at_ (chromaSum histogram) i
                             / IZR (countAt (counts histogram) i)
                             * Js.at_ smoothedBuckets i) t)
  /\ lightnessWeighted s' = lightnessWeighted s
       + Rsum (map (fun i => Js.at_ (lightnessSum histogram) i
                             / IZR (countAt (counts histogram) i)
                             * Js.at_ smoothedBuckets i) t).
Proof.
  cbv zeta. revert s. induction indices as [|i rest IH]; intros s.
  - simpl. lra.
  - cbn [fold_left]. destruct (IH (averageStep histogram smoothedBuckets
                                     minValue s i)) as (E1 & E2 & E3 & E4 & E5).
    rewrite E1, E2, E3, E4, E5. unfold taken, averageStep. cbn [filter].
    destruct (countAt (counts histogram) i =? 0)%Z; cbn [negb andb];
      [lra|].
    destruct (Js.ltb (Js.at_ smoothedBuckets i) minValue); cbn [negb];
      [lra|].
    cbn [totalWeight hueX hueY chromaWeighted lightnessWeighted map].
    unfold Rsum, angle. cbn [fold_right]. lra.
Qed.

Lemma resolvePeak_average histogram smoothedBuckets options p c :
  mode options = average ->
  resolvePeak histogram smoothedBuckets options p = Some c ->
  let t := taken histogram smoothedBuckets
             (Js.at_ smoothedBuckets (index p) * threshold options)
             (getPeakIndices p) in
  source c = p
  /\ 0 < Rsum (map (Js.at_ smoothedBuckets) t)
  /\ hue c
     = normalizeDegrees
         (Oklch.atan2
            (Rsum (map (fun i => sin (angle i) * Js.at_ smoothedBuckets i) t))
            (Rsum (map (fun i => cos (angle i) * Js.at_ smoothedBuckets i) t))
          * 180 / PI).
Proof.
  intros Hm. unfold resolvePeak. rewrite Hm.
  destruct (average_fold histogram smoothedBuckets
              (Js.at_ smoothedBuckets (index p) * threshold options)
              (getPeakIndices p) (mkAvg 0 0 0 0 0)) as (E1 & E2 & E3 & _).
  cbn [totalWeight hueX hueY] in E1, E2, E3.
  rewrite Rplus_0_l in E1, E2, E3.
  destruct (Js.leb _ 0) eqn:El; [discriminate|].
  apply leb_false in El. intros H. injection H as <-.
  cbn [source hue]. rewrite E2, E3. rewrite E1 in El.
  unfold normalizeDegrees. auto.
Qed.

Lemma hue_in_degrees (phi : R) (l w : Z) :
  - PI < phi <= PI -> (0 <= l < 360)%Z -> (0 <= w < 180)%Z ->
  (angle l <= phi <= angle (l + w)
   \/ angle l <= phi + 2 * PI <= angle (l + w)
   \/ angle l <= phi + 4 * PI <= angle (l + w)) ->
  let h := normalizeDegrees (phi * 180 / PI) in
  0 <= h < 360
  /\ (IZR l <= h <= IZR (l + w) \/ IZR l <= h + 360 <= IZR (l + w)).
Proof.
  intros Hphi Hl Hw H. cbv zeta. pose proof PI_RGT_0 as Hpi.
  set (u := phi * 180 / PI).
  assert (Eu : phi = u * (PI / 180)) by (subst u; field; lra).
  assert (Hc : 0 < PI / 180) by lra.
  set (k := PI / 180) in *.
  assert (EP : PI = 180 * k) by (subst k; lra).
  assert (Hu : -180 < u <= 180) by (rewrite EP, Eu in Hphi; split; nra).
  assert (Hlr : 0 <= IZR l < 360) by (split; [apply IZR_le|apply IZR_lt]; lia).
  assert (Hwr : 0 <= IZR w < 180) by (split; [apply IZR_le|apply IZR_lt]; lia).
  unfold angle in H. rewrite plus_IZR in *.
  replace (IZR l * PI / 180) with (IZR l * k) in H by (subst k; lra).
  replace ((IZR l + IZR w) * PI / 180) with ((IZR l + IZR w) * k) in H
    by (subst k; lra).
  replace (2 * PI) with (360 * k) in H by (subst k; lra).
  replace (4 * PI) with (720 * k) in H by (subst k; lra).
  rewrite Eu in H. unfold normalizeDegrees.
  destruct (Rlt_dec u 0) as [Hn|Hn].
  - split; [lra|]. destruct H as [H|[H|H]].
    + exfalso. nra.
    + left. split; nra.
    + exfalso. nra.
  - split; [lra|]. destruct H as [H|[H|H]].
    + left. split; nra.
    + right. split; nra.
    + exfalso. nra.
Qed.

Lemma cos_angle_turn (i : Z) : cos (angle (i + 360)) = cos (angle i).
Proof.
  unfold angle. rewrite plus_IZR.
  replace ((IZR i + 360) * PI / 180) with (IZR i * PI / 180 + 2 * PI) by lra.
  apply cos_shift.
Qed.

Lemma sin_angle_turn (i : Z) : sin (angle (i + 360)) = sin (angle i).
Proof.
  unfold angle. rewrite plus_IZR.
  replace ((IZR i + 360) * PI / 180) with (IZR i * PI / 180 + 2 * PI) by lra.
  apply sin_shift.
Qed.

Lemma unwrap_inside (p : Peak) (i : Z) :
  (0 <= left p < 360)%Z -> (0 <= right p < 360)%Z ->
  In i (getPeakIndices p) ->
  (left p <= unwrap p i <= left p + arcWidth p)%Z.
Proof.
  intros Hl Hr. unfold getPeakIndices, arcWidth, unwrap.
  destruct (Z.leb_spec (left p) (right p)).
  - rewrite in_fromTo. intros Hi. destruct (Z.ltb_spec i (left p)); lia.
  - rewrite in_app_iff, !in_fromTo. intros Hi.
    destruct (Z.ltb_spec i (left p)); lia.
Qed.

Lemma getPeakIndices_inside (p : Peak) (i : Z) :
  (0 <= left p < 360)%Z -> (0 <= right p < 360)%Z ->
  In i (getPeakIndices p) ->
  (0 <= i < 360)%Z /\ arcContains (left p) (right p) i.
Proof.
  intros Hl Hr. unfold getPeakIndices, arcContains.
  destruct (Z.leb_spec (left p) (right p)).
  - rewrite in_fromTo. lia.
  - rewrite in_app_iff, !in_fromTo. lia.
Qed.

Lemma circularDistance_in_arc (p : Peak) (h : R) :
  (0 <= left p < 360)%Z -> (0 <= right p < 360)%Z ->
  0 <= h < 360 -> hueInArc p h ->
  In (index p) (getPeakIndices p) ->
  circularDistance h (IZR (index p)) <= IZR (arcWidth p).
Proof.
  intros Hl Hr Hh Hin Hi.
  apply getPeakIndices_inside in Hi as [Hi Harc]; try assumption.
  unfold hueInArc in Hin. unfold arcContains in Harc. unfold arcWidth.
  assert (Il : 0 <= IZR (left p) < 360)
    by (split; [apply IZR_le|apply IZR_lt]; lia).
  assert (Ir : 0 <= IZR (right p) < 360)
    by (split; [apply IZR_le|apply IZR_lt]; lia).
  assert (Ii : 0 <= IZR (index p) < 360)
    by (split; [apply IZR_le|apply IZR_lt]; lia).
  unfold circularDistance.
  destruct (Z.leb_spec (left p) (right p)) as [Hle|Hlt].
  - assert (IZR (left p) <= IZR (index p) <= IZR (right p))
      by (split; apply IZR_le; lia).
    rewrite minus_IZR.
    eapply Rle_trans; [apply Rmin_l|].
    unfold Rabs. destruct (Rcase_abs _); lra.
  - rewrite plus_IZR, minus_IZR.
    assert (IZR (left p) <= IZR (index p) \/ IZR (index p) <= IZR (right p))
      by (destruct Harc; [left|right]; apply IZR_le; lia).
    assert (IZR (right p) < IZR (left p)) by (apply IZR_lt; lia).
    unfold Rmin, Rabs. destruct (Rle_dec _ _); destruct (Rcase_abs _);
      destruct Hin, H; lra.
Qed.

Lemma average_hue_in_arc histogram smoothedBuckets options p c :
  mode options = average ->
  resolvePeak histogram smoothedBuckets options p = Some c ->
  (0 <= left p < 360)%Z -> (0 <= right p < 360)%Z -> (arcWidth p < 180)%Z ->
  (forall idx, In idx (getPeakIndices p) -> 0 <= Js.at_ smoothedBuckets idx) ->
  0 <= hue c < 360 /\ hueInArc p (hue c).
Proof.
  intros Hm Hres Hl Hr Hw Hpos. pose proof PI_RGT_0 as Hpi.
  destruct (resolvePeak_average _ _ _ _ _ Hm Hres) as (_ & Hsum & ->).
  set (t := taken _ _ _ _) in *.
  assert (Ht : incl t (getPeakIndices p))
    by (intros i Hi; apply filter_In in Hi; apply Hi).
  assert (Hw0 : (0 <= arcWidth p)%Z).
  { unfold arcWidth. destruct (Z.leb_spec (left p) (right p)); lia. }
  set (pts := map (fun i => (angle (unwrap p i), Js.at_ smoothedBuckets i)) t).
  assert (EX : Rsum (map (fun i => cos (angle i) * Js.at_ smoothedBuckets i) t)
               = Rsum (map (fun q => cos (fst q) * snd q) pts)).
  { subst pts. rewrite map_map. apply Rsum_map_ext. intros i _. cbn [fst snd].
    unfold unwrap. destruct (i <? left p)%Z; [now rewrite cos_angle_turn|].
    reflexivity. }
  assert (EY : Rsum (map (fun i => sin (angle i) * Js.at_ smoothedBuckets i) t)
               = Rsum (map (fun q => sin (fst q) * snd q) pts)).
  { subst pts. rewrite map_map. apply Rsum_map_ext. intros i _. cbn [fst snd].
    unfold unwrap. destruct (i <? left p)%Z; [now rewrite sin_angle_turn|].
    reflexivity. }
  assert (EW : Rsum (map (Js.at_ smoothedBuckets) t) = Rsum (map snd pts)).
  { subst pts. now rewrite map_map. }
  rewrite EX, EY. rewrite EW in Hsum.
  assert (A : forall z1 z2 : Z, (z1 <= z2)%Z -> angle z1 <= angle z2).
  { intros z1 z2 Hz. apply IZR_le in Hz. unfold angle. nra. }
  fold (sumCos pts). fold (sumSin pts).
  assert (D : let phi := Oklch.atan2 (sumSin pts) (sumCos pts) in
              angle (left p) <= phi <= angle (left p + arcWidth p)
              \/ angle (left p) <= phi + 2 * PI <= angle (left p + arcWidth p)
              \/ angle (left p) <= phi + 4 * PI
                 <= angle (left p + arcWidth p)).
  { apply mean_direction.
    - assert (0 <= IZR (left p) < 360)
        by (split; [apply IZR_le|apply IZR_lt]; lia).
      unfold angle. split; nra.
    - split; [apply A; lia|]. unfold angle. rewrite plus_IZR.
      assert (IZR (arcWidth p) < 180) by (apply IZR_lt; lia). nra.
    - subst pts. apply Forall_forall. intros q Hq.
      apply in_map_iff in Hq as (i & <- & Hi). cbn [fst snd].
      pose proof (unwrap_inside p i Hl Hr (Ht i Hi)).
      split; [split; apply A; lia|]. apply Hpos, Ht, Hi.
    - exact Hsum. }
  cbv zeta in D.
  destruct (hue_in_degrees _ (left p) (arcWidth p)
              (atan2_bound _ _) Hl (conj Hw0 Hw) D) as (Hh & Hin).
  split; [exact Hh|].
  unfold hueInArc. unfold arcWidth in Hin.
  assert (Il : 0 <= IZR (left p) < 360)
    by (split; [apply IZR_le|apply IZR_lt]; lia).
  assert (Ir : 0 <= IZR (right p) < 360)
    by (split; [apply IZR_le|apply IZR_lt]; lia).
  destruct (Z.leb_spec (left p) (right p)).
  - replace (left p + (right p - left p))%Z with (right p) in Hin by lia.
    destruct Hin; lra.
  - replace (left p + (right p - left p + 360))%Z with (right p + 360)%Z
      in Hin by lia.
    rewrite plus_IZR in Hin. destruct Hin; [left|right]; lra.
Qed.


(** The ramp example. *)

Lemma rampBuckets_at (i : Z) :
  (5 <= i < 360)%Z -> Js.at_ rampBuckets i = 1.
Proof.
  intros H. unfold Js.at_, rampBuckets.
  rewrite app_nth2 by (simpl; lia). apply nth_repeat_lt. simpl. lia.
Qed.

Lemma rampPeak_weight : calculatePeakWeight rampBuckets rampPeak = 11.
Proof.
  unfold calculatePeakWeight.
  change (getPeakIndices rampPeak) with [0; 1; 2; 3; 4]%Z.
  cbn [fold_left].
  change (Js.at_ rampBuckets 0) with 1.
  change (Js.at_ rampBuckets 1) with 2.
  change (Js.at_ rampBuckets 2) with 3.
  change (Js.at_ rampBuckets 3) with 4.
  change (Js.at_ rampBuckets 4) with 1.
  lra.
Qed.

Lemma rampPeak_taken :
  taken rampHistogram rampBuckets (Js.at_ rampBuckets 3 * 0)
    (getPeakIndices rampPeak) = [0%Z].
Proof.
  change (getPeakIndices rampPeak) with [0; 1; 2; 3; 4]%Z.
  unfold taken. cbn [filter].
  change (countAt (counts rampHistogram) 0 =? 0)%Z with false.
  change (countAt (counts rampHistogram) 1 =? 0)%Z with true.
  change (countAt (counts rampHistogram) 2 =? 0)%Z with true.
  change (countAt (counts rampHistogram) 3 =? 0)%Z with true.
  change (countAt (counts rampHistogram) 4 =? 0)%Z with true.
  cbn [negb andb].
  change (Js.at_ rampBuckets 0) with 1.
  change (Js.at_ rampBuckets 3) with 4.
  rewrite (proj2 (ltb_false 1 (4 * 0))) by lra. reflexivity.
Qed.

Lemma rampPeak_resolved :
  resolvePeak rampHistogram rampBuckets (withDefaults average) rampPeak
  = Some (mkPeakColor 0 0.1 0.5 11 rampPeak).
Proof.
  unfold resolvePeak, withDefaults. cbn [mode threshold].
  rewrite rampPeak_weight.
  destruct (average_fold rampHistogram rampBuckets
              (Js.at_ rampBuckets (index rampPeak) * 0)
              (getPeakIndices rampPeak) (mkAvg 0 0 0 0 0))
    as (E1 & E2 & E3 & E4 & E5).
  change (index rampPeak) with 3%Z in *.
  rewrite rampPeak_taken in E1, E2, E3, E4, E5.
  cbn [map Rsum fold_right totalWeight hueX hueY chromaWeighted
       lightnessWeighted] in E1, E2, E3, E4, E5.
  change (Js.at_ rampBuckets 0) with 1 in *.
  change (countAt (counts rampHistogram) 0) with 1%Z in *.
  change (Js.at_ (chromaSum rampHistogram) 0) with 0.1 in *.
  change (Js.at_ (lightnessSum rampHistogram) 0) with 0.5 in *.
  unfold angle in E2, E3.
  replace (0 * PI / 180) with 0 in E2, E3 by lra.
  rewrite cos_0 in E2. rewrite sin_0 in E3.
  rewrite E1, E2, E3, E4, E5.
  rewrite (proj2 (leb_false (0 + (1 + 0)) 0)) by lra.
  replace (0 + (0 * 1 + 0)) with 0 by lra.
  rewrite atan2_0_pos by lra.
  replace (0 * 180 / PI) with 0 by (unfold Rdiv; lra).
  destruct (Rlt_dec 0 0); [lra|].
  replace ((0 + (0.5 / 1 * 1 + 0)) / (0 + (1 + 0))) with 0.5 by lra.
  replace ((0 + (0.1 / 1 * 1 + 0)) / (0 + (1 + 0))) with 0.1 by lra.
  rewrite (Rmin_right 1), (Rmin_right 0.4) by lra.
  rewrite !Rmax_right by lra. reflexivity.
Qed.

Lemma ramp_colors :
  extractPeakColors rampHistogram [rampPeak] rampBuckets (withDefaults average)
  = [mkPeakColor 0 0.1 0.5 11 rampPeak].
Proof.
  unfold extractPeakColors. cbn [flat_map]. rewrite rampPeak_resolved.
  cbn [app Js.sortDesc fold_right Js.insertDesc].
  unfold filterByDistance, withDefaults. cbn [minDistance maxColors].
  rewrite (proj2 (leb_true 0 0)) by lra. reflexivity.
Qed.

Lemma flat_map_single {A B : Type} (f : A -> list B) (l : list A) (i0 : A)
  (x : B) :
  NoDup l -> In i0 l -> f i0 = [x] ->
  (forall i, In i l -> i <> i0 -> f i = []) ->
  flat_map f l = [x].
Proof.
  induction l as [|a l IH]; intros Hnd Hin Hx Hf; [contradiction|].
  inversion Hnd as [|? ? Hna Hnd']; subst. cbn [flat_map].
  destruct Hin as [->|Hin].
  - rewrite Hx. cbn [app]. f_equal.
    rewrite flat_map_concat_map. apply concat_nil_Forall.
    apply Forall_forall. intros y Hy. apply in_map_iff in Hy as (i & <- & Hi).
    apply Hf; [now right|]. intros ->. contradiction.
  - assert (Ea : f a = []).
    { apply Hf; [now left|]. intros ->. contradiction. }
    rewrite Ea. cbn [app]. apply IH; auto. intros i Hi. apply Hf. now right.
Qed.

Lemma leftLoop_step buckets len idx0 fuel i l :
  leftLoop buckets len idx0 (S fuel) i l
  = if (2 * i <? len)%Z then
      if Js.leb (Js.at_ buckets (Js.rem (Js.rem (idx0 - i + len) len + 1) len))
                (Js.at_ buckets (Js.rem (idx0 - i + len) len))
      then Js.rem (Js.rem (idx0 - i + len) len + 1) len
      else leftLoop buckets len idx0 fuel (i + 1) (Js.rem (idx0 - i + len) len)
    else l.
Proof. reflexivity. Qed.

Lemma rightLoop_step buckets len idx0 fuel i r :
  rightLoop buckets len idx0 (S fuel) i r
  = if (2 * i <? len)%Z then
      if Js.leb (Js.at_ buckets (Js.rem (Js.rem (idx0 + i) len - 1 + len) len))
                (Js.at_ buckets (Js.rem (idx0 + i) len))
      then Js.rem (Js.rem (idx0 + i) len - 1 + len) len
      else rightLoop buckets len idx0 fuel (i + 1) (Js.rem (idx0 + i) len)
    else r.
Proof. reflexivity. Qed.

Lemma maxOf_bound (a : list R) (m : R) :
  a <> [] -> Forall (fun v => v <= m) a -> Js.maxOf a <= m.
Proof.
  destruct a as [|x t]; [congruence|]. intros _ H. inversion H; subst.
  simpl. clear H. revert x H2. induction t as [|y t IH]; intros x Hx; simpl.
  - exact Hx.
  - inversion H3; subst. apply IH; [assumption|]. now apply Rmax_lub.
Qed.

Lemma rampBuckets_max : Js.maxOf rampBuckets <= 4.
Proof.
  apply maxOf_bound; [discriminate|]. unfold rampBuckets.
  apply Forall_app. split.
  - repeat constructor; lra.
  - apply Forall_forall. intros v Hv. apply repeat_spec in Hv. lra.
Qed.

Lemma rampBuckets_flat (i : Z) :
  (5 <= i < 360)%Z -> isCandidate rampBuckets (Js.maxOf rampBuckets * 0.1) i = false.
Proof.
  intros Hi. unfold isCandidate.
  change (Z.of_nat (length rampBuckets)) with 360%Z.
  assert (E : Js.rem (i - 1 + 360) 360 = (i - 1)%Z).
  { unfold Js.rem. rewrite Z.rem_mod_nonneg by lia.
    replace (i - 1 + 360)%Z with (i - 1 + 1 * 360)%Z by lia.
    rewrite Z.mod_add by lia. apply Z.mod_small. lia. }
  rewrite E, (rampBuckets_at i Hi).
  assert (P : Js.at_ rampBuckets (i - 1) = 1).
  { destruct (Z.eq_dec i 5) as [->|]; [reflexivity|].
    apply rampBuckets_at. lia. }
  rewrite P, (proj2 (ltb_false 1 1)) by lra. reflexivity.
Qed.

Lemma rampBuckets_peaks : detectPeaks rampBuckets 0.1 = [rampPeak].
Proof.
  pose proof rampBuckets_max as Hmax.
  unfold detectPeaks.
  assert (C : candidates rampBuckets (Js.maxOf rampBuckets * 0.1)
              = [mkPeak 3 4 3 3]).
  { unfold candidates. apply (flat_map_single _ _ 3%Z).
    - apply range_NoDup.
    - apply in_range. change (Z.of_nat (length rampBuckets)) with 360%Z. lia.
    - unfold isCandidate.
      change (Z.of_nat (length rampBuckets)) with 360%Z.
      change (Js.at_ rampBuckets (Js.rem (3 - 1 + 360) 360)) with 3.
      change (Js.at_ rampBuckets (Js.rem (3 + 1) 360)) with 1.
      change (Js.at_ rampBuckets 3) with 4.
      rewrite (proj2 (ltb_true 3 4)), (proj2 (ltb_true 1 4)) by lra.
      rewrite (proj2 (leb_true _ 4)) by lra. reflexivity.
    - intros i Hi Hne. apply in_range in Hi.
      change (Z.of_nat (length rampBuckets)) with 360%Z in Hi.
      destruct (Z.le_gt_cases 5 i) as [H5|H5].
      + rewrite rampBuckets_flat by lia. reflexivity.
      + assert (Hc : i = 0%Z \/ i = 1%Z \/ i = 2%Z \/ i = 4%Z) by lia.
        unfold isCandidate.
        change (Z.of_nat (length rampBuckets)) with 360%Z.
        destruct Hc as [->|[->|[->| ->]]].
        * change (Js.at_ rampBuckets (Js.rem (0 - 1 + 360) 360)) with 1.
          change (Js.at_ rampBuckets 0) with 1.
          rewrite (proj2 (ltb_false 1 1)) by lra. reflexivity.
        * change (Js.at_ rampBuckets (Js.rem (1 + 1) 360)) with 3.
          change (Js.at_ rampBuckets 1) with 2.
          rewrite (proj2 (ltb_false 3 2)) by lra.
          now rewrite andb_false_r.
        * change (Js.at_ rampBuckets (Js.rem (2 + 1) 360)) with 4.
          change (Js.at_ rampBuckets 2) with 3.
          rewrite (proj2 (ltb_false 4 3)) by lra.
          now rewrite andb_false_r.
        * change (Js.at_ rampBuckets (Js.rem (4 - 1 + 360) 360)) with 4.
          change (Js.at_ rampBuckets 4) with 1.
          rewrite (proj2 (ltb_false 4 1)) by lra. reflexivity. }
  rewrite C. cbn [map Js.sortDesc fold_right Js.insertDesc].
  unfold findBoundaries. cbn [index value].
  change (Z.of_nat (length rampBuckets)) with 360%Z.
  change (length rampBuckets) with 360%nat.
  f_equal. unfold rampPeak. f_equal.
  - rewrite leftLoop_step. change (2 * 1 <? 360)%Z with true. cbv iota.
    change (Js.rem (3 - 1 + 360) 360) with 2%Z.
    change (Js.rem (2 + 1) 360) with 3%Z.
    change (Js.at_ rampBuckets 3) with 4. change (Js.at_ rampBuckets 2) with 3.
    rewrite (proj2 (leb_false 4 3)) by lra.
    rewrite leftLoop_step. change (2 * (1 + 1) <? 360)%Z with true. cbv iota.
    change (Js.rem (3 - (1 + 1) + 360) 360) with 1%Z.
    change (Js.rem (1 + 1) 360) with 2%Z.
    change (Js.at_ rampBuckets 2) with 3. change (Js.at_ rampBuckets 1) with 2.
    rewrite (proj2 (leb_false 3 2)) by lra.
    rewrite leftLoop_step. change (2 * (1 + 1 + 1) <? 360)%Z with true.
    cbv iota.
    change (Js.rem (3 - (1 + 1 + 1) + 360) 360) with 0%Z.
    change (Js.rem (0 + 1) 360) with 1%Z.
    change (Js.at_ rampBuckets 1) with 2. change (Js.at_ rampBuckets 0) with 1.
    rewrite (proj2 (leb_false 2 1)) by lra.
    rewrite leftLoop_step. change (2 * (1 + 1 + 1 + 1) <? 360)%Z with true.
    cbv iota.
    change (Js.rem (3 - (1 + 1 + 1 + 1) + 360) 360) with 359%Z.
    change (Js.rem (359 + 1) 360) with 0%Z.
    change (Js.at_ rampBuckets 0) with 1.
    change (Js.at_ rampBuckets 359) with 1.
    rewrite (proj2 (leb_true 1 1)) by lra. reflexivity.
  - rewrite rightLoop_step. change (2 * 1 <? 360)%Z with true. cbv iota.
    change (Js.rem (3 + 1) 360) with 4%Z.
    change (Js.rem (4 - 1 + 360) 360) with 3%Z.
    change (Js.at_ rampBuckets 3) with 4. change (Js.at_ rampBuckets 4) with 1.
    rewrite (proj2 (leb_false 4 1)) by lra.
    rewrite rightLoop_step. change (2 * (1 + 1) <? 360)%Z with true. cbv iota.
    change (Js.rem (3 + (1 + 1)) 360) with 5%Z.
    change (Js.rem (5 - 1 + 360) 360) with 4%Z.
    change (Js.at_ rampBuckets 4) with 1. change (Js.at_ rampBuckets 5) with 1.
    rewrite (proj2 (leb_true 1 1)) by lra. reflexivity.
Qed.



(** * Further properties of the code *)

(** ** The histogram of a well-formed buffer *)

Lemma Rsum_updNth (w : R) (n : nat) (a : list R) :
  (n < length a)%nat -> Rsum (Js.updNth (fun v => v + w) n a) = Rsum a + w.
Proof.
  revert n. induction a as [|x a IH]; intros [|n] H; simpl in *; try lia.
  - lra.
  - rewrite IH by lia. lra.
Qed.

Lemma Rsum_upd (w : R) (b : Z) (a : list R) :
  (0 <= b < Z.of_nat (length a))%Z ->
  Rsum (Js.upd (fun v => v + w) b a) = Rsum a + w.
Proof.
  intros H. unfold Js.upd. destruct (Z.ltb_spec b 0); [lia|].
  apply Rsum_updNth. lia.
Qed.

Lemma hueOf_bucket (img : ImageData) (i : Z) :
  (0 <= Js.rem (Zfloor (hueOf img i)) 360 < 360)%Z.
Proof. unfold hueOf, oklchOf. apply rgbToOklch_bucket. Qed.

(** The loop keeps [total] equal to the sum of the buckets. *)
Lemma steps_total (inc : Z -> bool) (w : Z -> R) (img : ImageData)
  (px : list Z) (s : Acc) :
  sized s -> accTotal s = Some (Rsum (accBuckets s)) ->
  let s' := fold_left (step inc (lightnessOf img) (chromaOf img) (hueOf img) w)
              px s in
  sized s' /\ accTotal s' = Some (Rsum (accBuckets s')).
Proof.
  intros Hs Ht. cbv zeta.
  apply (fold_left_invariant
           (fun s => sized s /\ accTotal s = Some (Rsum (accBuckets s))));
    [|now split].
  clear. intros s i [Hs Ht]. unfold step. destruct (inc i); [|now split].
  split; [now apply accumulate_sized|].
  unfold accumulate. cbn [accTotal accBuckets]. rewrite Ht. cbn [Js.add].
  f_equal. symmetry. apply Rsum_upd.
  destruct Hs as [-> _]. apply hueOf_bucket.
Qed.

Lemma Rsum_zeros (n : nat) : Rsum (repeat 0 n) = 0.
Proof.
  unfold Rsum. induction n as [|n IH]; simpl; [reflexivity|rewrite IH; lra].
Qed.

Lemma init_total : accTotal init = Some (Rsum (accBuckets init)).
Proof. unfold init. cbn [accTotal accBuckets]. now rewrite Rsum_zeros. Qed.

(** What the loop leaves in bucket [k] of the four arrays. *)
Lemma steps_tally (inc : Z -> bool) (w : Z -> R) (img : ImageData) (k : Z) :
  (0 <= k < 360)%Z ->
  let s := fold_left (step inc (lightnessOf img) (chromaOf img) (hueOf img) w)
             (Js.range (width img * height img)) init in
  countAt (accCounts s) k = Z.of_nat (length (pixelsOf inc img k))
  /\ Js.at_ (accChromaSum s) k = Rsum (map (chromaOf img) (pixelsOf inc img k))
  /\ Js.at_ (accLightnessSum s) k
     = Rsum (map (lightnessOf img) (pixelsOf inc img k))
  /\ Js.at_ (accBuckets s) k = Rsum (map w (pixelsOf inc img k)).
Proof.
  intros Hk. cbv zeta.
  destruct (fold_step inc (lightnessOf img) (chromaOf img) (hueOf img) w
              (Js.range (width img * height img)) init k init_sized Hk)
    as (_ & Hc & Hcs & Hls & Hb).
  rewrite Hc, Hcs, Hls, Hb. unfold init, hits, pixelsOf, bucketOf.
  cbn [accCounts accChromaSum accLightnessSum accBuckets].
  rewrite countAt_zeros, !at_zeros. repeat split; try lia; lra.
Qed.

Lemma histogram_steps (img : ImageData)
  (options : HueHistogram.ExtractHueHistogramOptions) :
  wellFormed img ->
  HueHistogram.extractHueHistogram img options
  = Js.Normal
      (finish
         (fold_left
            (step (included (HueHistogram.lightnessMargin options) img)
               (lightnessOf img) (chromaOf img) (hueOf img)
               (weightOf options img))
            (Js.range (width img * height img)) init)).
Proof.
  intros Hwf. unfold HueHistogram.extractHueHistogram. do 2 f_equal.
  apply fold_left_ext_in. intros s i Hi. apply in_range in Hi.
  now apply pixel_step.
Qed.

Lemma histogram_gated_steps (img : ImageData)
  (options : HueHistogramGated.ExtractHueHistogramOptions) :
  wellFormed img ->
  HueHistogramGated.extractHueHistogram img options
  = Js.Normal
      (finish
         (fold_left
            (step (fun i =>
                     included (HueHistogramGated.lightnessMargin options) img i
                     && negb (gated (HueHistogramGated.minChroma options) img i))
               (lightnessOf img) (chromaOf img) (hueOf img)
               (weightOfGated options img))
            (Js.range (width img * height img)) init)).
Proof.
  intros Hwf. unfold HueHistogramGated.extractHueHistogram. do 2 f_equal.
  apply fold_left_ext_in. intros s i Hi. apply in_range in Hi.
  now apply pixel_gated_step.
Qed.

(** X1.  On a well-formed buffer, in both variants, bucket [k] of
    [buckets] holds the sum of the weights of the pixels tallied in bucket
    [k], and [total] is the sum of the 360 buckets (in the smoothstep
    variant for a threshold other than 0, where the ramp does not divide
    by zero). *)
Theorem histogram_buckets_and_total (img : ImageData) :
  wellFormed img ->
  (forall options,
     HueHistogram.satThreshold options <> 0 ->
     exists h,
       HueHistogram.extractHueHistogram img options = Js.Normal h
       /\ total h = Some (Rsum (buckets h))
       /\ forall k, (0 <= k < 360)%Z ->
            Js.at_ (buckets h) k
            = Rsum (map (weightOf options img)
                      (pixelsOf (included (HueHistogram.lightnessMargin options)
                                   img) img k)))
  /\ (forall options,
        exists h,
          HueHistogramGated.extractHueHistogram img options = Js.Normal h
          /\ total h = Some (Rsum (buckets h))
          /\ forall k, (0 <= k < 360)%Z ->
               Js.at_ (buckets h) k
               = Rsum (map (weightOfGated options img)
                         (pixelsOf
                            (fun i =>
                               included
                                 (HueHistogramGated.lightnessMargin options)
                                 img i
                               && negb (gated
                                          (HueHistogramGated.minChroma options)
                                          img i))
                            img k))).
Proof.
  intros Hwf. split; [intros options _|intros options]; eexists.
  - split; [now apply histogram_steps|]. cbn [finish total buckets]. split.
    + apply steps_total; [apply init_sized|apply init_total].
    + intros k Hk. now apply steps_tally.
  - split; [now apply histogram_gated_steps|]. cbn [finish total buckets].
    split.
    + apply steps_total; [apply init_sized|apply init_total].
    + intros k Hk. now apply steps_tally.
Qed.

(** X1 at the opaque black pixel. *)
Lemma histogram_buckets_and_total_witness :
  wellFormed blackPixel
  /\ HueHistogram.satThreshold HueHistogram.defaults <> 0
  /\ exists h,
       HueHistogram.extractHueHistogram blackPixel HueHistogram.defaults
       = Js.Normal h
       /\ total h = Some (Rsum (buckets h)).
Proof.
  assert (W : wellFormed blackPixel) by (unfold wellFormed; cbn; lia).
  assert (N : HueHistogram.satThreshold HueHistogram.defaults <> 0)
    by (cbn; lra).
  split; [exact W|]. split; [exact N|].
  destruct (proj1 (histogram_buckets_and_total blackPixel W)
              HueHistogram.defaults N) as (h & E & T & _).
  exists h. split; [exact E|exact T].
Defined.

Lemma Rsum_map_lower {A : Type} (f : A -> R) (lo : R) (l : list A) :
  (forall x, In x l -> lo <= f x) -> INR (length l) * lo <= Rsum (map f l).
Proof.
  induction l as [|x l IH]; intros H.
  - simpl. lra.
  - cbn [length map]. rewrite S_INR. unfold Rsum in *. cbn [fold_right].
    assert (lo <= f x) by (apply H; now left).
    assert (INR (length l) * lo <= fold_right Rplus 0 (map f l))
      by (apply IH; intros y Hy; apply H; now right).
    lra.
Qed.

Lemma Rsum_map_upper {A : Type} (f : A -> R) (hi : R) (l : list A) :
  (forall x, In x l -> f x <= hi) -> Rsum (map f l) <= INR (length l) * hi.
Proof.
  induction l as [|x l IH]; intros H.
  - simpl. lra.
  - cbn [length map]. rewrite S_INR. unfold Rsum in *. cbn [fold_right].
    assert (f x <= hi) by (apply H; now left).
    assert (fold_right Rplus 0 (map f l) <= INR (length l) * hi)
      by (apply IH; intros y Hy; apply H; now right).
    lra.
Qed.

Lemma Rsum_map_const {A : Type} (f : A -> R) (c : R) (l : list A) :
  (forall x, In x l -> f x = c) -> Rsum (map f l) = INR (length l) * c.
Proof.
  intros H. apply Rle_antisym.
  - apply Rsum_map_upper. intros x Hx. rewrite (H x Hx). lra.
  - apply Rsum_map_lower. intros x Hx. rewrite (H x Hx). lra.
Qed.

Lemma IZR_length {A : Type} (l : list A) : IZR (Z.of_nat (length l)) = INR (length l).
Proof. symmetry. apply INR_IZR_INZ. Qed.

Lemma rgbToOklch_chroma (r g b : Z) : 0 <= snd (fst (Oklch.rgbToOklch r g b)).
Proof. unfold Oklch.rgbToOklch. cbv zeta. cbn [fst snd]. apply sqrt_pos. Qed.

Lemma chromaOf_nonneg (img : ImageData) (i : Z) : 0 <= chromaOf img i.
Proof. unfold chromaOf, oklchOf. apply rgbToOklch_chroma. Qed.

Lemma in_pixelsOf (inc : Z -> bool) (img : ImageData) (k i : Z) :
  In i (pixelsOf inc img k) -> inc i = true.
Proof.
  unfold pixelsOf. intros H. apply filter_In in H as [_ H].
  now apply andb_true_iff in H as [H _].
Qed.

Lemma included_window (margin : R) (img : ImageData) (i : Z) :
  included margin img i = true ->
  margin <= lightnessOf img i <= 1 - margin.
Proof.
  unfold included. intros H. apply andb_true_iff in H as [_ H].
  apply negb_true_iff, orb_false_iff in H as [H1 H2].
  apply ltb_false in H1, H2. lra.
Qed.

(** The cubic ramp of [smoothstep]. *)
Lemma smoothstep_unit (edge0 edge1 x : R) :
  0 <= HueHistogram.smoothstep edge0 edge1 x <= 1.
Proof.
  unfold HueHistogram.smoothstep. cbv zeta.
  set (t := Rmax 0 (Rmin 1 _)).
  assert (Ht : 0 <= t <= 1).
  { subst t. split; [apply Rmax_l|]. apply Rmax_lub; [lra|apply Rmin_l]. }
  split; [nra|].
  assert (0 <= (1 - t) * (1 - t) * (1 + 2 * t)) by (apply Rmult_le_pos; nra).
  nra.
Qed.

(** X2.  On a well-formed buffer, a bucket that counts no pixel holds 0 in
    [buckets], [chromaSum] and [lightnessSum], in both variants. *)
Theorem histogram_empty_bucket (img : ImageData) (k : Z) :
  wellFormed img -> (0 <= k < 360)%Z ->
  (forall options,
     exists h,
       HueHistogram.extractHueHistogram img options = Js.Normal h
       /\ (countAt (counts h) k = 0%Z ->
           Js.at_ (buckets h) k = 0 /\ Js.at_ (chromaSum h) k = 0
           /\ Js.at_ (lightnessSum h) k = 0))
  /\ (forall options,
        exists h,
          HueHistogramGated.extractHueHistogram img options = Js.Normal h
          /\ (countAt (counts h) k = 0%Z ->
              Js.at_ (buckets h) k = 0 /\ Js.at_ (chromaSum h) k = 0
              /\ Js.at_ (lightnessSum h) k = 0)).
Proof.
  intros Hwf Hk. split; intros options; eexists.
  - split; [now apply histogram_steps|].
    cbn [finish counts buckets chromaSum lightnessSum].
    match goal with |- context [fold_left (step ?inc _ _ _ ?w) _ _] =>
      destruct (steps_tally inc w img k Hk) as (Hc & Hcs & Hls & Hb) end.
    rewrite Hc, Hcs, Hls, Hb. intros H0.
    destruct (pixelsOf _ img k); [|simpl in H0; lia]. simpl. auto.
  - split; [now apply histogram_gated_steps|].
    cbn [finish counts buckets chromaSum lightnessSum].
    match goal with |- context [fold_left (step ?inc _ _ _ ?w) _ _] =>
      destruct (steps_tally inc w img k Hk) as (Hc & Hcs & Hls & Hb) end.
    rewrite Hc, Hcs, Hls, Hb. intros H0.
    destruct (pixelsOf _ img k); [|simpl in H0; lia]. simpl. auto.
Qed.

(** X2 at the opaque black pixel and bucket 7. *)
Lemma histogram_empty_bucket_witness :
  wellFormed blackPixel /\ (0 <= 7 < 360)%Z
  /\ exists h,
       HueHistogram.extractHueHistogram blackPixel HueHistogram.defaults
       = Js.Normal h
       /\ (countAt (counts h) 7 = 0%Z ->
           Js.at_ (buckets h) 7 = 0 /\ Js.at_ (chromaSum h) 7 = 0
           /\ Js.at_ (lightnessSum h) 7 = 0).
Proof.
  assert (W : wellFormed blackPixel) by (unfold wellFormed; cbn; lia).
  assert (K : (0 <= 7 < 360)%Z) by lia.
  split; [exact W|]. split; [exact K|].
  exact (proj1 (histogram_empty_bucket blackPixel 7 W K) HueHistogram.defaults).
Defined.

Lemma steps_skipped (inc : Z -> bool) (l c h w : Z -> R) (px : list Z) (s : Acc) :
  (forall i, In i px -> inc i = false) ->
  fold_left (step inc l c h w) px s = s.
Proof.
  revert s. induction px as [|i px IH]; intros s H; [reflexivity|].
  cbn [fold_left]. unfold step at 2. rewrite (H i) by (now left).
  apply IH. intros j Hj. apply H. now right.
Qed.

Lemma finish_init : finish init = emptyHistogram (Some 0).
Proof.
  unfold finish, init, emptyHistogram.
  cbn [accBuckets accChromaSum accLightnessSum accCounts accTotal].
  now rewrite (maxOf_zeros 360).
Qed.

(** X3.  An image all of whose pixels have an alpha below 200 gives the
    empty histogram: 360 zeros in each array, [max = 0] and [total = 0]. *)
Theorem histogram_transparent_image (img : ImageData) :
  wellFormed img ->
  (forall i, (0 <= i < width img * height img)%Z ->
             (channel img (i * 4 + 3) < 200)%Z) ->
  (forall options,
     HueHistogram.extractHueHistogram img options
     = Js.Normal (emptyHistogram (Some 0)))
  /\ (forall options,
        HueHistogramGated.extractHueHistogram img options
        = Js.Normal (emptyHistogram (Some 0))).
Proof.
  intros Hwf Ha. split; intros options.
  - rewrite histogram_steps by assumption. rewrite steps_skipped.
    + now rewrite finish_init.
    + intros i Hi. apply in_range in Hi. unfold included.
      rewrite (proj2 (Z.ltb_lt _ _) (Ha i Hi)). reflexivity.
  - rewrite histogram_gated_steps by assumption. rewrite steps_skipped.
    + now rewrite finish_init.
    + intros i Hi. apply in_range in Hi. unfold included.
      rewrite (proj2 (Z.ltb_lt _ _) (Ha i Hi)). reflexivity.
Qed.

(** X3 at one red pixel of alpha 0. *)
Lemma histogram_transparent_image_witness :
  let img := mkImageData [255; 0; 0; 0]%Z 1 1 in
  wellFormed img
  /\ HueHistogram.extractHueHistogram img HueHistogram.defaults
     = Js.Normal (emptyHistogram (Some 0)).
Proof.
  cbv zeta.
  assert (W : wellFormed (mkImageData [255; 0; 0; 0]%Z 1 1))
    by (unfold wellFormed; cbn; lia).
  assert (A : forall i,
             (0 <= i < width (mkImageData [255; 0; 0; 0]%Z 1 1)
                       * height (mkImageData [255; 0; 0; 0]%Z 1 1))%Z ->
             (channel (mkImageData [255; 0; 0; 0]%Z 1 1) (i * 4 + 3) < 200)%Z).
  { cbn [width height]. intros i Hi. assert (i = 0%Z) by lia. subst i.
    vm_compute. reflexivity. }
  split; [exact W|].
  exact (proj1 (histogram_transparent_image _ W A) HueHistogram.defaults).
Defined.

(** X4.  On a well-formed buffer, in [count] mode a bucket equals its pixel
    count in both variants; in the [chroma] mode of the gated variant the
    weight is the chroma itself and [buckets] equals [chromaSum]. *)
Theorem histogram_weight_modes (img : ImageData) (k : Z) :
  wellFormed img -> (0 <= k < 360)%Z ->
  (forall options,
     HueHistogram.weightMode options = HueHistogram.count ->
     exists h,
       HueHistogram.extractHueHistogram img options = Js.Normal h
       /\ Js.at_ (buckets h) k = IZR (countAt (counts h) k))
  /\ (forall options,
        exists h,
          HueHistogramGated.extractHueHistogram img options = Js.Normal h
          /\ (HueHistogramGated.weightMode options = HueHistogramGated.count ->
              Js.at_ (buckets h) k = IZR (countAt (counts h) k))
          /\ (HueHistogramGated.weightMode options = HueHistogramGated.chroma ->
              Js.at_ (buckets h) k = Js.at_ (chromaSum h) k)).
Proof.
  intros Hwf Hk. split.
  - intros options Hm. eexists. split; [now apply histogram_steps|].
    cbn [finish counts buckets].
    match goal with |- context [fold_left (step ?inc _ _ _ ?w) _ _] =>
      destruct (steps_tally inc w img k Hk) as (Hc & _ & _ & Hb) end.
    rewrite Hc, Hb, IZR_length.
    rewrite (Rsum_map_const _ 1); [lra|].
    intros i _. unfold weightOf. now rewrite Hm.
  - intros options. eexists. split; [now apply histogram_gated_steps|].
    cbn [finish counts buckets chromaSum].
    match goal with |- context [fold_left (step ?inc _ _ _ ?w) _ _] =>
      destruct (steps_tally inc w img k Hk) as (Hc & Hcs & _ & Hb) end.
    rewrite Hc, Hcs, Hb, IZR_length. split; intros Hm.
    + rewrite (Rsum_map_const _ 1); [lra|].
      intros i _. unfold weightOfGated. now rewrite Hm.
    + apply Rsum_map_ext. intros i _. unfold weightOfGated. now rewrite Hm.
Qed.

(** X4 at the opaque black pixel and bucket 0, in [count] mode. *)
Lemma histogram_weight_modes_witness :
  let options := HueHistogram.mkOptions 0.02 HueHistogram.count 0 in
  wellFormed blackPixel /\ (0 <= 0 < 360)%Z
  /\ exists h,
       HueHistogram.extractHueHistogram blackPixel options = Js.Normal h
       /\ Js.at_ (buckets h) 0 = IZR (countAt (counts h) 0).
Proof.
  cbv zeta.
  assert (W : wellFormed blackPixel) by (unfold wellFormed; cbn; lia).
  assert (K : (0 <= 0 < 360)%Z) by lia.
  split; [exact W|]. split; [exact K|].
  exact (proj1 (histogram_weight_modes blackPixel 0 W K)
           (HueHistogram.mkOptions 0.02 HueHistogram.count 0) eq_refl).
Defined.

(** X5.  On a well-formed buffer the sums of a bucket stay within what its
    count allows: the lightness sum is between [count * margin] and
    [count * (1 - margin)], the chroma sum is not negative, and in the gated
    variant the chroma sum is at least [count * minChroma]. *)
Theorem histogram_sums_in_window (img : ImageData) (k : Z) :
  wellFormed img -> (0 <= k < 360)%Z ->
  (forall options,
     exists h,
       HueHistogram.extractHueHistogram img options = Js.Normal h
       /\ IZR (countAt (counts h) k) * HueHistogram.lightnessMargin options
          <= Js.at_ (lightnessSum h) k
          <= IZR (countAt (counts h) k)
             * (1 - HueHistogram.lightnessMargin options)
       /\ 0 <= Js.at_ (chromaSum h) k)
  /\ (forall options,
        exists h,
          HueHistogramGated.extractHueHistogram img options = Js.Normal h
          /\ IZR (countAt (counts h) k)
             * HueHistogramGated.lightnessMargin options
             <= Js.at_ (lightnessSum h) k
             <= IZR (countAt (counts h) k)
                * (1 - HueHistogramGated.lightnessMargin options)
          /\ 0 <= Js.at_ (chromaSum h) k
          /\ IZR (countAt (counts h) k) * HueHistogramGated.minChroma options
             <= Js.at_ (chromaSum h) k).
Proof.
  intros Hwf Hk. split; intros options; eexists.
  - split; [now apply histogram_steps|].
    cbn [finish counts chromaSum lightnessSum].
    match goal with |- context [fold_left (step ?inc _ _ _ ?w) _ _] =>
      destruct (steps_tally inc w img k Hk) as (Hc & Hcs & Hls & _) end.
    rewrite Hc, Hcs, Hls, IZR_length. split; [split|].
    + apply Rsum_map_lower. intros i Hi. apply in_pixelsOf in Hi.
      now apply included_window in Hi.
    + apply Rsum_map_upper. intros i Hi. apply in_pixelsOf in Hi.
      now apply included_window in Hi.
    + rewrite <- (Rmult_0_r (INR (length
        (pixelsOf (included (HueHistogram.lightnessMargin options) img) img k)))).
      apply Rsum_map_lower. intros i _. apply chromaOf_nonneg.
  - split; [now apply histogram_gated_steps|].
    cbn [finish counts chromaSum lightnessSum].
    match goal with |- context [fold_left (step ?inc _ _ _ ?w) _ _] =>
      destruct (steps_tally inc w img k Hk) as (Hc & Hcs & Hls & _);
      set (px := pixelsOf inc img k) in * end.
    rewrite Hc, Hcs, Hls, IZR_length.
    assert (Hin : forall i, In i px ->
              included (HueHistogramGated.lightnessMargin options) img i = true
              /\ gated (HueHistogramGated.minChroma options) img i = false).
    { intros i Hi. apply in_pixelsOf in Hi.
      apply andb_true_iff in Hi as [H1 H2]. split; [exact H1|].
      now apply negb_true_iff in H2. }
    split; [split|split].
    + apply Rsum_map_lower. intros i Hi. apply Hin in Hi as [Hi _].
      now apply included_window in Hi.
    + apply Rsum_map_upper. intros i Hi. apply Hin in Hi as [Hi _].
      now apply included_window in Hi.
    + rewrite <- (Rmult_0_r (INR (length px))).
      apply Rsum_map_lower. intros i _. apply chromaOf_nonneg.
    + apply Rsum_map_lower. intros i Hi. apply Hin in Hi as [_ Hi].
      unfold gated in Hi. now apply ltb_false in Hi.
Qed.

(** X5 at the opaque black pixel and bucket 0. *)
Lemma histogram_sums_in_window_witness :
  wellFormed blackPixel /\ (0 <= 0 < 360)%Z
  /\ exists h,
       HueHistogram.extractHueHistogram blackPixel HueHistogram.defaults
       = Js.Normal h
       /\ 0 <= Js.at_ (chromaSum h) 0.
Proof.
  assert (W : wellFormed blackPixel) by (unfold wellFormed; cbn; lia).
  assert (K : (0 <= 0 < 360)%Z) by lia.
  split; [exact W|]. split; [exact K|].
  destruct (proj1 (histogram_sums_in_window blackPixel 0 W K)
              HueHistogram.defaults) as (h & E & _ & C).
  exists h. split; [exact E|exact C].
Defined.

Lemma at_le_maxOf (a : list R) (k : Z) :
  (0 <= k < Z.of_nat (length a))%Z -> Js.at_ a k <= Js.maxOf a.
Proof.
  intros H. pose proof (maxOf_upper a) as Hu. rewrite Forall_forall in Hu.
  apply Hu. unfold Js.at_. apply nth_In. lia.
Qed.

(** X6.  On a well-formed buffer the weights are not negative: every bucket
    is between 0 and [max].  In the smoothstep variant, with a threshold
    other than 0, a weight is at most 1 and a bucket is at most its pixel
    count. *)
Theorem histogram_bucket_bounds (img : ImageData) (k : Z) :
  wellFormed img -> (0 <= k < 360)%Z ->
  (forall options,
     HueHistogram.satThreshold options <> 0 ->
     exists h,
       HueHistogram.extractHueHistogram img options = Js.Normal h
       /\ 0 <= Js.at_ (buckets h) k <= IZR (countAt (counts h) k)
       /\ Js.at_ (buckets h) k <= max h)
  /\ (forall options,
        exists h,
          HueHistogramGated.extractHueHistogram img options = Js.Normal h
          /\ 0 <= Js.at_ (buckets h) k <= max h).
Proof.
  intros Hwf Hk. split.
  - intros options _. eexists. split; [now apply histogram_steps|].
    cbn [finish counts buckets max].
    match goal with |- context [fold_left (step ?inc _ _ _ ?w) _ _] =>
      destruct (steps_tally inc w img k Hk) as (Hc & _ & _ & Hb);
      destruct (steps_total inc w img (Js.range (width img * height img)) init
                  init_sized init_total) as ((Hlen & _) & _);
      set (px := pixelsOf inc img k) in * end.
    cbv zeta in Hlen. split; [|apply at_le_maxOf; rewrite Hlen; lia].
    rewrite Hc, Hb, IZR_length.
    assert (Hw : forall i, 0 <= weightOf options img i <= 1).
    { intros i. unfold weightOf. destruct (HueHistogram.weightMode options);
        [lra|apply smoothstep_unit]. }
    split.
    + rewrite <- (Rmult_0_r (INR (length px))).
      apply Rsum_map_lower. intros i _. apply Hw.
    + rewrite <- (Rmult_1_r (INR (length px))).
      apply Rsum_map_upper. intros i _. apply Hw.
  - intros options. eexists. split; [now apply histogram_gated_steps|].
    cbn [finish counts buckets max].
    match goal with |- context [fold_left (step ?inc _ _ _ ?w) _ _] =>
      destruct (steps_tally inc w img k Hk) as (_ & _ & _ & Hb);
      destruct (steps_total inc w img (Js.range (width img * height img)) init
                  init_sized init_total) as ((Hlen & _) & _);
      set (px := pixelsOf inc img k) in * end.
    cbv zeta in Hlen. split; [|apply at_le_maxOf; rewrite Hlen; lia].
    rewrite Hb. rewrite <- (Rmult_0_r (INR (length px))).
    apply Rsum_map_lower. intros i _. unfold weightOfGated.
    pose proof (chromaOf_nonneg img i).
    destruct (HueHistogramGated.weightMode options); [lra|assumption|].
    apply Rmult_le_pos; [assumption|apply Rmax_r].
Qed.

(** X6 at the opaque black pixel and bucket 0. *)
Lemma histogram_bucket_bounds_witness :
  wellFormed blackPixel /\ (0 <= 0 < 360)%Z
  /\ HueHistogram.satThreshold HueHistogram.defaults <> 0
  /\ exists h,
       HueHistogram.extractHueHistogram blackPixel HueHistogram.defaults
       = Js.Normal h
       /\ 0 <= Js.at_ (buckets h) 0 <= IZR (countAt (counts h) 0).
Proof.
  assert (W : wellFormed blackPixel) by (unfold wellFormed; cbn; lia).
  assert (K : (0 <= 0 < 360)%Z) by lia.
  assert (T : HueHistogram.satThreshold HueHistogram.defaults <> 0)
    by (cbn; lra).
  split; [exact W|]. split; [exact K|]. split; [exact T|].
  destruct (proj1 (histogram_bucket_bounds blackPixel 0 W K)
              HueHistogram.defaults T) as (h & E & B & _).
  exists h. split; [exact E|exact B].
Defined.

(** ** gaussian.ts: the kernel and the smoothing inside the ring *)

Lemma at_map_range (f : Z -> R) (n k : Z) :
  (0 <= k < n)%Z -> Js.at_ (map f (Js.range n)) k = f k.
Proof.
  intros H. unfold Js.at_, Js.range. rewrite map_map.
  rewrite (nth_indep _ 0 (f (Z.of_nat 0)))
    by (rewrite length_map, length_seq; lia).
  rewrite (map_nth (fun x => f (Z.of_nat x))).
  rewrite seq_nth by lia. f_equal. lia.
Qed.

Lemma kernel_at (sigma : R) (k : Z) :
  0 < sigma -> (0 <= k <= 2 * Zceil (sigma * 3))%Z ->
  exists s, 0 < s
    /\ forall j, (0 <= j <= 2 * Zceil (sigma * 3))%Z ->
         Js.at_ (generateGaussianKernel sigma) j
         = exp (- (IZR (j - Zceil (sigma * 3)) * IZR (j - Zceil (sigma * 3)))
                / (2 * sigma * sigma)) / s.
Proof.
  intros Hs Hk. rewrite kernel_eq.
  pose proof (raw_sum_positive sigma Hs) as Hp.
  eexists. split; [exact Hp|].
  intros j Hj. rewrite map_map. rewrite at_map_range by lia. reflexivity.
Qed.

(** X7.  For [sigma > 0] the kernel has [2 * ceil(3 * sigma) + 1] entries,
    all positive, of sum 1; it is symmetric about its centre, the entry of
    index [ceil(3 * sigma)], which is its largest entry. *)
Theorem generateGaussianKernel_shape (sigma : R) :
  0 < sigma ->
  let radius := Zceil (sigma * 3) in
  let kernel := generateGaussianKernel sigma in
  Z.of_nat (length kernel) = (radius * 2 + 1)%Z
  /\ Forall (fun v => 0 < v) kernel
  /\ Rsum kernel = 1
  /\ forall k, (0 <= k <= 2 * radius)%Z ->
        Js.at_ kernel k = Js.at_ kernel (2 * radius - k)
        /\ Js.at_ kernel k <= Js.at_ kernel radius.
Proof.
  intros Hs radius kernel. subst radius kernel.
  split; [now apply kernel_length|].
  split; [|split; [now apply kernel_sum|]].
  - rewrite kernel_eq. apply Forall_forall. intros v Hv.
    apply in_map_iff in Hv as (x & <- & Hx).
    pose proof (raw_sum_positive sigma Hs).
    pose proof (raw_positive sigma) as Hp. rewrite Forall_forall in Hp.
    specialize (Hp x Hx). now apply Rdiv_lt_0_compat.
  - intros k Hk. pose proof (radius_pos sigma Hs) as Hr.
    destruct (kernel_at sigma k Hs Hk) as (s & Hpos & E).
    rewrite !E by lia. split.
    + do 3 f_equal.
      replace (2 * Zceil (sigma * 3) - k - Zceil (sigma * 3))%Z
        with (- (k - Zceil (sigma * 3)))%Z by lia.
      rewrite opp_IZR. lra.
    + apply Rmult_le_compat_r; [apply Rlt_le; now apply Rinv_0_lt_compat|].
      replace (Zceil (sigma * 3) - Zceil (sigma * 3))%Z with 0%Z by lia.
      set (x := IZR (k - Zceil (sigma * 3))).
      assert (Hq : - (x * x) / (2 * sigma * sigma)
                   <= - (0 * 0) / (2 * sigma * sigma)).
      { unfold Rdiv. apply Rmult_le_compat_r.
        - apply Rlt_le, Rinv_0_lt_compat. nra.
        - nra. }
      destruct Hq as [Hq|Hq]; [apply Rlt_le; now apply exp_increasing|].
      rewrite Hq. lra.
Qed.

(** X7 at [sigma = 2]. *)
Lemma generateGaussianKernel_shape_witness :
  0 < 2 /\ Rsum (generateGaussianKernel 2) = 1.
Proof.
  assert (H : 0 < 2) by lra.
  split; [exact H|].
  exact (proj1 (proj2 (proj2 (generateGaussianKernel_shape 2 H)))).
Defined.

Lemma sumNumbers_defined (l : list R) (s : R) :
  fold_left Js.add (map Some l) (Some s) = Some (s + Rsum l).
Proof.
  revert s. induction l as [|x l IH]; intros s; simpl.
  - f_equal. lra.
  - rewrite IH. f_equal. lra.
Qed.

(** X8.  For [sigma > 0] with [ceil(3 * sigma)] at most the number of
    buckets, smoothing returns as many values as there are buckets, all of
    them numbers, and their sum is the sum of the buckets. *)
Theorem smooth_preserves_mass (buckets : list R) (sigma : R) :
  0 < sigma -> (Zceil (sigma * 3) <= Z.of_nat (length buckets))%Z ->
  length (gaussianSmoothHistogram buckets sigma) = length buckets
  /\ Forall (fun v => v <> Js.NaN) (gaussianSmoothHistogram buckets sigma)
  /\ sumNumbers (gaussianSmoothHistogram buckets sigma) = Some (Rsum buckets).
Proof.
  intros Hs Hr.
  destruct (smooth_mass_inside buckets sigma Hs Hr) as (sm & -> & Hl & Hm).
  split; [now rewrite length_map|]. split.
  - apply Forall_forall. intros v Hv. apply in_map_iff in Hv as (x & <- & _).
    discriminate.
  - unfold sumNumbers. rewrite sumNumbers_defined, Hm. f_equal. lra.
Qed.

(** X8 at three buckets and [sigma = 1], whose radius is 3. *)
Lemma smooth_preserves_mass_witness :
  0 < 1 /\ (Zceil (1 * 3) <= Z.of_nat (length [1; 2; 3]))%Z
  /\ sumNumbers (gaussianSmoothHistogram [1; 2; 3] 1) = Some (Rsum [1; 2; 3]).
Proof.
  assert (H : 0 < 1) by lra.
  assert (E : Zceil (1 * 3) = 3%Z)
    by (apply Zceil_eq; lra).
  assert (K : (Zceil (1 * 3) <= Z.of_nat (length [1; 2; 3]))%Z)
    by (rewrite E; simpl; lia).
  split; [exact H|]. split; [exact K|].
  exact (proj2 (proj2 (smooth_preserves_mass [1; 2; 3] 1 H K))).
Defined.

(** X9.  For [sigma > 0] with [ceil(3 * sigma)] at most the number of
    buckets, bounds on the buckets are bounds on the smoothed values: in
    particular a histogram without negative buckets has no negative
    smoothed value. *)
Theorem smooth_keeps_bounds (buckets : list R) (sigma lo hi : R) :
  0 < sigma -> (Zceil (sigma * 3) <= Z.of_nat (length buckets))%Z ->
  Forall (fun b => lo <= b <= hi) buckets ->
  Forall (fun v => exists x, v = Some x /\ lo <= x <= hi)
    (gaussianSmoothHistogram buckets sigma).
Proof.
  intros Hs Hr Hb. rewrite smooth_inside by assumption.
  apply Forall_forall. intros v Hv.
  apply in_map_iff in Hv as (x & <- & Hx). exists x. split; [reflexivity|].
  apply in_map_iff in Hx as (j & <- & Hj). apply in_range in Hj.
  pose proof (radius_pos sigma Hs).
  apply convolve_bounds; try assumption; try lia.
  - now apply kernel_nonneg.
  - now apply kernel_sum.
Qed.

(** X9 at three buckets between 1 and 3 and [sigma = 1]. *)
Lemma smooth_keeps_bounds_witness :
  0 < 1
  /\ Forall (fun v => exists x, v = Some x /\ 1 <= x <= 3)
       (gaussianSmoothHistogram [1; 2; 3] 1).
Proof.
  assert (H : 0 < 1) by lra.
  assert (E : Zceil (1 * 3) = 3%Z)
    by (apply Zceil_eq; lra).
  assert (K : (Zceil (1 * 3) <= Z.of_nat (length [1; 2; 3]))%Z)
    by (rewrite E; simpl; lia).
  assert (B : Forall (fun b => 1 <= b <= 3) [1; 2; 3])
    by (repeat constructor; lra).
  split; [exact H|].
  exact (smooth_keeps_bounds [1; 2; 3] 1 1 3 H K B).
Defined.

(** ** gaussian.ts: where the smoothed values are [NaN] *)

Lemma nth_map_range {B : Type} (f : Z -> B) (n k : Z) (d : B) :
  (0 <= k < n)%Z -> nth (Z.to_nat k) (map f (Js.range n)) d = f k.
Proof.
  intros H. unfold Js.range. rewrite map_map.
  rewrite (nth_indep _ d (f (Z.of_nat 0)))
    by (rewrite length_map, length_seq; lia).
  rewrite (map_nth (fun x => f (Z.of_nat x))).
  rewrite seq_nth by lia. f_equal. lia.
Qed.

Lemma add_fold_NaN_at {A : Type} (f : A -> Js.number) (l : list A) (k : A)
  (s : Js.number) :
  In k l -> f k = Js.NaN ->
  fold_left (fun sum k => Js.add sum (f k)) l s = Js.NaN.
Proof.
  revert s. induction l as [|x l IH]; intros s Hin Hk; [contradiction|].
  cbn [fold_left]. destruct Hin as [->|Hin].
  - rewrite Hk. replace (Js.add s Js.NaN) with Js.NaN by (now destruct s).
    apply add_NaN_fold.
  - now apply IH.
Qed.

Lemma rem_negative (a n : Z) :
  (a < 0)%Z -> (0 < n)%Z -> Js.rem a n = (- ((- a) mod n))%Z.
Proof.
  intros Ha Hn. unfold Js.rem.
  replace a with (- - a)%Z at 1 by lia.
  rewrite Z.rem_opp_l by lia. rewrite Z.rem_mod_nonneg by lia. reflexivity.
Qed.

(** One read outside the array makes the sum [NaN]. *)
Lemma smoothAt_NaN (buckets kernel : list R) (radius len i k : Z) :
  (0 <= k < Z.of_nat (length kernel))%Z ->
  (Js.rem (i + k - radius + len) len < 0)%Z ->
  smoothAt buckets kernel radius len i = Js.NaN.
Proof.
  intros Hk Hneg. unfold smoothAt.
  apply (add_fold_NaN_at
           (fun k => Js.mul (Js.get buckets (Js.rem (i + k - radius + len) len))
                       (Some (Js.at_ kernel k))) _ k).
  - now apply in_range.
  - now rewrite get_negative.
Qed.

Lemma smoothAt_defined (buckets kernel : list R) (radius i : Z) :
  let len := Z.of_nat (length buckets) in
  (0 <= i < len)%Z -> (radius <= i + len)%Z ->
  smoothAt buckets kernel radius len i
  = Some (convolveAt buckets kernel radius len i).
Proof.
  intros len Hi Hr. unfold smoothAt, convolveAt.
  rewrite (add_fold_defined _
             (fun k => Js.at_ buckets (Js.rem (i + k - radius + len) len)
                       * Js.at_ kernel k)).
  - f_equal. lra.
  - intros k Hk. apply in_range in Hk. cbv zeta.
    rewrite get_inside; [reflexivity|].
    apply rem_inside; lia.
Qed.

(** X10.  For [sigma > 0] on two buckets or more, the smoothed value of
    index [i] is [NaN] exactly when [i + len < ceil(3 * sigma)]: it is a
    number everywhere as long as the radius is at most the number of
    buckets, and beyond that the first [radius - len] values are [NaN]. *)
Theorem smooth_NaN_exactly (buckets : list R) (sigma : R) (i : Z) :
  0 < sigma ->
  let len := Z.of_nat (length buckets) in
  (2 <= len)%Z -> (0 <= i < len)%Z ->
  (nth (Z.to_nat i) (gaussianSmoothHistogram buckets sigma) (Some 0) = Js.NaN
   <-> (i + len < Zceil (sigma * 3))%Z).
Proof.
  intros Hs len Hlen Hi. unfold gaussianSmoothHistogram.
  destruct (Js.leb sigma 0) eqn:E; [apply leb_true in E; lra|].
  cbv zeta. rewrite kernel_radius by assumption. fold len.
  rewrite nth_map_range by assumption.
  pose proof (kernel_length sigma Hs) as Hk.
  pose proof (radius_pos sigma Hs) as Hr.
  set (r := Zceil (sigma * 3)) in *.
  split.
  - intros HN. destruct (Z.lt_ge_cases (i + len) r) as [Hlt|Hge];
      [exact Hlt|].
    unfold len in HN. rewrite smoothAt_defined in HN by (fold len; lia).
    discriminate.
  - intros Hlt. set (a := (i - r + len)%Z).
    destruct (Z.eq_dec ((- a) mod len) 0) as [Hz|Hnz].
    + apply (smoothAt_NaN _ _ _ _ _ 1); [lia|].
      replace (i + 1 - r + len)%Z with (a + 1)%Z by (subst a; lia).
      assert (Hd : (len | - a)%Z) by (apply Z.mod_divide; [lia|exact Hz]).
      assert (Ha : (- a >= len)%Z).
      { destruct Hd as [q Hq].
        assert (0 < - a)%Z by (subst a; lia).
        destruct (Z.le_gt_cases q 0);
          [assert (q * len <= 0)%Z by nia; lia|nia]. }
      rewrite rem_negative by lia.
      assert (Hm : (0 <= (- (a + 1)) mod len < len)%Z)
        by (apply Z.mod_pos_bound; lia).
      assert (Hne : ((- (a + 1)) mod len <> 0)%Z).
      { intros H0. apply Z.mod_divide in H0; [|lia].
        assert (H1 : (len | 1)%Z).
        { replace 1%Z with (- a - - (a + 1))%Z by lia.
          now apply Z.divide_sub_r. }
        apply Z.divide_1_r_nonneg in H1; lia. }
      lia.
    + apply (smoothAt_NaN _ _ _ _ _ 0); [lia|].
      replace (i + 0 - r + len)%Z with a by (subst a; lia).
      rewrite rem_negative by (subst a; lia).
      assert (Hm : (0 <= (- a) mod len < len)%Z)
        by (apply Z.mod_pos_bound; lia).
      lia.
Qed.

(** X10 at three buckets and [sigma = 2], whose radius is 6: the value of
    index 0 is [NaN]. *)
Lemma smooth_NaN_exactly_witness :
  0 < 2 /\ (2 <= Z.of_nat (length [1; 2; 3]))%Z
  /\ nth (Z.to_nat 0) (gaussianSmoothHistogram [1; 2; 3] 2) (Some 0) = Js.NaN.
Proof.
  assert (H : 0 < 2) by lra.
  assert (L : (2 <= Z.of_nat (length [1; 2; 3]))%Z) by (simpl; lia).
  assert (I : (0 <= 0 < Z.of_nat (length [1; 2; 3]))%Z) by (simpl; lia).
  assert (E : Zceil (2 * 3) = 6%Z) by (apply Zceil_eq; lra).
  assert (K : (0 + Z.of_nat (length [1; 2; 3]) < Zceil (2 * 3))%Z)
    by (rewrite E; simpl; lia).
  split; [exact H|]. split; [exact L|].
  exact (proj2 (smooth_NaN_exactly [1; 2; 3] 2 0 H L I) K).
Defined.

(** ** peaks.ts: how many peaks, and what a peak dominates *)

Lemma filter_map_length {A B : Type} (f : B -> bool) (g : A -> B) (l : list A) :
  length (filter f (map g l)) = length (filter (fun x => f (g x)) l).
Proof.
  induction l as [|x l IH]; simpl; [reflexivity|].
  destruct (f (g x)); simpl; now rewrite IH.
Qed.

Lemma filter_perm_length {A : Type} (f : A -> bool) (l1 l2 : list A) :
  Permutation l1 l2 -> length (filter f l1) = length (filter f l2).
Proof.
  induction 1; simpl; try congruence.
  - destruct (f x); simpl; congruence.
  - destruct (f x), (f y); reflexivity.
Qed.

Lemma filter_disjoint_length {A : Type} (f g : A -> bool) (l : list A) :
  (forall x, In x l -> f x = true -> g x = false) ->
  (length (filter f l) + length (filter g l) <= length l)%nat.
Proof.
  induction l as [|x l IH]; intros H; simpl; [lia|].
  assert (IH' : (length (filter f l) + length (filter g l) <= length l)%nat)
    by (apply IH; intros y Hy; apply H; now right).
  destruct (f x) eqn:Ef.
  - rewrite (H x) by (auto; now left). simpl. lia.
  - destruct (g x); simpl; lia.
Qed.

Lemma rem_succ_pred (i n : Z) :
  (0 <= i < n)%Z -> Js.rem (Js.rem (i + 1) n - 1 + n) n = i.
Proof.
  intros H. unfold Js.rem. rewrite (Z.rem_mod_nonneg (i + 1)) by lia.
  destruct (Z.eq_dec (i + 1) n) as [E|E].
  - rewrite E, Z.mod_same by lia. rewrite Z.rem_mod_nonneg by lia.
    rewrite Z.mod_small by lia. lia.
  - rewrite (Z.mod_small (i + 1)) by lia. rewrite Z.rem_mod_nonneg by lia.
    replace (i + 1 - 1 + n)%Z with (i + 1 * n)%Z by lia.
    rewrite Z.mod_add by lia. apply Z.mod_small. lia.
Qed.

(** The bucket after a candidate is not a candidate. *)
Lemma isCandidate_next (buckets : list R) (threshold : R) (i : Z) :
  let len := Z.of_nat (length buckets) in
  (0 <= i < len)%Z ->
  isCandidate buckets threshold i = true ->
  isCandidate buckets threshold (Js.rem (i + 1) len) = false.
Proof.
  intros len Hi H. unfold isCandidate in *. fold len in H |- *.
  apply andb_true_iff in H as [H _]. apply andb_true_iff in H as [_ H].
  apply ltb_true in H. rewrite rem_succ_pred by assumption.
  rewrite (proj2 (ltb_false _ _)) by lra. reflexivity.
Qed.

Lemma detectPeaks_length (buckets : list R) (minHeight : R) :
  length (detectPeaks buckets minHeight)
  = length (filter (isCandidate buckets (Js.maxOf buckets * minHeight))
              (Js.range (Z.of_nat (length buckets)))).
Proof.
  unfold detectPeaks.
  rewrite (Permutation_length (sortDesc_perm _ _)), length_map.
  rewrite <- candidates_indices. now rewrite length_map.
Qed.

(** X11.  No two neighbours on the ring are both peaks, so that at most
    half of the buckets are peaks: at most 180 peaks on 360 buckets. *)
Theorem detectPeaks_at_most_half (buckets : list R) (minHeight : R) :
  let len := Z.of_nat (length buckets) in
  let peaks := detectPeaks buckets minHeight in
  (forall p q, In p peaks -> In q peaks ->
               index q <> Js.rem (index p + 1) len)
  /\ (2 * length peaks <= length buckets)%nat.
Proof.
  cbv zeta. split.
  - intros p q Hp Hq.
    apply in_detectPeaks in Hp as (i & Hi & Hc & ->).
    apply in_detectPeaks in Hq as (j & Hj & Hc' & ->).
    cbn [index findBoundaries]. intros ->.
    rewrite (isCandidate_next buckets _ i Hi Hc) in Hc'. discriminate.
  - rewrite detectPeaks_length.
    set (len := Z.of_nat (length buckets)).
    set (f := isCandidate buckets (Js.maxOf buckets * minHeight)).
    assert (E : length (filter f (Js.range len))
                = length (filter (fun i => f (Js.rem (i + 1) len))
                            (Js.range len))).
    { rewrite <- (filter_map_length f (fun i => Js.rem (i + 1) len)).
      symmetry. apply filter_perm_length. apply rotate_perm. lia. }
    pose proof (filter_disjoint_length f (fun i => f (Js.rem (i + 1) len))
                  (Js.range len)) as D.
    rewrite <- E in D. rewrite range_length in D. subst len.
    rewrite Nat2Z.id in D.
    assert ((length (filter f (Js.range (Z.of_nat (length buckets))))
             + length (filter f (Js.range (Z.of_nat (length buckets))))
             <= length buckets)%nat); [|lia].
    apply D. intros i Hi Hf. apply in_range in Hi.
    now apply isCandidate_next.
Qed.

Lemma leftRun_below (buckets : list R) (idx0 k j : Z) :
  leftRun buckets idx0 k -> (1 <= j <= k)%Z ->
  Js.at_ buckets ((idx0 - j) mod Z.of_nat (length buckets))
  < Js.at_ buckets (idx0 mod Z.of_nat (length buckets)).
Proof.
  intros (_ & _ & Hrun & _) Hj.
  assert (G : forall n : nat, (1 <= Z.of_nat n <= k)%Z ->
            Js.at_ buckets ((idx0 - Z.of_nat n) mod Z.of_nat (length buckets))
            < Js.at_ buckets (idx0 mod Z.of_nat (length buckets))).
  { induction n as [|n IH]; intros Hn; [lia|].
    destruct (Z.eq_dec (Z.of_nat n) 0) as [E|E].
    - specialize (Hrun 1%Z). replace (Z.of_nat (S n)) with 1%Z by lia.
      replace (idx0 - 1 + 1)%Z with idx0 in Hrun by lia. apply Hrun. lia.
    - eapply Rlt_trans; [|apply IH; lia].
      specialize (Hrun (Z.of_nat (S n))).
      replace (idx0 - Z.of_nat (S n) + 1)%Z with (idx0 - Z.of_nat n)%Z
        in Hrun by lia.
      apply Hrun. lia. }
  specialize (G (Z.to_nat j)). rewrite Z2Nat.id in G by lia. apply G. lia.
Qed.

Lemma rightRun_below (buckets : list R) (idx0 k j : Z) :
  rightRun buckets idx0 k -> (1 <= j <= k)%Z ->
  Js.at_ buckets ((idx0 + j) mod Z.of_nat (length buckets))
  < Js.at_ buckets (idx0 mod Z.of_nat (length buckets)).
Proof.
  intros (_ & _ & Hrun & _) Hj.
  assert (G : forall n : nat, (1 <= Z.of_nat n <= k)%Z ->
            Js.at_ buckets ((idx0 + Z.of_nat n) mod Z.of_nat (length buckets))
            < Js.at_ buckets (idx0 mod Z.of_nat (length buckets))).
  { induction n as [|n IH]; intros Hn; [lia|].
    destruct (Z.eq_dec (Z.of_nat n) 0) as [E|E].
    - specialize (Hrun 1%Z). replace (Z.of_nat (S n)) with 1%Z by lia.
      replace (idx0 + 1 - 1)%Z with idx0 in Hrun by lia. apply Hrun. lia.
    - eapply Rlt_trans; [|apply IH; lia].
      specialize (Hrun (Z.of_nat (S n))).
      replace (idx0 + Z.of_nat (S n) - 1)%Z with (idx0 + Z.of_nat n)%Z
        in Hrun by lia.
      apply Hrun. lia. }
  specialize (G (Z.to_nat j)). rewrite Z2Nat.id in G by lia. apply G. lia.
Qed.

(** A bucket of the arc other than the peak lies on one of the two runs. *)
Lemma arc_on_runs (idx0 kl kr i : Z) :
  (0 <= idx0 < 360)%Z -> (0 <= i < 360)%Z -> i <> idx0 ->
  (0 <= kl < 180)%Z -> (0 <= kr < 180)%Z ->
  arcContains ((idx0 - kl) mod 360) ((idx0 + kr) mod 360) i ->
  exists j,
    ((1 <= j <= kl)%Z /\ i = ((idx0 - j) mod 360)%Z)
    \/ ((1 <= j <= kr)%Z /\ i = ((idx0 + j) mod 360)%Z).
Proof.
  intros Hidx Hi Hne Hkl Hkr. unfold arcContains.
  assert (L : ((idx0 - kl) mod 360 = idx0 - kl
               \/ (idx0 - kl < 0 /\ (idx0 - kl) mod 360 = idx0 - kl + 360))%Z).
  { destruct (Z.ltb_spec (idx0 - kl) 0).
    - right. split; [assumption|].
      replace (idx0 - kl)%Z with (idx0 - kl + 360 + (-1) * 360)%Z at 1 by lia.
      rewrite Z.mod_add by lia. apply Z.mod_small. lia.
    - left. apply Z.mod_small. lia. }
  assert (Rr : ((idx0 + kr) mod 360 = idx0 + kr
               \/ (360 <= idx0 + kr /\ (idx0 + kr) mod 360 = idx0 + kr - 360))%Z).
  { destruct (Z.ltb_spec (idx0 + kr) 360).
    - left. apply Z.mod_small. lia.
    - right. split; [assumption|].
      replace (idx0 + kr)%Z with (idx0 + kr - 360 + 1 * 360)%Z at 1 by lia.
      rewrite Z.mod_add by lia. apply Z.mod_small. lia. }
  assert (M1 : forall j, (0 <= idx0 - j < 360)%Z -> ((idx0 - j) mod 360 = idx0 - j)%Z)
    by (intros j Hj; apply Z.mod_small; lia).
  assert (M2 : forall j, (-360 <= idx0 - j < 0)%Z ->
                         ((idx0 - j) mod 360 = idx0 - j + 360)%Z).
  { intros j Hj.
    replace (idx0 - j)%Z with (idx0 - j + 360 + (-1) * 360)%Z at 1 by lia.
    rewrite Z.mod_add by lia. apply Z.mod_small. lia. }
  assert (M3 : forall j, (0 <= idx0 + j < 360)%Z -> ((idx0 + j) mod 360 = idx0 + j)%Z)
    by (intros j Hj; apply Z.mod_small; lia).
  assert (M4 : forall j, (360 <= idx0 + j < 720)%Z ->
                         ((idx0 + j) mod 360 = idx0 + j - 360)%Z).
  { intros j Hj.
    replace (idx0 + j)%Z with (idx0 + j - 360 + 1 * 360)%Z at 1 by lia.
    rewrite Z.mod_add by lia. apply Z.mod_small. lia. }
  intros Harc.
  destruct (Z.lt_ge_cases i idx0) as [Hlt|Hge].
  - destruct (Z.le_gt_cases (idx0 - kl) i) as [H1|H1].
    + exists (idx0 - i)%Z. left. split; [lia|]. rewrite M1 by lia. lia.
    + exists (i + 360 - idx0)%Z. right.
      assert (i <= idx0 + kr - 360)%Z.
      { destruct (Z.leb_spec ((idx0 - kl) mod 360) ((idx0 + kr) mod 360));
          destruct L as [L|[L0 L]], Rr as [Rr|[R0 Rr]]; lia. }
      split; [lia|]. rewrite M4 by lia. lia.
  - destruct (Z.le_gt_cases i (idx0 + kr)) as [H1|H1].
    + exists (i - idx0)%Z. right. split; [lia|]. rewrite M3 by lia. lia.
    + exists (idx0 + 360 - i)%Z. left.
      assert (idx0 - kl + 360 <= i)%Z.
      { destruct (Z.leb_spec ((idx0 - kl) mod 360) ((idx0 + kr) mod 360));
          destruct L as [L|[L0 L]], Rr as [Rr|[R0 Rr]]; lia. }
      split; [lia|]. rewrite M2 by lia. lia.
Qed.

(** X12.  On 360 buckets a peak is the strict maximum of its arc: every
    other bucket between [left] and [right] is smaller than the peak's
    value. *)
Theorem detectPeaks_peak_dominates_arc (buckets : list R) (minHeight : R)
  (p : Peak) (i : Z) :
  length buckets = 360%nat ->
  In p (detectPeaks buckets minHeight) ->
  In i (getPeakIndices p) -> i <> index p ->
  Js.at_ buckets i < value p.
Proof.
  intros Hlen Hp Hi Hne.
  apply in_detectPeaks in Hp as (idx & Hidx & _ & ->).
  destruct (findBoundaries_runs buckets idx (Js.at_ buckets idx) Hidx)
    as (kl & kr & El & Er & Hl & Hr).
  cbn [value findBoundaries index] in *.
  rewrite Hlen in Hidx, El, Er. change (Z.of_nat 360) with 360%Z in *.
  assert (Bl : (0 <= kl < 180)%Z).
  { destruct Hl as (? & ? & _). rewrite Hlen in *.
    change (Z.of_nat 360) with 360%Z in *. lia. }
  assert (Br : (0 <= kr < 180)%Z).
  { destruct Hr as (? & ? & _). rewrite Hlen in *.
    change (Z.of_nat 360) with 360%Z in *. lia. }
  assert (Hm : forall z, (0 <= z mod 360 < 360)%Z)
    by (intros z; apply Z.mod_pos_bound; lia).
  apply getPeakIndices_inside in Hi as [Hi Harc];
    [|unfold findBoundaries in *; cbn [left right] in *..].
  - cbn [left right] in Harc. rewrite El, Er in Harc.
    destruct (arc_on_runs idx kl kr i Hidx Hi Hne Bl Br Harc)
      as (j & [[Hj ->]|[Hj ->]]).
    + pose proof (leftRun_below buckets idx kl j Hl Hj) as H.
      rewrite Hlen in H. change (Z.of_nat 360) with 360%Z in H.
      rewrite (Z.mod_small idx) in H by lia. exact H.
    + pose proof (rightRun_below buckets idx kr j Hr Hj) as H.
      rewrite Hlen in H. change (Z.of_nat 360) with 360%Z in H.
      rewrite (Z.mod_small idx) in H by lia. exact H.
  - rewrite El. apply Hm.
  - rewrite Er. apply Hm.
Qed.

(** X12 on the ramp: bucket 0 of the arc 0..4 is below the peak at 3. *)
Lemma detectPeaks_peak_dominates_arc_witness :
  length rampBuckets = 360%nat
  /\ In rampPeak (detectPeaks rampBuckets 0.1)
  /\ Js.at_ rampBuckets 0 < value rampPeak.
Proof.
  assert (L : length rampBuckets = 360%nat) by reflexivity.
  assert (P : In rampPeak (detectPeaks rampBuckets 0.1))
    by (rewrite rampBuckets_peaks; now left).
  assert (I : In 0%Z (getPeakIndices rampPeak)) by (now left).
  assert (N : 0%Z <> index rampPeak) by (cbn; lia).
  split; [exact L|]. split; [exact P|].
  exact (detectPeaks_peak_dominates_arc rampBuckets 0.1 rampPeak 0 L P I N).
Defined.

Lemma maxOf_at (buckets : list R) (m : Z) :
  (0 <= m < Z.of_nat (length buckets))%Z ->
  (forall j, (0 <= j < Z.of_nat (length buckets))%Z ->
             Js.at_ buckets j <= Js.at_ buckets m) ->
  Js.maxOf buckets = Js.at_ buckets m.
Proof.
  intros Hm Hall. apply Rle_antisym.
  - apply maxOf_bound.
    + intros ->. simpl in Hm. lia.
    + apply Forall_forall. intros v Hv.
      apply (In_nth _ _ 0) in Hv as (n & Hn & <-).
      specialize (Hall (Z.of_nat n)). unfold Js.at_ in Hall at 1.
      rewrite Nat2Z.id in Hall. apply Hall. lia.
  - now apply at_le_maxOf.
Qed.

(** X13.  The threshold is [max * minHeight]: with a maximum that is not
    negative, raising [minHeight] never adds a peak, and with a positive
    maximum a [minHeight] above 1 leaves no peak at all. *)
Theorem detectPeaks_minHeight (buckets : list R) (h1 h2 : R) :
  0 <= Js.maxOf buckets ->
  (h1 <= h2 ->
   forall p, In p (detectPeaks buckets h2) -> In p (detectPeaks buckets h1))
  /\ (0 < Js.maxOf buckets -> 1 < h2 -> detectPeaks buckets h2 = []).
Proof.
  intros Hmax. split.
  - intros Hh p Hp. apply in_detectPeaks in Hp as (i & Hi & Hc & ->).
    apply in_detectPeaks. exists i. split; [exact Hi|]. split; [|reflexivity].
    unfold isCandidate in *.
    apply andb_true_iff in Hc as [Hc Ht]. rewrite Hc. cbn [andb].
    apply leb_true in Ht. apply leb_true. nra.
  - intros Hpos Hh. destruct (detectPeaks buckets h2) as [|p rest] eqn:E;
      [reflexivity|exfalso].
    assert (Hp : In p (detectPeaks buckets h2)) by (rewrite E; now left).
    apply in_detectPeaks in Hp as (i & Hi & Hc & _).
    unfold isCandidate in Hc. apply andb_true_iff in Hc as [_ Ht].
    apply leb_true in Ht. pose proof (at_le_maxOf buckets i Hi). nra.
Qed.

(** X13 at the ring 1, 2, 5, 3, 1, 1, whose maximum is 5. *)
Lemma detectPeaks_minHeight_witness :
  0 <= Js.maxOf [1; 2; 5; 3; 1; 1]
  /\ detectPeaks [1; 2; 5; 3; 1; 1] 2 = [].
Proof.
  assert (M : Js.maxOf [1; 2; 5; 3; 1; 1] = 5) by (js_eval; reflexivity).
  assert (H0 : 0 <= Js.maxOf [1; 2; 5; 3; 1; 1]) by (rewrite M; lra).
  assert (H1 : 0 < Js.maxOf [1; 2; 5; 3; 1; 1]) by (rewrite M; lra).
  assert (H2 : 1 < 2) by lra.
  split; [exact H0|].
  exact (proj2 (detectPeaks_minHeight [1; 2; 5; 3; 1; 1] 0 2 H0) H1 H2).
Defined.

Lemma rem_pred_other (m n : Z) :
  (0 <= m < n)%Z -> (2 <= n)%Z ->
  (0 <= Js.rem (m - 1 + n) n < n)%Z /\ Js.rem (m - 1 + n) n <> m.
Proof.
  intros Hm Hn. unfold Js.rem. rewrite Z.rem_mod_nonneg by lia.
  destruct (Z.eq_dec m 0) as [->|Hne].
  - rewrite Z.mod_small by lia. lia.
  - replace (m - 1 + n)%Z with (m - 1 + 1 * n)%Z by lia.
    rewrite Z.mod_add by lia. rewrite Z.mod_small by lia. lia.
Qed.

Lemma rem_succ_other (m n : Z) :
  (0 <= m < n)%Z -> (2 <= n)%Z ->
  (0 <= Js.rem (m + 1) n < n)%Z /\ Js.rem (m + 1) n <> m.
Proof.
  intros Hm Hn. unfold Js.rem. rewrite Z.rem_mod_nonneg by lia.
  destruct (Z.eq_dec (m + 1) n) as [E|Hne].
  - rewrite E, Z.mod_same by lia. lia.
  - rewrite Z.mod_small by lia. lia.
Qed.

(** X14.  When one bucket is strictly larger than every other bucket and
    is not negative, and [minHeight <= 1], the first peak returned is at
    that bucket and carries the maximum. *)
Theorem detectPeaks_first_is_global_maximum (buckets : list R)
  (minHeight : R) (m : Z) :
  let len := Z.of_nat (length buckets) in
  (2 <= len)%Z -> (0 <= m < len)%Z ->
  (forall j, (0 <= j < len)%Z -> j <> m ->
             Js.at_ buckets j < Js.at_ buckets m) ->
  0 <= Js.at_ buckets m -> minHeight <= 1 ->
  exists p rest,
    detectPeaks buckets minHeight = p :: rest
    /\ index p = m /\ value p = Js.maxOf buckets.
Proof.
  intros len Hlen Hm Hall Hpos Hh.
  assert (Emax : Js.maxOf buckets = Js.at_ buckets m).
  { apply maxOf_at; [exact Hm|]. intros j Hj.
    destruct (Z.eq_dec j m) as [->|Hne]; [lra|].
    apply Rlt_le. now apply Hall. }
  assert (Hin : In (findBoundaries buckets (mkPeak m (Js.at_ buckets m) m m))
                  (detectPeaks buckets minHeight)).
  { apply in_detectPeaks. exists m. split; [exact Hm|]. split; [|reflexivity].
    unfold isCandidate. fold len.
    destruct (rem_pred_other m len Hm Hlen) as [P1 P2].
    destruct (rem_succ_other m len Hm Hlen) as [S1 S2].
    rewrite (proj2 (ltb_true _ _)) by (now apply Hall).
    rewrite (proj2 (ltb_true _ _)) by (now apply Hall).
    rewrite Emax. rewrite (proj2 (leb_true _ _)) by nra. reflexivity. }
  pose proof (sortDesc_sorted value
                (map (findBoundaries buckets)
                   (candidates buckets (Js.maxOf buckets * minHeight)))) as Hs.
  fold (detectPeaks buckets minHeight) in Hs.
  destruct (detectPeaks buckets minHeight) as [|p rest] eqn:E;
    [contradiction|].
  exists p, rest. split; [reflexivity|].
  assert (Hp : In p (detectPeaks buckets minHeight)) by (rewrite E; now left).
  apply in_detectPeaks in Hp as (i & Hi & _ & Ep).
  assert (Ei : i = m).
  { destruct Hin as [Hin|Hin].
    - rewrite Ep in Hin. now injection Hin.
    - inversion Hs as [|? ? _ Hf]; subst. rewrite Forall_forall in Hf.
      specialize (Hf _ Hin). cbn [value findBoundaries] in Hf.
      destruct (Z.eq_dec i m) as [->|Hne]; [reflexivity|].
      specialize (Hall i Hi Hne). lra. }
  subst i. rewrite Ep. cbn [index value findBoundaries].
  split; [reflexivity|]. now rewrite Emax.
Qed.

(** X14 at the ring 1, 2, 5, 3, 1, 1 and its largest bucket, bucket 2. *)
Lemma detectPeaks_first_is_global_maximum_witness :
  exists p rest,
    detectPeaks [1; 2; 5; 3; 1; 1] 0.1 = p :: rest
    /\ index p = 2%Z /\ value p = Js.maxOf [1; 2; 5; 3; 1; 1].
Proof.
  assert (L : (2 <= Z.of_nat (length [1; 2; 5; 3; 1; 1]))%Z) by (simpl; lia).
  assert (M : (0 <= 2 < Z.of_nat (length [1; 2; 5; 3; 1; 1]))%Z)
    by (simpl; lia).
  assert (A : forall j, (0 <= j < Z.of_nat (length [1; 2; 5; 3; 1; 1]))%Z ->
                        j <> 2%Z ->
                        Js.at_ [1; 2; 5; 3; 1; 1] j < Js.at_ [1; 2; 5; 3; 1; 1] 2).
  { intros j Hj Hne. simpl in Hj.
    assert (C : j = 0%Z \/ j = 1%Z \/ j = 3%Z \/ j = 4%Z \/ j = 5%Z) by lia.
    destruct C as [->|[->|[->|[->| ->]]]]; unfold Js.at_; simpl; lra. }
  assert (P : 0 <= Js.at_ [1; 2; 5; 3; 1; 1] 2) by (unfold Js.at_; simpl; lra).
  assert (H : 0.1 <= 1) by lra.
  exact (detectPeaks_first_is_global_maximum [1; 2; 5; 3; 1; 1] 0.1 2
           L M A P H).
Defined.

(** ** peaks.ts: the peaks depend on relative heights only *)

Section Scale.

Variable c : R.
Hypothesis c_pos : 0 < c.

Lemma at_scale (a : list R) (i : Z) :
  Js.at_ (map (Rmult c) a) i = c * Js.at_ a i.
Proof.
  unfold Js.at_. destruct (Nat.ltb_spec (Z.to_nat i) (length a)) as [H|H].
  - rewrite (nth_indep _ 0 (c * 0)) by (now rewrite length_map).
    apply (map_nth (Rmult c)).
  - rewrite !nth_overflow by (rewrite ?length_map; lia). lra.
Qed.

Lemma ltb_scale (x y : R) : Js.ltb (c * x) (c * y) = Js.ltb x y.
Proof.
  destruct (Js.ltb x y) eqn:E.
  - apply ltb_true in E. apply ltb_true. nra.
  - apply ltb_false in E. apply ltb_false. nra.
Qed.

Lemma leb_scale (x y : R) : Js.leb (c * x) (c * y) = Js.leb x y.
Proof.
  destruct (Js.leb x y) eqn:E.
  - apply leb_true in E. apply leb_true. nra.
  - apply leb_false in E. apply leb_false. nra.
Qed.

Lemma maxOf_scale (a : list R) : Js.maxOf (map (Rmult c) a) = c * Js.maxOf a.
Proof.
  destruct a as [|x t]; simpl; [lra|].
  revert x. induction t as [|y t IH]; intros x; simpl; [reflexivity|].
  rewrite RmaxRmult by lra. apply IH.
Qed.

Lemma isCandidate_scale (buckets : list R) (t : R) (i : Z) :
  isCandidate (map (Rmult c) buckets) (c * t) i = isCandidate buckets t i.
Proof.
  unfold isCandidate. rewrite length_map, !at_scale, !ltb_scale, leb_scale.
  reflexivity.
Qed.

Lemma candidates_scale (buckets : list R) (t : R) :
  candidates (map (Rmult c) buckets) (c * t)
  = map (scalePeak c) (candidates buckets t).
Proof.
  unfold candidates. rewrite length_map.
  generalize (Js.range (Z.of_nat (length buckets))). intros l.
  induction l as [|i l IH]; [reflexivity|].
  cbn [flat_map]. rewrite map_app, IH, isCandidate_scale, at_scale.
  now destruct (isCandidate buckets t i).
Qed.

Lemma leftLoop_scale (buckets : list R) (len idx0 : Z) (fuel : nat) (i l : Z) :
  leftLoop (map (Rmult c) buckets) len idx0 fuel i l
  = leftLoop buckets len idx0 fuel i l.
Proof.
  revert i l. induction fuel as [|fuel IH]; intros i l; [reflexivity|].
  cbn [leftLoop]. rewrite !at_scale, leb_scale, IH. reflexivity.
Qed.

Lemma rightLoop_scale (buckets : list R) (len idx0 : Z) (fuel : nat) (i r : Z) :
  rightLoop (map (Rmult c) buckets) len idx0 fuel i r
  = rightLoop buckets len idx0 fuel i r.
Proof.
  revert i r. induction fuel as [|fuel IH]; intros i r; [reflexivity|].
  cbn [rightLoop]. rewrite !at_scale, leb_scale, IH. reflexivity.
Qed.

Lemma findBoundaries_scale (buckets : list R) (p : Peak) :
  findBoundaries (map (Rmult c) buckets) (scalePeak c p)
  = scalePeak c (findBoundaries buckets p).
Proof.
  unfold findBoundaries, scalePeak. cbn [index value left right].
  now rewrite !length_map, leftLoop_scale, rightLoop_scale.
Qed.

Lemma insertDesc_scale (x : Peak) (l : list Peak) :
  Js.insertDesc value (scalePeak c x) (map (scalePeak c) l)
  = map (scalePeak c) (Js.insertDesc value x l).
Proof.
  induction l as [|y l IH]; [reflexivity|].
  cbn [map Js.insertDesc]. unfold scalePeak at 1 2. cbn [value].
  rewrite leb_scale. destruct (Js.leb (value y) (value x)); [reflexivity|].
  cbn [map]. now rewrite <- IH.
Qed.

Lemma sortDesc_scale (l : list Peak) :
  Js.sortDesc value (map (scalePeak c) l)
  = map (scalePeak c) (Js.sortDesc value l).
Proof.
  induction l as [|x l IH]; [reflexivity|].
  unfold Js.sortDesc in *. cbn [map fold_right]. rewrite IH.
  apply insertDesc_scale.
Qed.

End Scale.

(** X15.  Multiplying every bucket by a positive factor leaves the peaks
    where they are, with the same boundaries and in the same order; only
    their values are multiplied by the factor. *)
Theorem detectPeaks_scale (buckets : list R) (minHeight c : R) :
  0 < c ->
  detectPeaks (map (Rmult c) buckets) minHeight
  = map (scalePeak c) (detectPeaks buckets minHeight).
Proof.
  intros Hc. unfold detectPeaks. rewrite maxOf_scale by assumption.
  rewrite Rmult_assoc, candidates_scale by assumption.
  rewrite map_map.
  rewrite (map_ext _ (fun p => scalePeak c (findBoundaries buckets p)))
    by (intros p; now apply findBoundaries_scale).
  rewrite <- (map_map (findBoundaries buckets) (scalePeak c)).
  now apply sortDesc_scale.
Qed.

(** X15 at the ring 1, 2, 5, 3, 1, 1 and the factor 2. *)
Lemma detectPeaks_scale_witness :
  0 < 2
  /\ detectPeaks (map (Rmult 2) [1; 2; 5; 3; 1; 1]) 0.1
     = map (scalePeak 2) (detectPeaks [1; 2; 5; 3; 1; 1] 0.1).
Proof.
  assert (H : 0 < 2) by lra.
  split; [exact H|].
  exact (detectPeaks_scale [1; 2; 5; 3; 1; 1] 0.1 2 H).
Defined.

(** ** oklch.ts and the weight ramp *)

(** X16.  Whatever the three channels, [rgbToOklch] returns a chroma that
    is not negative and a hue in [0, 360), so that the bucket
    [floor(h) % 360] is an index of the 360 buckets. *)
Theorem rgbToOklch_chroma_and_hue (r g b : Z) :
  0 <= snd (fst (Oklch.rgbToOklch r g b))
  /\ 0 <= snd (Oklch.rgbToOklch r g b) < 360
  /\ (0 <= Js.rem (Zfloor (snd (Oklch.rgbToOklch r g b))) 360 < 360)%Z.
Proof.
  split; [apply rgbToOklch_chroma|].
  split; [apply rgbToOklch_hue|apply rgbToOklch_bucket].
Qed.

Lemma clamp_monotone (u v : R) :
  u <= v -> Rmax 0 (Rmin 1 u) <= Rmax 0 (Rmin 1 v).
Proof.
  intros H. unfold Rmin.
  destruct (Rle_dec 1 u), (Rle_dec 1 v); unfold Rmax;
    repeat match goal with
           | |- context [Rle_dec ?a ?b] => destruct (Rle_dec a b)
           end; lra.
Qed.

(** X17.  Between two edges [edge0 < edge1], [smoothstep] is 0 up to
    [edge0], 1 from [edge1] on, stays in [0, 1] and never decreases. *)
Theorem smoothstep_ramp (edge0 edge1 x y : R) :
  edge0 < edge1 ->
  0 <= HueHistogram.smoothstep edge0 edge1 x <= 1
  /\ (x <= edge0 -> HueHistogram.smoothstep edge0 edge1 x = 0)
  /\ (edge1 <= x -> HueHistogram.smoothstep edge0 edge1 x = 1)
  /\ (x <= y ->
      HueHistogram.smoothstep edge0 edge1 x
      <= HueHistogram.smoothstep edge0 edge1 y).
Proof.
  intros He. split; [apply smoothstep_unit|].
  assert (Hd : 0 < / (edge1 - edge0)) by (apply Rinv_0_lt_compat; lra).
  unfold HueHistogram.smoothstep. cbv zeta. split; [|split].
  - intros Hx. assert ((x - edge0) / (edge1 - edge0) <= 0)
      by (unfold Rdiv; nra).
    rewrite Rmin_right by lra. rewrite Rmax_left by lra. lra.
  - intros Hx. assert (1 <= (x - edge0) / (edge1 - edge0)).
    { apply (Rmult_le_reg_r (edge1 - edge0)); [lra|].
      unfold Rdiv. rewrite Rmult_assoc, Rinv_l by lra. lra. }
    rewrite Rmin_left by lra. rewrite Rmax_right by lra. lra.
  - intros Hxy.
    assert (Hq : (x - edge0) / (edge1 - edge0) <= (y - edge0) / (edge1 - edge0))
      by (unfold Rdiv; nra).
    apply clamp_monotone in Hq.
    set (a := Rmax 0 (Rmin 1 ((x - edge0) / (edge1 - edge0)))) in *.
    set (b := Rmax 0 (Rmin 1 ((y - edge0) / (edge1 - edge0)))) in *.
    assert (Ha : 0 <= a <= 1).
    { subst a. split; [apply Rmax_l|]. apply Rmax_lub; [lra|apply Rmin_l]. }
    assert (Hb : 0 <= b <= 1).
    { subst b. split; [apply Rmax_l|]. apply Rmax_lub; [lra|apply Rmin_l]. }
    assert (0 <= (b - a) * (a * (3 - 2 * a - b) + b * (3 - 2 * b - a))).
    { apply Rmult_le_pos; [lra|]. apply Rplus_le_le_0_compat;
        apply Rmult_le_pos; lra. }
    lra.
Qed.

(** X17 at the default threshold, 0.02. *)
Lemma smoothstep_ramp_witness :
  0 < 0.02 /\ HueHistogram.smoothstep 0 0.02 0.05 = 1.
Proof.
  assert (H : 0 < 0.02) by lra.
  assert (X : 0.02 <= 0.05) by lra.
  split; [exact H|].
  exact (proj1 (proj2 (proj2 (smoothstep_ramp 0 0.02 0.05 0.05 H))) X).
Defined.

(** ** extract-peak-colors.ts: the arc of a peak and its weight *)

Lemma fromTo_length (lo hi : Z) :
  (lo <= hi + 1)%Z -> Z.of_nat (length (fromTo lo hi)) = (hi - lo + 1)%Z.
Proof. intros H. unfold fromTo. rewrite length_map, length_seq. lia. Qed.

Lemma fromTo_NoDup (lo hi : Z) : NoDup (fromTo lo hi).
Proof.
  unfold fromTo. apply Finite.Injective_map_NoDup; [|apply seq_NoDup].
  intros a b H. lia.
Qed.

(** X18.  For boundaries inside the ring, [getPeakIndices] lists the
    buckets of the arc from [left] to [right] once each; their number is
    the width that the histogram view draws for the peak, one more than
    the span of the arc. *)
Theorem getPeakIndices_arc (p : Peak) :
  (0 <= left p < 360)%Z -> (0 <= right p < 360)%Z ->
  NoDup (getPeakIndices p)
  /\ (forall i, In i (getPeakIndices p)
                <-> (0 <= i < 360)%Z /\ arcContains (left p) (right p) i)
  /\ Z.of_nat (length (getPeakIndices p)) = HistogramView.getPeakWidth p
  /\ HistogramView.getPeakWidth p = (arcWidth p + 1)%Z.
Proof.
  intros Hl Hr. split; [|split; [|split]].
  - unfold getPeakIndices. destruct (Z.leb_spec (left p) (right p)).
    + apply fromTo_NoDup.
    + apply NoDup_app; try apply fromTo_NoDup.
      intros a Ha Hb. apply in_fromTo in Ha, Hb. lia.
  - intros i. split.
    + now apply getPeakIndices_inside.
    + intros [Hi Ha]. now apply in_getPeakIndices.
  - unfold getPeakIndices, HistogramView.getPeakWidth.
    destruct (Z.leb_spec (left p) (right p));
      destruct (Z.geb_spec (right p) (left p)); try lia.
    + apply fromTo_length. lia.
    + rewrite length_app, Nat2Z.inj_add, !fromTo_length by lia. lia.
  - unfold HistogramView.getPeakWidth, arcWidth.
    destruct (Z.leb_spec (left p) (right p));
      destruct (Z.geb_spec (right p) (left p)); lia.
Qed.

(** X18 at a peak whose arc runs from 350 through 0 to 10. *)
Lemma getPeakIndices_arc_witness :
  let p := mkPeak 0 1 350 10 in
  (0 <= left p < 360)%Z /\ (0 <= right p < 360)%Z
  /\ Z.of_nat (length (getPeakIndices p)) = HistogramView.getPeakWidth p.
Proof.
  cbv zeta.
  assert (L : (0 <= left (mkPeak 0 1 350 10) < 360)%Z) by (cbn; lia).
  assert (H : (0 <= right (mkPeak 0 1 350 10) < 360)%Z) by (cbn; lia).
  split; [exact L|]. split; [exact H|].
  exact (proj1 (proj2 (proj2 (getPeakIndices_arc (mkPeak 0 1 350 10) L H)))).
Defined.

Lemma Rsum_sub {A : Type} (f : A -> R) (l l' : list A) :
  NoDup l -> incl l l' -> (forall x, In x l' -> 0 <= f x) ->
  Rsum (map f l) <= Rsum (map f l').
Proof.
  revert l'. induction l as [|x l IH]; intros l' Hnd Hincl Hpos.
  - simpl. clear Hincl. induction l' as [|y l' IH']; simpl; [lra|].
    assert (0 <= f y) by (apply Hpos; now left).
    assert (0 <= Rsum (map f l')) by (apply IH'; intros z Hz; apply Hpos; now right).
    unfold Rsum in *. lra.
  - inversion Hnd as [|? ? Hx Hnd']; subst.
    assert (Hin : In x l') by (apply Hincl; now left).
    apply in_split in Hin as (l1 & l2 & ->).
    assert (Hsub : incl l (l1 ++ l2)).
    { intros y Hy. assert (Hy' : In y (l1 ++ x :: l2)) by (apply Hincl; now right).
      apply in_app_or in Hy' as [Hy'|[<-|Hy']]; try contradiction;
        apply in_or_app; auto. }
    assert (Hpos' : forall y, In y (l1 ++ l2) -> 0 <= f y).
    { intros y Hy. apply Hpos. apply in_app_or in Hy as [Hy|Hy];
        apply in_or_app; [now left|right; now right]. }
    specialize (IH (l1 ++ l2) Hnd' Hsub Hpos').
    rewrite map_app, Rsum_app in *. cbn [map]. unfold Rsum in *.
    cbn [fold_right]. lra.
Qed.

Lemma Rsum_member {A : Type} (f : A -> R) (l : list A) (x : A) :
  In x l -> (forall y, In y l -> 0 <= f y) -> f x <= Rsum (map f l).
Proof.
  intros Hx Hpos.
  assert (H : Rsum (map f [x]) <= Rsum (map f l)).
  { apply Rsum_sub; [repeat constructor; auto|intros y [<-|[]]; exact Hx|exact Hpos]. }
  simpl in H. lra.
Qed.

Lemma calculatePeakWeight_sum (buckets : list R) (p : Peak) :
  calculatePeakWeight buckets p
  = Rsum (map (Js.at_ buckets) (getPeakIndices p)).
Proof.
  unfold calculatePeakWeight.
  generalize (getPeakIndices p). intros l.
  assert (G : forall a, fold_left (fun t idx => t + Js.at_ buckets idx) l a
                        = a + Rsum (map (Js.at_ buckets) l)).
  { induction l as [|x l IH]; intros a; simpl; [lra|]. rewrite IH.
    unfold Rsum. lra. }
  rewrite G. lra.
Qed.

(** X19.  The weight of a peak is the sum of the buckets of its arc.  On
    360 buckets without negative values it is between the bucket of any
    index of the arc and the sum of all the buckets. *)
Theorem calculatePeakWeight_bounds (buckets : list R) (p : Peak) :
  length buckets = 360%nat -> Forall (fun b => 0 <= b) buckets ->
  (0 <= left p < 360)%Z -> (0 <= right p < 360)%Z ->
  calculatePeakWeight buckets p
  = Rsum (map (Js.at_ buckets) (getPeakIndices p))
  /\ calculatePeakWeight buckets p <= Rsum buckets
  /\ forall i, In i (getPeakIndices p) ->
               Js.at_ buckets i <= calculatePeakWeight buckets p.
Proof.
  intros Hlen Hpos Hl Hr. rewrite calculatePeakWeight_sum.
  assert (Hat : forall i, (0 <= i < 360)%Z -> 0 <= Js.at_ buckets i).
  { intros i Hi. rewrite Forall_forall in Hpos. apply Hpos.
    unfold Js.at_. apply nth_In. lia. }
  assert (Hr360 : forall i, In i (getPeakIndices p) -> (0 <= i < 360)%Z)
    by (intros i Hi; now apply (getPeakIndices_inside p i Hl Hr)).
  split; [reflexivity|]. split.
  - rewrite <- (map_at_range buckets) at 2. rewrite Hlen.
    change (Z.of_nat 360) with 360%Z. apply Rsum_sub.
    + unfold getPeakIndices. destruct (Z.leb_spec (left p) (right p)).
      * apply fromTo_NoDup.
      * apply NoDup_app; try apply fromTo_NoDup.
        intros a Ha Hb. apply in_fromTo in Ha, Hb. lia.
    + intros i Hi. apply in_range. now apply Hr360.
    + intros i Hi. apply in_range in Hi. now apply Hat.
  - intros i Hi. apply Rsum_member; [exact Hi|].
    intros y Hy. apply Hat. now apply Hr360.
Qed.

(** X19 on the ramp, whose peak has the arc 0..4. *)
Lemma calculatePeakWeight_bounds_witness :
  length rampBuckets = 360%nat
  /\ calculatePeakWeight rampBuckets rampPeak <= Rsum rampBuckets.
Proof.
  assert (L : length rampBuckets = 360%nat) by reflexivity.
  assert (P : Forall (fun b => 0 <= b) rampBuckets).
  { unfold rampBuckets. apply Forall_app. split.
    - repeat constructor; lra.
    - apply Forall_forall. intros v Hv. apply repeat_spec in Hv. lra. }
  assert (Hl : (0 <= left rampPeak < 360)%Z) by (cbn; lia).
  assert (Hr : (0 <= right rampPeak < 360)%Z) by (cbn; lia).
  split; [exact L|].
  exact (proj1 (proj2 (calculatePeakWeight_bounds rampBuckets rampPeak
                         L P Hl Hr))).
Defined.

(** ** extract-peak-colors.ts: the colour distance *)

Lemma deltaE2000_same (L a b : R) : deltaE2000 L a b L a b = 0.
Proof.
  unfold deltaE2000. cbv zeta.
  set (C := sqrt (a * a + b * b)).
  set (G := 0.5 * (1 - sqrt (((C + C) / 2) ^ 7 / (((C + C) / 2) ^ 7 + 25 ^ 7)))).
  set (Cp := sqrt (a * (1 + G) * (a * (1 + G)) + b * b)).
  set (h := if Rlt_dec (Oklch.atan2 b (a * (1 + G)) * (180 / PI)) 0
            then Oklch.atan2 b (a * (1 + G)) * (180 / PI) + 360
            else Oklch.atan2 b (a * (1 + G)) * (180 / PI)).
  set (hp := if Req_dec_T (Cp * Cp) 0 then h + h else _).
  set (T := 1 - 0.17 * cos ((hp - 30) * (PI / 180)) + _ + _ - _).
  set (RC := 2 * sqrt (((Cp + Cp) / 2) ^ 7 / (((Cp + Cp) / 2) ^ 7 + 25 ^ 7))).
  set (SL := 1 + _ / sqrt _).
  set (SC := 1 + 0.045 * ((Cp + Cp) / 2)).
  set (SH := 1 + 0.015 * ((Cp + Cp) / 2) * T).
  set (RT := - sin _ * RC).
  assert (E : sin ((if Req_dec_T (Cp * Cp) 0 then 0
                    else if Rlt_dec 180 (h - h) then h - h - 360
                         else if Rlt_dec (h - h) (-180) then h - h + 360
                              else h - h) / 2 * (PI / 180)) = 0).
  { destruct (Req_dec_T (Cp * Cp) 0).
    - replace (0 / 2 * (PI / 180)) with 0 by lra. apply sin_0.
    - destruct (Rlt_dec 180 (h - h)); [lra|].
      destruct (Rlt_dec (h - h) (-180)); [lra|].
      replace ((h - h) / 2 * (PI / 180)) with 0 by lra. apply sin_0. }
  rewrite E.
  match goal with |- sqrt ?x = 0 => replace x with 0; [apply sqrt_0|] end.
  unfold Rdiv. ring.
Qed.

(** The signed hue difference changes sign when the colours are swapped. *)
Lemma hue_difference_swap (h1 h2 : R) :
  (if Rlt_dec 180 (h1 - h2) then h1 - h2 - 360
   else if Rlt_dec (h1 - h2) (-180) then h1 - h2 + 360 else h1 - h2)
  = - (if Rlt_dec 180 (h2 - h1) then h2 - h1 - 360
       else if Rlt_dec (h2 - h1) (-180) then h2 - h1 + 360 else h2 - h1).
Proof.
  destruct (Rlt_dec 180 (h1 - h2)), (Rlt_dec (h1 - h2) (-180)),
    (Rlt_dec 180 (h2 - h1)), (Rlt_dec (h2 - h1) (-180)); lra.
Qed.

Lemma deltaE2000_swap (L1 a1 b1 L2 a2 b2 : R) :
  deltaE2000 L1 a1 b1 L2 a2 b2 = deltaE2000 L2 a2 b2 L1 a1 b1.
Proof.
  unfold deltaE2000. cbv zeta.
  set (C1 := sqrt (a1 * a1 + b1 * b1)).
  set (C2 := sqrt (a2 * a2 + b2 * b2)).
  rewrite (Rplus_comm C2 C1).
  set (G := 0.5 * (1 - sqrt (((C1 + C2) / 2) ^ 7 / (((C1 + C2) / 2) ^ 7 + 25 ^ 7)))).
  set (C1p := sqrt (a1 * (1 + G) * (a1 * (1 + G)) + b1 * b1)).
  set (C2p := sqrt (a2 * (1 + G) * (a2 * (1 + G)) + b2 * b2)).
  set (h1p := if Rlt_dec (Oklch.atan2 b1 (a1 * (1 + G)) * (180 / PI)) 0
              then Oklch.atan2 b1 (a1 * (1 + G)) * (180 / PI) + 360
              else Oklch.atan2 b1 (a1 * (1 + G)) * (180 / PI)).
  set (h2p := if Rlt_dec (Oklch.atan2 b2 (a2 * (1 + G)) * (180 / PI)) 0
              then Oklch.atan2 b2 (a2 * (1 + G)) * (180 / PI) + 360
              else Oklch.atan2 b2 (a2 * (1 + G)) * (180 / PI)).
  rewrite (Rmult_comm C2p C1p), (Rplus_comm C2p C1p), (Rplus_comm h2p h1p),
    (Rplus_comm L2 L1), (Rabs_minus_sym h2p h1p).
  set (hp := if Req_dec_T (C1p * C2p) 0 then h1p + h2p else _).
  set (T := 1 - 0.17 * cos ((hp - 30) * (PI / 180)) + _ + _ - _).
  set (RC := 2 * sqrt (((C1p + C2p) / 2) ^ 7 / (((C1p + C2p) / 2) ^ 7 + 25 ^ 7))).
  set (SL := 1 + _ / sqrt _).
  set (SC := 1 + 0.045 * ((C1p + C2p) / 2)).
  set (SH := 1 + 0.015 * ((C1p + C2p) / 2) * T).
  set (RT := - sin _ * RC).
  set (d := if Req_dec_T (C1p * C2p) 0 then 0
            else if Rlt_dec 180 (h2p - h1p) then h2p - h1p - 360
                 else if Rlt_dec (h2p - h1p) (-180) then h2p - h1p + 360
                      else h2p - h1p).
  assert (E : (if Req_dec_T (C1p * C2p) 0 then 0
               else if Rlt_dec 180 (h1p - h2p) then h1p - h2p - 360
                    else if Rlt_dec (h1p - h2p) (-180) then h1p - h2p + 360
                         else h1p - h2p) = - d).
  { subst d. destruct (Req_dec_T (C1p * C2p) 0); [lra|].
    apply hue_difference_swap. }
  rewrite E.
  replace (- d / 2 * (PI / 180)) with (- (d / 2 * (PI / 180))) by lra.
  rewrite sin_neg. f_equal. unfold Rdiv. ring.
Qed.

Lemma colorDistance_same (c : PeakColor) : colorDistance c c = 0.
Proof.
  unfold colorDistance. destruct (oklchToLab _ _ _) as [[L a] b].
  apply deltaE2000_same.
Qed.

Lemma colorDistance_swap (c1 c2 : PeakColor) :
  colorDistance c1 c2 = colorDistance c2 c1.
Proof.
  unfold colorDistance.
  destruct (oklchToLab (lightness c1) _ _) as [[L1 a1] b1].
  destruct (oklchToLab (lightness c2) _ _) as [[L2 a2] b2].
  apply deltaE2000_swap.
Qed.

(** X20.  The colour distance is not negative, is 0 between a colour and
    itself, and does not depend on the order of the two colours. *)
Theorem colorDistance_metric_like (c1 c2 : PeakColor) :
  0 <= colorDistance c1 c2
  /\ colorDistance c1 c1 = 0
  /\ colorDistance c1 c2 = colorDistance c2 c1.
Proof.
  split; [apply colorDistance_nonneg|].
  split; [apply colorDistance_same|apply colorDistance_swap].
Qed.

Lemma oklchToLab_grey (L H : R) : oklchToLab L 0 H = oklchToLab L 0 0.
Proof.
  unfold oklchToLab, oklchToSrgb. cbv zeta. now rewrite !Rmult_0_l.
Qed.

(** X21.  A colour of chroma 0 has no hue: its CIE Lab coordinates, and so
    its distance to any colour, do not change with its hue. *)
Theorem colorDistance_achromatic (c1 c2 : PeakColor) (h : R) :
  chroma c1 = 0 ->
  oklchToLab (lightness c1) (chroma c1) h
  = oklchToLab (lightness c1) (chroma c1) (hue c1)
  /\ colorDistance
       (mkPeakColor h (chroma c1) (lightness c1) (weight c1) (source c1)) c2
     = colorDistance c1 c2.
Proof.
  intros Hc.
  assert (E : oklchToLab (lightness c1) (chroma c1) h
              = oklchToLab (lightness c1) (chroma c1) (hue c1)).
  { rewrite Hc. rewrite (oklchToLab_grey _ h). symmetry. apply oklchToLab_grey. }
  split; [exact E|]. unfold colorDistance. cbn [lightness chroma hue].
  now rewrite E.
Qed.

(** X21 at the black colour A of the example, turned to the hue 90. *)
Lemma colorDistance_achromatic_witness :
  chroma colorA = 0
  /\ oklchToLab (lightness colorA) (chroma colorA) 90
     = oklchToLab (lightness colorA) (chroma colorA) (hue colorA).
Proof.
  assert (H : chroma colorA = 0) by reflexivity.
  split; [exact H|].
  exact (proj1 (colorDistance_achromatic colorA colorA 90 H)).
Defined.

(** ** extract-peak-colors.ts: the distance merge *)

Lemma filterStep_length (d : R) (result : list PeakColor) (c : PeakColor) :
  (length result <= length (filterStep d result c) <= S (length result))%nat.
Proof.
  unfold filterStep. destruct (findSimilar c d result 0) as [[|] [i|]];
    rewrite ?updNth_length, ?length_app; simpl; lia.
Qed.

Lemma fold_filterStep_length (d : R) (colors acc : list PeakColor) :
  (length acc <= length (fold_left (filterStep d) colors acc)
   <= length acc + length colors)%nat.
Proof.
  revert acc. induction colors as [|c rest IH]; intros acc; simpl; [lia|].
  pose proof (filterStep_length d acc c). specialize (IH (filterStep d acc c)).
  lia.
Qed.

Lemma filterByDistance_length (colors : list PeakColor) (d : R) :
  (length (filterByDistance colors d) <= length colors)%nat.
Proof.
  unfold filterByDistance. destruct (_ || _); [lia|].
  pose proof (fold_filterStep_length d colors []). simpl in H. lia.
Qed.

(** X22.  [filterByDistance] returns colours of its input, never more of
    them than it was given and at least one when it was given one; with
    [minDistance <= 0] or fewer than two colours it returns the input. *)
Theorem filterByDistance_selects (colors : list PeakColor) (d : R) :
  incl (filterByDistance colors d) colors
  /\ (length (filterByDistance colors d) <= length colors)%nat
  /\ (colors <> [] -> filterByDistance colors d <> [])
  /\ (d <= 0 \/ (length colors <= 1)%nat -> filterByDistance colors d = colors).
Proof.
  split; [apply filterByDistance_incl|].
  split; [apply filterByDistance_length|]. unfold filterByDistance. split.
  - intros Hne. destruct (_ || _); [exact Hne|].
    destruct colors as [|c rest]; [congruence|]. cbn [fold_left].
    unfold filterStep at 2. cbn [findSimilar app].
    pose proof (fold_filterStep_length d rest [c]) as H. simpl in H.
    intros E. rewrite E in H. simpl in H. lia.
  - intros [Hd|Hl].
    + now rewrite (proj2 (leb_true d 0)).
    + rewrite (proj2 (Nat.leb_le _ _) Hl). now rewrite orb_true_r.
Qed.

Lemma fold_all_close (d : R) (colors : list PeakColor) (c : PeakColor) :
  (forall x, In x colors -> colorDistance x c < d) ->
  (forall x y, In x colors -> In y colors -> colorDistance x y < d) ->
  exists c', fold_left (filterStep d) colors [c] = [c']
    /\ In c' (c :: colors)
    /\ chroma c <= chroma c'
    /\ forall x, In x colors -> chroma x <= chroma c'.
Proof.
  revert c. induction colors as [|x rest IH]; intros c Hc Hall.
  - exists c. simpl. repeat split; auto; try lra. intros x [].
  - cbn [fold_left]. unfold filterStep at 2. cbn [findSimilar].
    rewrite (proj2 (ltb_true _ _)) by (apply Hc; now left).
    assert (Hrest : forall u v, In u rest -> In v rest -> colorDistance u v < d)
      by (intros u v Hu Hv; apply Hall; now right).
    destruct (Js.ltb (chroma c) (chroma x)) eqn:E.
    + apply ltb_true in E. cbn [Js.updNth].
      destruct (IH x) as (c' & E' & Hin & Hx & Hmax); [|exact Hrest|].
      { intros u Hu. apply Hall; [now right|now left]. }
      exists c'. split; [exact E'|]. split; [now right|].
      split; [lra|]. intros u [<-|Hu]; [exact Hx|now apply Hmax].
    + apply ltb_false in E.
      destruct (IH c) as (c' & E' & Hin & Hx & Hmax); [|exact Hrest|].
      { intros u Hu. apply Hc. now right. }
      exists c'. split; [exact E'|]. split.
      { destruct Hin as [<-|Hin]; [now left|right; now right]. }
      split; [exact Hx|]. intros u [<-|Hu]; [lra|now apply Hmax].
Qed.

(** X23.  When two colours or more are all closer to each other than
    [minDistance], the merge leaves exactly one of them, and no colour of
    the input has a larger chroma. *)
Theorem filterByDistance_all_close (colors : list PeakColor) (d : R) :
  (2 <= length colors)%nat ->
  (forall x y, In x colors -> In y colors -> colorDistance x y < d) ->
  exists c, filterByDistance colors d = [c]
    /\ In c colors
    /\ forall x, In x colors -> chroma x <= chroma c.
Proof.
  intros Hlen Hall. destruct colors as [|c0 rest]; [simpl in Hlen; lia|].
  assert (Hd : 0 < d).
  { pose proof (colorDistance_nonneg c0 c0).
    specialize (Hall c0 c0 (or_introl eq_refl) (or_introl eq_refl)). lra. }
  unfold filterByDistance. rewrite (proj2 (leb_false d 0)) by exact Hd.
  destruct (Nat.leb_spec (length (c0 :: rest)) 1) as [H|_]; [lia|].
  cbn [orb fold_left]. unfold filterStep at 2. cbn [findSimilar app].
  destruct (fold_all_close d rest c0) as (c & E & Hin & H0 & Hmax).
  - intros x Hx. apply Hall; [now right|now left].
  - intros x y Hx Hy. apply Hall; now right.
  - exists c. split; [exact E|]. split; [exact Hin|].
    intros x [<-|Hx]; [exact H0|now apply Hmax].
Qed.

(** X23 at the colours C and A of the example, closer than 1.4: C, of the
    larger chroma, is left. *)
Lemma filterByDistance_all_close_witness :
  exists c, filterByDistance [colorC; colorA] 1.4 = [c]
    /\ In c [colorC; colorA]
    /\ forall x, In x [colorC; colorA] -> chroma x <= chroma c.
Proof.
  assert (L : (2 <= length [colorC; colorA])%nat) by (simpl; lia).
  assert (S : forall c, colorDistance c c < 1.4)
    by (intros c; rewrite colorDistance_same; lra).
  assert (D : colorDistance colorA colorC < 1.4)
    by (rewrite colorDistance_swap; exact distance_C_A).
  assert (A : forall x y, In x [colorC; colorA] -> In y [colorC; colorA] ->
                          colorDistance x y < 1.4).
  { intros x y [<-|[<-|[]]] [<-|[<-|[]]].
    - exact (S colorC).
    - exact distance_C_A.
    - exact D.
    - exact (S colorA). }
  exact (filterByDistance_all_close [colorC; colorA] 1.4 L A).
Defined.

(** ** extract-peak-colors.ts: what [extractPeakColors] returns *)

Lemma clamp_bounds (lo hi x : R) : lo <= hi -> lo <= Rmax lo (Rmin hi x) <= hi.
Proof.
  intros H. split; [apply Rmax_l|]. apply Rmax_lub; [exact H|apply Rmin_l].
Qed.

Lemma degrees_normalised (phi : R) :
  - PI < phi <= PI ->
  0 <= (if Rlt_dec (phi * 180 / PI) 0 then phi * 180 / PI + 360
        else phi * 180 / PI) < 360.
Proof.
  intros H. pose proof PI_RGT_0 as Hpi.
  set (u := phi * 180 / PI).
  assert (Eu : phi = u * (PI / 180)) by (subst u; field; lra).
  set (k := PI / 180) in *.
  assert (Hk : 0 < k) by (subst k; lra).
  assert (EP : PI = 180 * k) by (subst k; lra).
  rewrite EP, Eu in H.
  assert (Hu : -180 < u <= 180) by (split; nra).
  destruct (Rlt_dec u 0); lra.
Qed.

Lemma resolvePeak_colour histogram smoothedBuckets options p c :
  resolvePeak histogram smoothedBuckets options p = Some c ->
  source c = p
  /\ weight c = calculatePeakWeight smoothedBuckets p
  /\ 0 <= lightness c <= 1 /\ 0 <= chroma c <= 0.4
  /\ match mode options with
     | peak =>
         countAt (counts histogram) (index p) <> 0%Z
         /\ hue c = IZR (index p)
         /\ chroma c
            = Rmax 0 (Rmin 0.4 (Js.at_ (chromaSum histogram) (index p)
                                / IZR (countAt (counts histogram) (index p))))
         /\ lightness c
            = Rmax 0 (Rmin 1 (Js.at_ (lightnessSum histogram) (index p)
                              / IZR (countAt (counts histogram) (index p))))
     | average => 0 <= hue c < 360
     end.
Proof.
  unfold resolvePeak. destruct (mode options).
  - destruct (Z.eqb_spec (countAt (counts histogram) (index p)) 0) as [E|E];
      [discriminate|].
    intros H. injection H as <-. cbn [source weight lightness chroma hue].
    split; [reflexivity|]. split; [reflexivity|].
    split; [apply clamp_bounds; lra|]. split; [apply clamp_bounds; lra|].
    auto.
  - destruct (Js.leb _ 0); [discriminate|].
    intros H. injection H as <-. cbn [source weight lightness chroma hue].
    split; [reflexivity|]. split; [reflexivity|].
    split; [apply clamp_bounds; lra|]. split; [apply clamp_bounds; lra|].
    apply degrees_normalised, atan2_bound.
Qed.

(** X24.  With arrays of 360 entries and peaks on the ring, every colour
    returned by [extractPeakColors] comes from one of the given peaks and
    carries the weight of that peak's arc; its lightness is in [0, 1] and
    its chroma in [0, 0.4].  In [peak] mode the bucket of the peak's index
    counts a pixel, the hue is the index, and chroma and lightness are the
    clamped averages of that bucket; in [average] mode the hue is in
    [0, 360). *)
Theorem extractPeakColors_colour histogram peaks smoothedBuckets options c :
  readsInside histogram peaks smoothedBuckets ->
  In c (extractPeakColors histogram peaks smoothedBuckets options) ->
  In (source c) peaks /\ onRing (source c)
  /\ weight c = calculatePeakWeight smoothedBuckets (source c)
  /\ 0 <= lightness c <= 1 /\ 0 <= chroma c <= 0.4
  /\ match mode options with
     | peak =>
         countAt (counts histogram) (index (source c)) <> 0%Z
         /\ hue c = IZR (index (source c))
         /\ chroma c
            = Rmax 0 (Rmin 0.4
                        (Js.at_ (chromaSum histogram) (index (source c))
                         / IZR (countAt (counts histogram)
                                  (index (source c)))))
         /\ lightness c
            = Rmax 0 (Rmin 1
                        (Js.at_ (lightnessSum histogram) (index (source c))
                         / IZR (countAt (counts histogram)
                                  (index (source c)))))
     | average => 0 <= hue c < 360
     end.
Proof.
  intros (_ & _ & _ & _ & Hring) Hc.
  apply in_extractPeakColors in Hc as (p & Hp & Hres).
  apply resolvePeak_colour in Hres as (Hs & Hrest). rewrite Hs.
  split; [exact Hp|]. split; [|exact Hrest].
  rewrite Forall_forall in Hring. now apply Hring.
Qed.

(** X24 on the ramp. *)
Lemma extractPeakColors_colour_witness :
  let c := mkPeakColor 0 0.1 0.5 11 rampPeak in
  readsInside rampHistogram [rampPeak] rampBuckets
  /\ In c (extractPeakColors rampHistogram [rampPeak] rampBuckets
             (withDefaults average))
  /\ weight c = calculatePeakWeight rampBuckets (source c)
  /\ 0 <= hue c < 360.
Proof.
  cbv zeta.
  assert (Hin : In (mkPeakColor 0 0.1 0.5 11 rampPeak)
                  (extractPeakColors rampHistogram [rampPeak] rampBuckets
                     (withDefaults average)))
    by (rewrite ramp_colors; now left).
  assert (Hr : readsInside rampHistogram [rampPeak] rampBuckets).
  { unfold readsInside. repeat (split; [reflexivity|]).
    constructor; [|constructor]. unfold onRing. cbn. lia. }
  split; [exact Hr|]. split; [exact Hin|].
  destruct (extractPeakColors_colour _ _ _ _ _ Hr Hin)
    as (_ & _ & W & _ & _ & H).
  split; [exact W|exact H].
Defined.

Lemma resolved_length histogram smoothedBuckets options (peaks : list Peak) :
  (length (flat_map (fun p =>
                       match resolvePeak histogram smoothedBuckets options p with
                       | Some c => [c]
                       | None => []
                       end) peaks)
   <= length peaks)%nat.
Proof.
  induction peaks as [|p peaks IH]; simpl; [lia|].
  rewrite length_app. destruct (resolvePeak _ _ _ p); simpl; lia.
Qed.

Lemma slice0_length {A : Type} (l : list A) (n : Z) :
  (length (Js.slice0 l n) <= length l)%nat
  /\ ((0 <= n)%Z -> (Z.of_nat (length (Js.slice0 l n)) <= n)%Z).
Proof.
  unfold Js.slice0. destruct (Z.ltb_spec n 0); rewrite length_firstn; lia.
Qed.

Lemma firstn_sorted {A : Type} (rel : A -> A -> Prop) (n : nat) (l : list A) :
  StronglySorted rel l -> StronglySorted rel (firstn n l).
Proof.
  revert n. induction l as [|x l IH]; intros [|n] H; simpl; try constructor.
  - inversion H; subst. now apply IH.
  - inversion H as [|? ? _ Hf]; subst. rewrite Forall_forall in *.
    intros y Hy. apply Hf. now apply (firstn_incl n l).
Qed.



Lemma average_skipped histogram smoothedBuckets minValue (indices : list Z)
  (s : Avg) :
  (forall i, In i indices -> countAt (counts histogram) i = 0%Z) ->
  fold_left (averageStep histogram smoothedBuckets minValue) indices s = s.
Proof.
  revert s. induction indices as [|i rest IH]; intros s H; [reflexivity|].
  cbn [fold_left]. unfold averageStep at 2. rewrite (H i) by (now left).
  cbn [Z.eqb]. apply IH. intros j Hj. apply H. now right.
Qed.

(** X26.  With arrays of 360 entries and peaks on the ring, when no pixel
    was counted in the buckets of the peaks (the index of each peak and
    the buckets of its arc), [extractPeakColors] returns no colour, in
    either mode: no average is taken over an empty bucket. *)
Theorem extractPeakColors_no_samples histogram peaks smoothedBuckets options :
  readsInside histogram peaks smoothedBuckets ->
  (forall p i, In p peaks -> i = index p \/ In i (getPeakIndices p) ->
               countAt (counts histogram) i = 0%Z) ->
  extractPeakColors histogram peaks smoothedBuckets options = [].
Proof.
  intros _ H. unfold extractPeakColors.
  assert (E : flat_map (fun p =>
                          match resolvePeak histogram smoothedBuckets options p with
                          | Some c => [c]
                          | None => []
                          end) peaks = []).
  { rewrite flat_map_concat_map. apply concat_nil_Forall.
    apply Forall_forall. intros l Hl. apply in_map_iff in Hl as (p & <- & Hp).
    unfold resolvePeak. destruct (mode options).
    - rewrite (H p (index p) Hp) by (now left). reflexivity.
    - rewrite average_skipped by (intros i Hi; apply (H p); auto).
      cbn [totalWeight]. now rewrite (proj2 (leb_true 0 0)) by lra. }
  rewrite E. cbn [Js.sortDesc fold_right]. unfold filterByDistance.
  destruct (_ || _); cbn [fold_left]; unfold Js.slice0;
    destruct (_ <? 0)%Z; apply firstn_nil.
Qed.

(** X26 at the empty histogram and the peak of the ramp. *)
Lemma extractPeakColors_no_samples_witness :
  readsInside (emptyHistogram (Some 0)) [rampPeak] rampBuckets
  /\ extractPeakColors (emptyHistogram (Some 0)) [rampPeak] rampBuckets
       (withDefaults average) = [].
Proof.
  assert (Hr : readsInside (emptyHistogram (Some 0)) [rampPeak] rampBuckets).
  { unfold readsInside. repeat (split; [reflexivity|]).
    constructor; [|constructor]. unfold onRing. cbn. lia. }
  assert (H : forall p i, In p [rampPeak] ->
                i = index p \/ In i (getPeakIndices p) ->
                countAt (counts (emptyHistogram (Some 0))) i = 0%Z).
  { intros p i _ _. cbn [counts emptyHistogram]. apply countAt_zeros. }
  split; [exact Hr|].
  exact (extractPeakColors_no_samples (emptyHistogram (Some 0)) [rampPeak]
           rampBuckets (withDefaults average) Hr H).
Defined.

(** ** extract-colors.ts: the pipeline on a loaded image *)

Lemma numbers_defined (l : list R) : ExtractColors.numbers (map Some l) = Some l.
Proof. induction l as [|x l IH]; simpl; [reflexivity|now rewrite IH]. Qed.

Lemma histogram_sized (img : ImageData)
  (options : HueHistogram.ExtractHueHistogramOptions) :
  exists h, HueHistogram.extractHueHistogram img options = Js.Normal h
            /\ length (buckets h) = 360%nat.
Proof.
  eexists. split; [reflexivity|]. cbn [finish buckets].
  apply (fold_left_invariant sized); [|apply init_sized].
  intros s i. apply pixel_sized.
Qed.

(** Inside the ring, or without smoothing, the smoothed buckets are
    numbers, as many as the buckets. *)
Lemma smooth_numbers (buckets : list R) (sigma : R) :
  sigma <= 0 \/ (Zceil (sigma * 3) <= Z.of_nat (length buckets))%Z ->
  exists smoothed,
    gaussianSmoothHistogram buckets sigma = map Some smoothed
    /\ length smoothed = length buckets
    /\ forall lo hi, Forall (fun b => lo <= b <= hi) buckets ->
                     Forall (fun b => lo <= b <= hi) smoothed.
Proof.
  intros H. destruct (Rle_dec sigma 0) as [Hs|Hs].
  - exists buckets. unfold gaussianSmoothHistogram.
    rewrite (proj2 (leb_true sigma 0)) by exact Hs. auto.
  - destruct H as [H|H]; [contradiction|].
    assert (Hpos : 0 < sigma) by lra.
    eexists. split; [now apply smooth_inside|]. split.
    + rewrite length_map, range_length. lia.
    + intros lo hi Hb. apply Forall_forall. intros x Hx.
      apply in_map_iff in Hx as (j & <- & Hj). apply in_range in Hj.
      pose proof (radius_pos sigma Hpos).
      apply convolve_bounds; try assumption; try lia.
      * now apply kernel_nonneg.
      * now apply kernel_sum.
Qed.

Lemma all_equal_repeat (l : list R) (v : R) :
  Forall (fun b => v <= b <= v) l -> l = repeat v (length l).
Proof.
  induction 1 as [|x l Hx Hl IH]; simpl; [reflexivity|].
  rewrite <- IH. f_equal. lra.
Qed.

Lemma flat_ring_no_peak (v : R) (n : nat) (minHeight : R) :
  detectPeaks (repeat v n) minHeight = [].
Proof.
  unfold detectPeaks.
  assert (C : forall t, candidates (repeat v n) t = []).
  { intros t. unfold candidates.
    rewrite flat_map_concat_map. apply concat_nil_Forall.
    apply Forall_forall. intros l Hl. apply in_map_iff in Hl as (i & <- & Hi).
    apply in_range in Hi. rewrite repeat_length in Hi.
    unfold isCandidate. rewrite repeat_length.
    rewrite (at_repeat v n i) by assumption.
    rewrite at_repeat by (apply rem_inside; lia).
    rewrite (proj2 (ltb_false v v)) by lra. reflexivity. }
  rewrite C. reflexivity.
Qed.

Lemma extractPeakColors_nil histogram smoothedBuckets options :
  extractPeakColors histogram [] smoothedBuckets options = [].
Proof.
  unfold extractPeakColors, filterByDistance. simpl.
  destruct (Js.leb _ 0); simpl; unfold Js.slice0;
    destruct (_ <? 0)%Z; now rewrite firstn_nil.
Qed.

(** X27.  On an image all of whose pixels have an alpha below 200, with no
    smoothing or a kernel radius of at most 360, the pipeline returns no
    colour. *)
Theorem extractColors_transparent_image (img : ImageData)
  (options : ExtractColors.ExtractColorsOptions) :
  wellFormed img ->
  (forall i, (0 <= i < width img * height img)%Z ->
             (channel img (i * 4 + 3) < 200)%Z) ->
  ExtractColors.sigma options <= 0
  \/ (Zceil (ExtractColors.sigma options * 3) <= 360)%Z ->
  ExtractColors.extractColors img options = Some [].
Proof.
  intros Hwf Ha Hs. unfold ExtractColors.extractColors.
  rewrite histogram_steps by assumption. rewrite steps_skipped.
  - rewrite finish_init. cbn [buckets emptyHistogram].
    destruct (smooth_numbers (repeat 0 360) (ExtractColors.sigma options))
      as (sm & -> & Hlen & Hb).
    { rewrite repeat_length. exact Hs. }
    rewrite numbers_defined. cbv zeta.
    assert (E : sm = repeat 0 360).
    { rewrite (all_equal_repeat sm 0).
      - rewrite Hlen, repeat_length. reflexivity.
      - apply Hb. apply Forall_forall. intros b Hb'.
        apply repeat_spec in Hb'. lra. }
    rewrite E, flat_ring_no_peak. now rewrite extractPeakColors_nil.
  - intros i Hi. apply in_range in Hi. unfold included.
    cbn [HueHistogram.lightnessMargin].
    rewrite (proj2 (Z.ltb_lt _ _) (Ha i Hi)). reflexivity.
Qed.

(** X27 at one red pixel of alpha 0 and the default options. *)
Lemma extractColors_transparent_image_witness :
  let img := mkImageData [255; 0; 0; 0]%Z 1 1 in
  wellFormed img
  /\ ExtractColors.extractColors img ExtractColors.defaults = Some [].
Proof.
  cbv zeta.
  assert (W : wellFormed (mkImageData [255; 0; 0; 0]%Z 1 1))
    by (unfold wellFormed; cbn; lia).
  assert (A : forall i,
             (0 <= i < width (mkImageData [255; 0; 0; 0]%Z 1 1)
                       * height (mkImageData [255; 0; 0; 0]%Z 1 1))%Z ->
             (channel (mkImageData [255; 0; 0; 0]%Z 1 1) (i * 4 + 3) < 200)%Z).
  { cbn [width height]. intros i Hi. assert (i = 0%Z) by lia. subst i.
    vm_compute. reflexivity. }
  assert (S : ExtractColors.sigma ExtractColors.defaults <= 0
              \/ (Zceil (ExtractColors.sigma ExtractColors.defaults * 3)
                  <= 360)%Z).
  { right. cbn [ExtractColors.sigma ExtractColors.defaults].
    rewrite (Zceil_eq 6) by lra. lia. }
  split; [exact W|].
  exact (extractColors_transparent_image _ ExtractColors.defaults W A S).
Defined.



(** ** useColorAdjustWebGL.ts: the lookup table *)

Lemma nth_chunks (f : Z -> list Z) (n i k : Z) (d : Z) :
  (forall j, length (f j) = 4%nat) ->
  (0 <= i < n)%Z -> (0 <= k < 4)%Z ->
  nth (Z.to_nat (i * 4 + k)) (flat_map f (Js.range n)) d
  = nth (Z.to_nat k) (f i) d.
Proof.
  intros Hf Hi Hk.
  assert (L : forall m : nat,
             length (flat_map f (Js.range (Z.of_nat m))) = (4 * m)%nat).
  { induction m as [|m IH]; [reflexivity|].
    rewrite Nat2Z.inj_succ, <- Z.add_1_r, range_succ by lia.
    rewrite flat_map_app, length_app, IH. cbn [flat_map].
    rewrite app_nil_r, Hf. lia. }
  assert (G : forall m : nat, (i < Z.of_nat m)%Z ->
             nth (Z.to_nat (i * 4 + k)) (flat_map f (Js.range (Z.of_nat m))) d
             = nth (Z.to_nat k) (f i) d).
  { induction m as [|m IH]; intros Hm; [lia|].
    rewrite Nat2Z.inj_succ, <- Z.add_1_r, range_succ by lia.
    rewrite flat_map_app. cbn [flat_map]. rewrite app_nil_r.
    destruct (Z.eq_dec i (Z.of_nat m)) as [E|E].
    - rewrite app_nth2 by (rewrite L; lia). rewrite L. subst i.
      f_equal. lia.
    - rewrite app_nth1 by (rewrite L; lia). apply IH. lia. }
  specialize (G (Z.to_nat n)). rewrite Z2Nat.id in G by lia. apply G. lia.
Qed.

Lemma lut_clamp_unit (v : R) : -1 <= Lut.clamp v (-1) 1 <= 1.
Proof.
  unfold Lut.clamp. split; [apply Rmax_l|].
  apply Rmax_lub; [lra|apply Rmin_l].
Qed.

Lemma encodeByte_range (v : R) :
  -1 <= v <= 1 -> (0 <= Lut.encodeByte v <= 200)%Z.
Proof.
  intros Hv. unfold Lut.encodeByte, Lut.round.
  set (x := (v + 1) / 2 * 200 + 0.5).
  assert (Hx : 0.5 <= x <= 200.5) by (subst x; lra).
  pose proof (Zfloor_bound x) as [Hl Hu]. split.
  - apply (Zfloor_lub 0). lra.
  - assert (IZR (Zfloor x) < IZR 201) by lra.
    apply lt_IZR in H. lia.
Qed.

Lemma toUint8_small (z : Z) : (0 <= z < 256)%Z -> Lut.toUint8 z = z.
Proof. intros H. unfold Lut.toUint8. now apply Z.mod_small. Qed.

(** X29.  The table has 32 bytes, four per segment: for each of the eight
    segments the bytes of brightness, saturation and hue shift are
    between 0 and 200, and the fourth byte is 255. *)
Theorem buildLUTData_bytes (peakColors : list PeakColor)
  (adjustments : Lut.ColorAdjustments) :
  let data := Lut.buildLUTData peakColors adjustments in
  length data = 32%nat
  /\ forall i, (0 <= i < 8)%Z ->
       (0 <= nth (Z.to_nat (i * 4)) data 0 <= 200)%Z
       /\ (0 <= nth (Z.to_nat (i * 4 + 1)) data 0 <= 200)%Z
       /\ (0 <= nth (Z.to_nat (i * 4 + 2)) data 0 <= 200)%Z
       /\ nth (Z.to_nat (i * 4 + 3)) data 0%Z = 255%Z.
Proof.
  cbv zeta. unfold Lut.buildLUTData. split.
  - change (Js.range Lut.LUT_SIZE) with [0; 1; 2; 3; 4; 5; 6; 7]%Z.
    reflexivity.
  - intros i Hi. change Lut.LUT_SIZE with 8%Z.
    assert (G : forall k, (0 <= k < 4)%Z ->
              nth (Z.to_nat (i * 4 + k))
                (flat_map (Lut.segment peakColors adjustments) (Js.range 8)) 0%Z
              = nth (Z.to_nat k) (Lut.segment peakColors adjustments i) 0%Z)
      by (intros k Hk; apply nth_chunks; [reflexivity|lia|lia]).
    pose proof (G 0%Z) as G0. rewrite Z.add_0_r in G0.
    rewrite G0, !G by lia. clear G G0.
    unfold Lut.segment. cbv zeta.
    change (Z.to_nat 0) with 0%nat. change (Z.to_nat 1) with 1%nat.
    change (Z.to_nat 2) with 2%nat. change (Z.to_nat 3) with 3%nat.
    cbn [nth].
    set (s := Lut.forEach _ peakColors 0 _).
    pose proof (encodeByte_range _ (lut_clamp_unit (Lut.brightnessOf s))) as Hb.
    pose proof (encodeByte_range _ (lut_clamp_unit (Lut.saturationOf s))) as Hs.
    pose proof (encodeByte_range _ (lut_clamp_unit (Lut.hueShiftOf s))) as Hh.
    rewrite !toUint8_small by lia. repeat split; lia.
Qed.

Lemma forEach_unchanged (f : Lut.Sums -> PeakColor -> Z -> Lut.Sums)
  (colors : list PeakColor) (index : Z) (s : Lut.Sums) :
  (forall k c, (index <= k < index + Z.of_nat (length colors))%Z ->
               f s c k = s) ->
  Lut.forEach f colors index s = s.
Proof.
  revert index. induction colors as [|c rest IH]; intros index H;
    [reflexivity|].
  cbn [Lut.forEach]. rewrite H by (cbn [length]; lia).
  apply IH. intros k c' Hk. apply H. cbn [length]. lia.
Qed.

(** X30.  When every colour has no adjustment, or one whose three values
    are 0, the table is neutral: every segment holds 100, 100, 100,
    255. *)
Theorem buildLUTData_neutral (peakColors : list PeakColor)
  (adjustments : Lut.ColorAdjustments) :
  (forall index, (0 <= index < Z.of_nat (length peakColors))%Z ->
     adjustments index = None
     \/ adjustments index = Some Lut.DEFAULT_ADJUSTMENT) ->
  Lut.buildLUTData peakColors adjustments
  = flat_map (fun _ => [100; 100; 100; 255]%Z) (Js.range 8).
Proof.
  intros H. unfold Lut.buildLUTData. change Lut.LUT_SIZE with 8%Z.
  apply flat_map_ext. intros i. unfold Lut.segment. cbv zeta.
  rewrite forEach_unchanged.
  - cbn [Lut.brightnessOf Lut.saturationOf Lut.hueShiftOf].
    assert (C : Lut.clamp 0 (-1) 1 = 0).
    { unfold Lut.clamp. rewrite Rmin_right by lra. apply Rmax_right. lra. }
    assert (E : Lut.encodeByte 0 = 100%Z).
    { unfold Lut.encodeByte, Lut.round. apply Zfloor_eq. lra. }
    rewrite C, E. reflexivity.
  - intros k c Hk. unfold Lut.accumulate. cbv zeta.
    assert (Z0 : Lut.strictEq 0 0 = true).
    { unfold Lut.strictEq. destruct (Req_dec_T 0 0); [reflexivity|lra]. }
    destruct (H k) as [-> | ->]; [lia| |];
      cbn [Lut.hue Lut.saturation Lut.lightness Lut.DEFAULT_ADJUSTMENT];
      rewrite Z0; reflexivity.
Qed.

(** X30 at the colour of the ramp, without any adjustment. *)
Lemma buildLUTData_neutral_witness :
  Lut.buildLUTData [mkPeakColor 0 0.1 0.5 11 rampPeak] (fun _ => None)
  = flat_map (fun _ => [100; 100; 100; 255]%Z) (Js.range 8).
Proof.
  assert (H : forall index,
             (0 <= index
              < Z.of_nat (length [mkPeakColor 0 0.1 0.5 11 rampPeak]))%Z ->
             (fun _ : Z => @None Lut.ColorAdjustment) index = None
             \/ (fun _ : Z => @None Lut.ColorAdjustment) index
                = Some Lut.DEFAULT_ADJUSTMENT)
    by (intros index _; now left).
  exact (buildLUTData_neutral [mkPeakColor 0 0.1 0.5 11 rampPeak]
           (fun _ => None) H).
Defined.

(** ** hue-histogram.ts on a buffer of any length *)

Lemma accumulate_arrays (s t : Acc) (l c h w : R) :
  Buffer.arrays s = Buffer.arrays t ->
  Buffer.arrays (accumulate s l c h w) = Buffer.arrays (accumulate t l c h w).
Proof.
  unfold Buffer.arrays, accumulate.
  cbn [accBuckets accChromaSum accLightnessSum accCounts].
  intros H. injection H as -> -> -> ->. reflexivity.
Qed.

Lemma get_beyond (img : ImageData) (z : Z) :
  (Z.of_nat (length (data img)) <= z)%Z -> Js.get (data img) z = None.
Proof.
  intros H. unfold Js.get. destruct (Z.ltb_spec z 0); [reflexivity|].
  apply nth_error_None. lia.
Qed.

(** Whatever the buffer, the loop body changes the four arrays as the
    accumulation step of a tallied pixel does, and not at all for the
    other pixels. *)
Lemma pixel_arrays img options s t i :
  (0 <= i)%Z -> Buffer.arrays s = Buffer.arrays t ->
  Buffer.arrays (HueHistogram.pixel img options s i)
  = Buffer.arrays
      (step (Buffer.tallied (HueHistogram.lightnessMargin options) img)
         (lightnessOf img) (chromaOf img) (hueOf img) (weightOf options img)
         t i).
Proof.
  intros Hi Hst. unfold HueHistogram.pixel, step, Buffer.tallied,
    Buffer.hasColour, Buffer.opaque, Buffer.inWindow.
  destruct (Z.ltb_spec (i * 4 + 2) (Z.of_nat (length (data img)))) as [Hc|Hc].
  - rewrite (channel_inside img (i * 4)), (channel_inside img (i * 4 + 1)),
      (channel_inside img (i * 4 + 2)) by lia. cbn [andb].
    destruct (transparent _); [exact Hst|]. cbn [negb andb].
    unfold weightOf, lightnessOf, chromaOf, hueOf, oklchOf.
    destruct (Oklch.rgbToOklch _ _ _) as [[l c] h]. cbn [fst snd].
    destruct (_ || _); [exact Hst|]. cbn [negb].
    now apply accumulate_arrays.
  - cbn [andb]. destruct (transparent _); [exact Hst|].
    rewrite (get_beyond img (i * 4 + 2)) by lia.
    destruct (Js.get (data img) (i * 4)); [|exact Hst].
    destruct (Js.get (data img) (i * 4 + 1)); exact Hst.
Qed.

Lemma pixel_gated_arrays img options s t i :
  (0 <= i)%Z -> Buffer.arrays s = Buffer.arrays t ->
  Buffer.arrays (HueHistogramGated.pixel img options s i)
  = Buffer.arrays
      (step (fun i =>
               Buffer.tallied (HueHistogramGated.lightnessMargin options) img i
               && negb (gated (HueHistogramGated.minChroma options) img i))
         (lightnessOf img) (chromaOf img) (hueOf img)
         (weightOfGated options img) t i).
Proof.
  intros Hi Hst. unfold HueHistogramGated.pixel, step, Buffer.tallied,
    Buffer.hasColour, Buffer.opaque, Buffer.inWindow, gated.
  destruct (Z.ltb_spec (i * 4 + 2) (Z.of_nat (length (data img)))) as [Hc|Hc].
  - rewrite (channel_inside img (i * 4)), (channel_inside img (i * 4 + 1)),
      (channel_inside img (i * 4 + 2)) by lia. cbn [andb].
    destruct (transparent _); [exact Hst|]. cbn [negb andb].
    unfold weightOfGated, lightnessOf, chromaOf, hueOf, oklchOf.
    destruct (Oklch.rgbToOklch _ _ _) as [[l c] h]. cbn [fst snd].
    destruct (Js.ltb c _); cbn [negb];
      [destruct (_ || _); exact Hst|].
    destruct (_ || _); [exact Hst|]. cbn [negb andb].
    now apply accumulate_arrays.
  - cbn [andb]. destruct (transparent _); [exact Hst|].
    rewrite (get_beyond img (i * 4 + 2)) by lia.
    destruct (Js.get (data img) (i * 4)); [|exact Hst].
    destruct (Js.get (data img) (i * 4 + 1)); exact Hst.
Qed.

Lemma fold_arrays {f g : Acc -> Z -> Acc} (px : list Z) (s t : Acc) :
  (forall s t i, In i px -> Buffer.arrays s = Buffer.arrays t ->
                 Buffer.arrays (f s i) = Buffer.arrays (g t i)) ->
  Buffer.arrays s = Buffer.arrays t ->
  Buffer.arrays (fold_left f px s) = Buffer.arrays (fold_left g px t).
Proof.
  revert s t. induction px as [|i px IH]; intros s t H Hst; [exact Hst|].
  cbn [fold_left]. apply IH.
  - intros s' t' j Hj. apply H. now right.
  - apply H; [now left|exact Hst].
Qed.

Lemma arrays_tally (inc : Z -> bool) (w : Z -> R) (img : ImageData) (s : Acc)
  (k : Z) :
  (0 <= k < 360)%Z ->
  Buffer.arrays s
  = Buffer.arrays
      (fold_left (step inc (lightnessOf img) (chromaOf img) (hueOf img) w)
         (Js.range (width img * height img)) init) ->
  length (accBuckets s) = 360%nat /\ length (accChromaSum s) = 360%nat
  /\ length (accLightnessSum s) = 360%nat /\ length (accCounts s) = 360%nat
  /\ countAt (accCounts s) k = Z.of_nat (length (pixelsOf inc img k))
  /\ Js.at_ (accChromaSum s) k = Rsum (map (chromaOf img) (pixelsOf inc img k))
  /\ Js.at_ (accLightnessSum s) k
     = Rsum (map (lightnessOf img) (pixelsOf inc img k))
  /\ Js.at_ (accBuckets s) k = Rsum (map w (pixelsOf inc img k)).
Proof.
  intros Hk H. unfold Buffer.arrays in H. injection H as -> -> -> ->.
  destruct (steps_total inc w img (Js.range (width img * height img)) init
              init_sized init_total) as ((L1 & L2 & L3 & L4) & _).
  destruct (steps_tally inc w img k Hk) as (Hc & Hcs & Hls & Hb).
  cbv zeta in *. repeat split; assumption.
Qed.

